(** * AVX-512 vector conversion kernels (ATen/cpu/vec/vec512/vec512_convert.h)

    A shallow embedding of the [VecConvert] specializations of
    [vec512_convert.h] and the properties their specification states.

    A 512-bit register ([__m512i], [__m512]) is a [Z] in [0, 2^512); its
    lanes are the consecutive [w]-bit fields, lane 0 in the low bits.  A
    [VectorizedN<T, 1>] is one register, a [VectorizedN<T, 2>] a pair of
    registers.  The Intel intrinsics are given the meaning of their
    pseudo-code in the Intel Intrinsics Guide. *)

From Stdlib Require Import ZArith List Lia Bool.
Import ListNotations.
Local Open Scope Z_scope.

(** ** Lanes of a register *)

Module Bits.

(** The low [w] bits of [x]: an unsigned [w]-bit pattern. *)
Definition wrap (w x : Z) : Z := Z.land x (Z.ones w).

(** The value of the [w]-bit pattern [x] read as a two's complement number. *)
Definition signed (w x : Z) : Z :=
  let u := wrap w x in
  if Z.testbit u (w - 1) then u - 2 ^ w else u.

(** Lane [i] of width [w] of the register [r]. *)
Definition lane (w r : Z) (i : nat) : Z :=
  wrap w (Z.shiftr r (w * Z.of_nat i)).

(** A register built from its lanes, first lane in the low bits. *)
Fixpoint pack (w : Z) (l : list Z) : Z :=
  match l with
  | [] => 0
  | x :: t => Z.lor (wrap w x) (Z.shiftl (pack w t) w)
  end.

(** The first [n] lanes of a register. *)
Fixpoint unpack (w : Z) (n : nat) (r : Z) : list Z :=
  match n with
  | O => []
  | S k => wrap w r :: unpack w k (Z.shiftr r w)
  end.

End Bits.

(** ** IEEE-754 binary32 patterns *)

Module F32.
Import Bits.

(** What a binary32 pattern denotes: a NaN, an infinity, or the finite
    number [(-1)^neg * m * 2^e]. *)
Inductive fclass : Type :=
| FNaN
| FInf (neg : bool)
| FFin (neg : bool) (m e : Z).

Definition sign_bit (b : Z) : bool := Z.testbit b 31.
Definition exponent_field (b : Z) : Z := Z.land (Z.shiftr b 23) 255.
Definition fraction_field (b : Z) : Z := Z.land b (Z.ones 23).

Definition decode (b : Z) : fclass :=
  let ex := exponent_field b in
  let fr := fraction_field b in
  if ex =? 255 then (if fr =? 0 then FInf (sign_bit b) else FNaN)
  else if ex =? 0 then FFin (sign_bit b) fr (-149)
  else FFin (sign_bit b) (fr + 2 ^ 23) (ex - 150).

Definition is_nan (b : Z) : bool :=
  match decode b with FNaN => true | _ => false end.

(** The four IEEE rounding directions. *)
Inductive rounding : Type :=
| TO_NEAREST_INT
| TO_NEG_INF
| TO_POS_INF
| TO_ZERO.

(** Whether [m * 2^e] is an integer. *)
Definition is_integer (m e : Z) : bool :=
  (0 <=? e) || (Z.land m (Z.ones (- e)) =? 0).

(** [m * 2^e] rounded to an integer magnitude; [neg] is the sign of the
    number, which the directed roundings need. *)
Definition round_magnitude (r : rounding) (neg : bool) (m e : Z) : Z :=
  if 0 <=? e then m * 2 ^ e
  else
    let q := Z.shiftr m (- e) in
    let rem := Z.land m (Z.ones (- e)) in
    let half := 2 ^ (- e - 1) in
    match r with
    | TO_ZERO => q
    | TO_NEAREST_INT =>
        if (half <? rem) || ((rem =? half) && Z.odd q) then q + 1 else q
    | TO_NEG_INF => if neg && (0 <? rem) then q + 1 else q
    | TO_POS_INF => if negb neg && (0 <? rem) then q + 1 else q
    end.

(** The finite number [(-1)^neg * m * 2^e] rounded to an integer. *)
Definition to_integer (r : rounding) (neg : bool) (m e : Z) : Z :=
  if neg then - round_magnitude r neg m e else round_magnitude r neg m e.

(** The finite number [(-1)^neg * m * 2^e] as a fraction
    [numerator / denominator], the denominator a power of two. *)
Definition numerator (neg : bool) (m e : Z) : Z :=
  (if neg then -1 else 1) * (if 0 <=? e then m * 2 ^ e else m).

Definition denominator (e : Z) : Z :=
  if 0 <=? e then 1 else 2 ^ (- e).

(** [t] is [(-1)^neg * m * 2^e] with its fraction dropped: the integer of
    the same sign and of the largest magnitude not above the number's. *)
Definition truncation_of (neg : bool) (m e t : Z) : Prop :=
  (if neg then t <= 0 else 0 <= t)
  /\ Z.abs t * denominator e <= Z.abs (numerator neg m e)
     < (Z.abs t + 1) * denominator e.

(** The pattern [b] denotes exactly the integer [v]. *)
Definition denotes (b v : Z) : Prop :=
  match decode b with
  | FFin neg m e => numerator neg m e = v * denominator e
  | _ => False
  end.

Definition denotesb (b v : Z) : bool :=
  match decode b with
  | FFin neg m e => numerator neg m e =? v * denominator e
  | _ => false
  end.

(** The binary32 pattern of the integer [v], rounded to nearest, ties to
    even (the rounding of MXCSR at its default setting).  A carry out of the
    significand runs into the exponent field, as the format intends. *)
Definition of_integer (v : Z) : Z :=
  if v =? 0 then 0
  else
    let a := Z.abs v in
    let k := Z.log2 a in
    let s := if v <? 0 then Z.shiftl 1 31 else 0 in
    let m :=
      if k <=? 23 then Z.shiftl a (23 - k)
      else
        let sh := k - 23 in
        let q := Z.shiftr a sh in
        let rem := Z.land a (Z.ones sh) in
        let half := Z.shiftl 1 (sh - 1) in
        if (half <? rem) || ((rem =? half) && Z.odd q) then q + 1 else q in
    s + (Z.shiftl (k + 127) 23 + (m - 2 ^ 23)).

(** The binary32 pattern of the integer [v], rounded in the direction [r]:
    an integer of more than 24 bits is cut to its top 24 bits, rounded as
    [round_magnitude] rounds, and a carry out of the significand runs into
    the exponent field. *)
Definition of_integer_r (r : rounding) (v : Z) : Z :=
  if v =? 0 then 0
  else
    let a := Z.abs v in
    let k := Z.log2 a in
    let s := if v <? 0 then Z.shiftl 1 31 else 0 in
    let m :=
      if k <=? 23 then Z.shiftl a (23 - k)
      else round_magnitude r (v <? 0) a (23 - k) in
    s + (Z.shiftl (k + 127) 23 + (m - 2 ^ 23)).

(** Floating-point exception flags of MXCSR that a conversion can set. *)
Inductive fexception : Type :=
| Invalid
| Inexact.

(** The part of MXCSR the kernels depend on: rounding control and the
    sticky exception flags. *)
Record MXCSR : Type := { rc : rounding; flags : list fexception }.

End F32.

(** ** Intel intrinsics used by the kernels

    [__m128i], [__m256i] and [__m512i] (and [__m256], [__m512], whose lanes
    hold binary32 patterns) are bit patterns of 128, 256 and 512 bits.  Each
    definition follows the operation given for the intrinsic in the Intel
    Intrinsics Guide. *)

Module Intrin.
Import Bits F32.

(** Casts to a narrower register keep the low bits. *)
Definition _mm512_castsi512_si128 (a : Z) : Z := wrap 128 a.
Definition _mm512_castsi512_si256 (a : Z) : Z := wrap 256 a.
Definition _mm512_castps512_ps256 (a : Z) : Z := wrap 256 a.

(** Casts to a wider register leave the upper 256 bits undefined: [undef]
    stands for whatever they hold. *)
Definition _mm512_castsi256_si512 (undef a : Z) : Z :=
  Z.lor (wrap 256 a) (Z.shiftl (wrap 256 undef) 256).
Definition _mm512_castps256_ps512 (undef a : Z) : Z :=
  Z.lor (wrap 256 a) (Z.shiftl (wrap 256 undef) 256).

(** [imm8[0]] selects the 256-bit half that is extracted. *)
Definition _mm512_extracti32x8_epi32 (a imm8 : Z) : Z :=
  if Z.testbit imm8 0 then wrap 256 (Z.shiftr a 256) else wrap 256 a.
Definition _mm512_extractf32x8_ps (a imm8 : Z) : Z :=
  if Z.testbit imm8 0 then wrap 256 (Z.shiftr a 256) else wrap 256 a.

(** [dst := a], then the half selected by [imm8[0]] is replaced by [b]. *)
Definition _mm512_inserti32x8 (a b imm8 : Z) : Z :=
  if Z.testbit imm8 0
  then Z.lor (wrap 256 a) (Z.shiftl (wrap 256 b) 256)
  else Z.lor (wrap 256 b) (Z.shiftl (wrap 256 (Z.shiftr a 256)) 256).
Definition _mm512_insertf32x8 (a b imm8 : Z) : Z :=
  if Z.testbit imm8 0
  then Z.lor (wrap 256 a) (Z.shiftl (wrap 256 b) 256)
  else Z.lor (wrap 256 b) (Z.shiftl (wrap 256 (Z.shiftr a 256)) 256).

(** VPMOVQD: each of the 8 64-bit lanes is truncated to 32 bits. *)
Definition _mm512_cvtepi64_epi32 (a : Z) : Z :=
  pack 32 (map (wrap 32) (unpack 64 8 a)).

(** VPMOVSXDQ: each of the 8 32-bit lanes is sign-extended to 64 bits. *)
Definition _mm512_cvtepi32_epi64 (a : Z) : Z :=
  pack 64 (map (fun x => wrap 64 (signed 32 x)) (unpack 32 8 a)).

(** VPMOVSXBD: each of the 16 8-bit lanes is sign-extended to 32 bits. *)
Definition _mm512_cvtepi8_epi32 (a : Z) : Z :=
  pack 32 (map (fun x => wrap 32 (signed 8 x)) (unpack 8 16 a)).

(** VPMOVZXBD: each of the 16 8-bit lanes is zero-extended to 32 bits. *)
Definition _mm512_cvtepu8_epi32 (a : Z) : Z :=
  pack 32 (map (fun x => wrap 32 (wrap 8 x)) (unpack 8 16 a)).

(** Rounding-control immediates of [immintrin.h]. *)
Definition _MM_FROUND_TO_NEAREST_INT : Z := 0.
Definition _MM_FROUND_TO_NEG_INF : Z := 1.
Definition _MM_FROUND_TO_POS_INF : Z := 2.
Definition _MM_FROUND_TO_ZERO : Z := 3.
Definition _MM_FROUND_CUR_DIRECTION : Z := 4.
Definition _MM_FROUND_NO_EXC : Z := 8.

(** The rounding an immediate asks for: bit 2 defers to MXCSR, else bits
    1:0 give the direction. *)
Definition rounding_of (st : MXCSR) (imm : Z) : rounding :=
  if Z.testbit imm 2 then rc st
  else match Z.land imm 3 with
       | 0 => TO_NEAREST_INT
       | 1 => TO_NEG_INF
       | 2 => TO_POS_INF
       | _ => TO_ZERO
       end.

(** Bit 3 of the immediate suppresses all exceptions. *)
Definition suppress_exceptions (imm : Z) : bool := Z.testbit imm 3.

(** The 64-bit "integer indefinite" value that a conversion returns for a
    NaN, an infinity or a result outside the int64 range. *)
Definition integer_indefinite64 : Z := 2 ^ 63.

(** One lane of VCVTPS2QQ: the converted pattern and the exceptions the
    lane signals. *)
Definition cvtps_epi64_lane (r : rounding) (b : Z) : Z * list fexception :=
  match decode b with
  | FFin neg m e =>
      let t := to_integer r neg m e in
      if (- 2 ^ 63 <=? t) && (t <? 2 ^ 63)
      then (wrap 64 t, if is_integer m e then [] else [Inexact])
      else (integer_indefinite64, [Invalid])
  | _ => (integer_indefinite64, [Invalid])
  end.

(** VCVTPS2QQ with embedded rounding: the 8 binary32 lanes of [a] are
    converted to 64-bit integers; the exception flags are recorded in MXCSR
    unless the immediate suppresses them. *)
Definition _mm512_cvt_roundps_epi64 (a imm : Z) (st : MXCSR) : Z * MXCSR :=
  let r := rounding_of st imm in
  let out := map (cvtps_epi64_lane r) (unpack 32 8 a) in
  (pack 64 (map fst out),
   if suppress_exceptions imm then st
   else {| rc := rc st; flags := flags st ++ concat (map snd out) |}).

(** VCVTQQ2PS: each of the 8 signed 64-bit lanes is converted to binary32,
    rounded in the direction the rounding control of MXCSR gives (the
    intrinsic has no rounding immediate); the precision flag it may set is
    not recorded. *)
Definition _mm512_cvtepi64_ps (a : Z) (st : MXCSR) : Z :=
  pack 32 (map (fun x => of_integer_r (rc st) (signed 64 x)) (unpack 64 8 a)).

(** VCVTDQ2PS: each of the 16 signed 32-bit lanes is converted to binary32.
    No kernel of this file calls it; it serves the int32 to float step of
    the composed path from the 8-bit integers ([VecConvert_float_1_int32_t_1]
    below), whose lanes every rounding direction converts exactly, so it is
    given at the default of MXCSR, round to nearest even (flags not
    recorded). *)
Definition _mm512_cvtepi32_ps (a : Z) : Z :=
  pack 32 (map (fun x => of_integer (signed 32 x)) (unpack 32 16 a)).

End Intrin.

(** ** Vector register groups *)

Module Group.
Import Bits.

(** Lanes of width [w] in one 512-bit register. *)
Definition lanes_per_register (w : Z) : nat := Z.to_nat (512 / w).

(** Logical element [i] of a group: register [i div lanes_per_register],
    lane [i mod lanes_per_register]. *)
Definition elem (w : Z) (g : list Z) (i : nat) : Z :=
  lane w (nth (i / lanes_per_register w) g 0) (i mod lanes_per_register w).

(** The registers of a [VectorizedN<T, 1>] and of a [VectorizedN<T, 2>]. *)
Definition regs1 (r : Z) : list Z := [r].
Definition regs2 (g : Z * Z) : list Z := [fst g; snd g].

(** A well-formed register. *)
Definition is_m512 (r : Z) : Prop := 0 <= r < 2 ^ 512.

End Group.

(** ** Element types and the helpers of other headers *)

Module Types.

(** The element types the file converts between ([signed char] and
    [unsigned char] are [int8_t] and [uint8_t]). *)
Inductive ScalarType : Type :=
| BFloat16
| Half
| Float
| Int64
| Int32
| Int8
| UInt8.

(** Bits of one element. *)
Definition bits_of (t : ScalarType) : Z :=
  match t with
  | BFloat16 | Half => 16
  | Float | Int32 => 32
  | Int64 => 64
  | Int8 | UInt8 => 8
  end.

Definition is_8bit_integer (t : ScalarType) : bool :=
  match t with
  | Int8 | UInt8 => true
  | _ => false
  end.

(** [std::numeric_limits<T>::min()] and [max()] of the integer types. *)
Definition min_val (t : ScalarType) : Z :=
  match t with
  | Int8 => - 2 ^ 7
  | Int32 => - 2 ^ 31
  | Int64 => - 2 ^ 63
  | _ => 0
  end.

Definition max_val (t : ScalarType) : Z :=
  match t with
  | Int8 => 2 ^ 7 - 1
  | UInt8 => 2 ^ 8 - 1
  | Int32 => 2 ^ 31 - 1
  | Int64 => 2 ^ 63 - 1
  | _ => 0
  end.

(** The value of an 8-bit lane of type [t]. *)
Definition value8 (t : ScalarType) (x : Z) : Z :=
  match t with
  | Int8 => Bits.signed 8 x
  | _ => Bits.wrap 8 x
  end.

(** The functions the kernels call that are defined in other headers
    ([vec512_bfloat16.h], [vec_convert.h] and the headers they include):
    the register-wide brain-float and half conversions, the float/8-bit
    conversions, and the [VecConvert<dst_t, 1, int32_t, 1>] that this file
    does not specialise.  [cvtbf16_fp32] and [cvtfp16_fp32] return what the
    source receives through their output parameter. *)
Class Vec512Helpers : Type := {
  cvtbf16_fp32 : Z -> Z;
  cvtfp16_fp32 : Z -> Z;
  cvtfp32_bf16 : Z -> Z;
  cvtfp32_fp16 : Z -> Z;
  convert_float_to_int8 : ScalarType -> Z -> Z;
  convert_int8_to_float : ScalarType -> Z -> Z;
  VecConvert_dst_t_1_int32_t_1 : ScalarType -> Z -> Z
}.

End Types.

(** ** The kernels of [vec512_convert.h] *)

Module Kernels.
Import Bits F32 Intrin Types.

(** [VecConvert<float, 1, int64_t, 2>::apply], in the MXCSR it runs
    in. *)
Definition VecConvert_float_1_int64_t_2
    (undef : Z) (src : Z * Z) (st : MXCSR) : Z :=
  let low := _mm512_cvtepi64_ps (fst src) st in
  let high := _mm512_cvtepi64_ps (snd src) st in
  _mm512_insertf32x8 (_mm512_castps256_ps512 undef low) high 1.

(** [VecConvert<int64_t, 2, float, 1>::apply], with the MXCSR it runs in
    and leaves. *)
Definition VecConvert_int64_t_2_float_1 (src : Z) (st : MXCSR)
  : (Z * Z) * MXCSR :=
  let '(r0, st0) :=
    _mm512_cvt_roundps_epi64
      (_mm512_castps512_ps256 src)
      (Z.lor _MM_FROUND_TO_ZERO _MM_FROUND_NO_EXC) st in
  let '(r1, st1) :=
    _mm512_cvt_roundps_epi64
      (_mm512_extractf32x8_ps src 1)
      (Z.lor _MM_FROUND_TO_ZERO _MM_FROUND_NO_EXC) st0 in
  ((r0, r1), st1).

(** [VecConvert<int32_t, 1, int64_t, 2>::apply]. *)
Definition VecConvert_int32_t_1_int64_t_2 (undef : Z) (src : Z * Z) : Z :=
  let low := _mm512_cvtepi64_epi32 (fst src) in
  let high := _mm512_cvtepi64_epi32 (snd src) in
  _mm512_inserti32x8 (_mm512_castsi256_si512 undef low) high 1.

(** [VecConvert<int64_t, 2, int32_t, 1>::apply]. *)
Definition VecConvert_int64_t_2_int32_t_1 (src : Z) : Z * Z :=
  (_mm512_cvtepi32_epi64 (_mm512_castsi512_si256 src),
   _mm512_cvtepi32_epi64 (_mm512_extracti32x8_epi32 src 1)).

(** [VecConvert<int32_t, 1, int8_t, 1>::apply]. *)
Definition VecConvert_int32_t_1_int8_t_1 (src : Z) : Z :=
  let src128 := _mm512_castsi512_si128 src in
  _mm512_cvtepi8_epi32 src128.

(** [VecConvert<int32_t, 1, uint8_t, 1>::apply]. *)
Definition VecConvert_int32_t_1_uint8_t_1 (src : Z) : Z :=
  let src128 := _mm512_castsi512_si128 src in
  _mm512_cvtepu8_epi32 src128.

Section WithHelpers.
Context {helpers : Vec512Helpers}.

(** [VecConvert<float, 1, BFloat16, 1>::apply]. *)
Definition VecConvert_float_1_BFloat16_1 (src : Z) : Z :=
  cvtbf16_fp32 (_mm512_castsi512_si256 src).

(** [VecConvert<float, 1, Half, 1>::apply]. *)
Definition VecConvert_float_1_Half_1 (src : Z) : Z :=
  cvtfp16_fp32 (_mm512_castsi512_si256 src).

(** [VecConvert<BFloat16, 1, float, 1>::apply]. *)
Definition VecConvert_BFloat16_1_float_1 (undef : Z) (src : Z) : Z :=
  _mm512_castsi256_si512 undef (cvtfp32_bf16 src).

(** [VecConvert<Half, 1, float, 1>::apply]. *)
Definition VecConvert_Half_1_float_1 (undef : Z) (src : Z) : Z :=
  _mm512_castsi256_si512 undef (cvtfp32_fp16 src).

(** [VecConvert<dst_t, 1, float, 1>::apply], [dst_t] an 8-bit integer. *)
Definition VecConvert_dst_t_1_float_1 (dst_t : ScalarType) (src : Z) : Z :=
  convert_float_to_int8 dst_t src.

(** [VecConvert<float, 1, src_t, 1>::apply], [src_t] an 8-bit integer. *)
Definition VecConvert_float_1_src_t_1 (src_t : ScalarType) (src : Z) : Z :=
  convert_int8_to_float src_t src.

(** [VecConvert<dst_t, 1, int64_t, 2>::apply], [dst_t] an 8-bit integer. *)
Definition VecConvert_dst_t_1_int64_t_2
    (dst_t : ScalarType) (undef : Z) (src : Z * Z) : Z :=
  VecConvert_dst_t_1_int32_t_1 dst_t
    (VecConvert_int32_t_1_int64_t_2 undef src).

End WithHelpers.

End Kernels.

(** ** Compile-time dispatch *)

Module Dispatch.
Import F32 Types Kernels.

(** The specializations of [VecConvert] the file declares. *)
Inductive Kernel : Type :=
| K_float_BFloat16
| K_float_Half
| K_BFloat16_float
| K_Half_float
| K_float_int64
| K_int64_float
| K_int32_int64
| K_int64_int32
| K_int32_int8
| K_int32_uint8
| K_8bit_float (dst_t : ScalarType)
| K_float_8bit (src_t : ScalarType)
| K_8bit_int64 (dst_t : ScalarType).

(** [VecConvert<dst_t, dst_n, src_t, src_n>]: the specialization of this
    file that the tuple selects, [None] when the file has none and the
    primary template of [vec_convert.h] is used. *)
Definition VecConvert (dst_t : ScalarType) (dst_n : nat)
    (src_t : ScalarType) (src_n : nat) : option Kernel :=
  match dst_t, dst_n, src_t, src_n with
  | Float, 1%nat, BFloat16, 1%nat => Some K_float_BFloat16
  | Float, 1%nat, Half, 1%nat => Some K_float_Half
  | BFloat16, 1%nat, Float, 1%nat => Some K_BFloat16_float
  | Half, 1%nat, Float, 1%nat => Some K_Half_float
  | Float, 1%nat, Int64, 2%nat => Some K_float_int64
  | Int64, 2%nat, Float, 1%nat => Some K_int64_float
  | Int32, 1%nat, Int64, 2%nat => Some K_int32_int64
  | Int64, 2%nat, Int32, 1%nat => Some K_int64_int32
  | Int32, 1%nat, Int8, 1%nat => Some K_int32_int8
  | Int32, 1%nat, UInt8, 1%nat => Some K_int32_uint8
  | (Int8 | UInt8), 1%nat, Float, 1%nat => Some (K_8bit_float dst_t)
  | Float, 1%nat, (Int8 | UInt8), 1%nat => Some (K_float_8bit src_t)
  | (Int8 | UInt8), 1%nat, Int64, 2%nat => Some (K_8bit_int64 dst_t)
  | _, _, _, _ => None
  end.

(** How the body of a specialization produces its result: by intrinsics
    and helpers on the registers, or by chaining two [VecConvert]s through
    an intermediate element type. *)
Inductive Implementation : Type :=
| Direct
| Through (mid : ScalarType).

Definition implementation (k : Kernel) : Implementation :=
  match k with
  | K_8bit_int64 _ => Through Int32
  | _ => Direct
  end.

(** [apply] of a specialization on the registers of its source group;
    the result's registers. *)
Definition apply {helpers : Vec512Helpers}
    (k : Kernel) (undef : Z) (st : MXCSR) (src : list Z) : list Z :=
  let s0 := nth 0 src 0 in
  let s1 := nth 1 src 0 in
  match k with
  | K_float_BFloat16 => [VecConvert_float_1_BFloat16_1 s0]
  | K_float_Half => [VecConvert_float_1_Half_1 s0]
  | K_BFloat16_float => [VecConvert_BFloat16_1_float_1 undef s0]
  | K_Half_float => [VecConvert_Half_1_float_1 undef s0]
  | K_float_int64 => [VecConvert_float_1_int64_t_2 undef (s0, s1) st]
  | K_int64_float =>
      let r := fst (VecConvert_int64_t_2_float_1 s0 st) in [fst r; snd r]
  | K_int32_int64 => [VecConvert_int32_t_1_int64_t_2 undef (s0, s1)]
  | K_int64_int32 =>
      let r := VecConvert_int64_t_2_int32_t_1 s0 in [fst r; snd r]
  | K_int32_int8 => [VecConvert_int32_t_1_int8_t_1 s0]
  | K_int32_uint8 => [VecConvert_int32_t_1_uint8_t_1 s0]
  | K_8bit_float dst_t => [VecConvert_dst_t_1_float_1 dst_t s0]
  | K_float_8bit src_t => [VecConvert_float_1_src_t_1 src_t s0]
  | K_8bit_int64 dst_t => [VecConvert_dst_t_1_int64_t_2 dst_t undef (s0, s1)]
  end.

End Dispatch.

(** ** The helpers of other headers, as the specification describes them *)

Module Spec.
Import Bits F32 Intrin Types Kernels Dispatch.

(** The scalar conversions behind the register-wide helpers (the
    "companion scalar bit-conversion primitives" of the specification). *)
Record ScalarPrims : Type := {
  bf16_to_fp32 : Z -> Z;
  fp16_to_fp32 : Z -> Z;
  fp32_to_bf16 : Z -> Z;
  fp32_to_fp16 : Z -> Z;
  float_to_int8 : ScalarType -> Z -> Z;
  int8_to_float : ScalarType -> Z -> Z;
  int32_to_int8 : ScalarType -> Z -> Z
}.

(** [f] applied to each of the first [n] lanes of width [wi] of [a], the
    results stored in lanes of width [wo]. *)
Definition map_lanes (wi wo : Z) (n : nat) (f : Z -> Z) (a : Z) : Z :=
  pack wo (map f (unpack wi n a)).

(** A 512-bit register whose low 128 bits are [low] and whose other lanes
    hold [upper]. *)
Definition with_upper (upper low : Z) : Z :=
  Z.lor (wrap 128 low) (Z.shiftl (wrap 384 upper) 128).

(** Modelled from the spec: the bodies of [cvtbf16_fp32], [cvtfp16_fp32],
    [cvtfp32_bf16], [cvtfp32_fp16], [convert_float_to_int8],
    [convert_int8_to_float] and of the primary [VecConvert] template are
    missing; they belong to the headers [vec512_convert.h] includes.  The
    specification has every conversion act on each lane independently and
    in order (sections 4.3, 5 and 6), 16 elements per call; the 8-bit
    results fill the low 128 bits of their register and the specification
    leaves the other lanes open ([upper]). *)
Definition lanewise (p : ScalarPrims) (upper : Z) : Vec512Helpers := {|
  cvtbf16_fp32 := map_lanes 16 32 16 (bf16_to_fp32 p);
  cvtfp16_fp32 := map_lanes 16 32 16 (fp16_to_fp32 p);
  cvtfp32_bf16 := map_lanes 32 16 16 (fp32_to_bf16 p);
  cvtfp32_fp16 := map_lanes 32 16 16 (fp32_to_fp16 p);
  convert_float_to_int8 := fun t a =>
    with_upper upper (map_lanes 32 8 16 (float_to_int8 p t) a);
  convert_int8_to_float := fun t a =>
    map_lanes 8 32 16 (int8_to_float p t) a;
  VecConvert_dst_t_1_int32_t_1 := fun t a =>
    with_upper upper (map_lanes 32 8 16 (int32_to_int8 p t) a)
|}.

(** What the specification leaves open: the results for a NaN, the rounding
    of a fraction on the way to an 8-bit integer, the int32 to 8-bit policy,
    and the lanes of an 8-bit result beyond the sixteen converted ones. *)
Record Unspecified : Type := {
  nan_to_bf16 : Z -> Z;
  nan_to_int8 : ScalarType -> Z -> Z;
  fraction_rounding : rounding;
  int32_to_8bit : ScalarType -> Z -> Z;
  upper_lanes : Z
}.

(** Modelled from the spec: [cvtfp16_fp32] is missing; its scalar
    conversion is the "standard IEEE-754 binary16 to binary32 conversion",
    which is exact: an infinity stays one, a NaN becomes a quiet NaN with
    the same payload, a subnormal half is normalised, any other half keeps
    its fraction and has its exponent rebiased. *)
Definition half_to_float_lane (h : Z) : Z :=
  let s := Z.shiftl (Z.land (Z.shiftr h 15) 1) 31 in
  let ex := Z.land (Z.shiftr h 10) 31 in
  let fr := Z.land h (Z.ones 10) in
  if ex =? 31 then
    if fr =? 0 then Z.lor s (Z.shiftl 255 23)
    else Z.lor s (Z.lor (Z.shiftl 511 22) (Z.shiftl fr 13))
  else if ex =? 0 then
    if fr =? 0 then s
    else
      let k := Z.log2 fr in
      Z.lor s (Z.lor (Z.shiftl (k + 103) 23) (Z.shiftl (fr - 2 ^ k) (23 - k)))
  else Z.lor s (Z.lor (Z.shiftl (ex + 112) 23) (Z.shiftl fr 13)).

(** Modelled from the spec: [cvtfp32_fp16] is missing; its scalar
    conversion "rounds to nearest representable half, may overflow to
    infinity".  The number [m * 2^e] is rounded, ties to even, to a
    multiple of [2^q], [q] the exponent of the last bit a half of that size
    keeps (never below -24, the exponent of the smallest subnormal); a
    carry out of the significand runs into the exponent field. *)
Definition float_to_half_lane (b : Z) : Z :=
  let s := Z.shiftl (if sign_bit b then 1 else 0) 15 in
  match decode b with
  | FNaN => Z.lor s (Z.lor (Z.shiftl 63 9) (Z.shiftr (fraction_field b) 13))
  | FInf _ => Z.lor s (Z.shiftl 31 10)
  | FFin _ m e =>
      if m =? 0 then s
      else
        let q := Z.max (Z.log2 m + e - 10) (-24) in
        let M := round_magnitude TO_NEAREST_INT false m (e - q) in
        let bits := Z.shiftl (q + 25) 10 + (M - 2 ^ 10) in
        Z.lor s (Z.min bits (Z.shiftl 31 10))
  end.

(** Modelled from the spec: [cvtbf16_fp32] is missing; its scalar
    up-conversion "zero-extends the 16 bits into the low mantissa bits of a
    32-bit float": the 16 bits become the top half of the pattern, the low
    half is zero. *)
Definition bf16_to_fp32_lane (x : Z) : Z := Z.shiftl (wrap 16 x) 16.

(** Modelled from the spec: [cvtfp32_bf16] is missing; its scalar
    down-conversion produces the top 16 bits of the 32-bit pattern
    "round-to-nearest per hardware instruction semantics": the kept half is
    incremented when the discarded half is above the half-way point, or on
    it with the kept half odd (ties to even).  The result for a NaN is left
    open. *)
Definition fp32_to_bf16_lane (nan : Z -> Z) (b : Z) : Z :=
  if is_nan b then wrap 16 (nan b)
  else
    let top := Z.shiftr (wrap 32 b) 16 in
    let low := Z.land b (Z.ones 16) in
    if (2 ^ 15 <? low) || ((low =? 2 ^ 15) && Z.odd top)
    then wrap 16 (top + 1)
    else top.

(** Modelled from the spec: [cvtfp32_bf16] is missing; this is the other
    reading of the same sentence, in which the down-conversion "keeps the
    top 16 bits ..., discarding low mantissa bits" with no rounding at
    all. *)
Definition fp32_to_bf16_lane_truncating (b : Z) : Z :=
  Z.shiftr (wrap 32 b) 16.

(** Modelled from the spec: [convert_float_to_int8] is missing; its
    scalar conversion is "saturating": "values exceeding the destination
    type's range clamp to its min/max rather than wrapping".  The result is
    the 8-bit pattern of the clamped integer. *)
Definition float_to_int8_lane
    (r : rounding) (nan : ScalarType -> Z -> Z) (t : ScalarType) (b : Z) : Z :=
  match decode b with
  | FNaN => wrap 8 (nan t b)
  | FInf neg => wrap 8 (if neg then min_val t else max_val t)
  | FFin neg m e =>
      wrap 8 (Z.max (min_val t) (Z.min (max_val t) (to_integer r neg m e)))
  end.

(** The binary32 pattern that holds the integer [v] exactly, for
    [|v| < 2^24]: sign, biased exponent of the leading bit, and the bits
    below the leading bit at the top of the fraction. *)
Definition exact_binary32 (v : Z) : Z :=
  if v =? 0 then 0
  else
    let a := Z.abs v in
    let k := Z.log2 a in
    Z.lor (if v <? 0 then Z.shiftl 1 31 else 0)
      (Z.lor (Z.shiftl (k + 127) 23) (Z.shiftl (a - 2 ^ k) (23 - k))).

(** Modelled from the spec: [convert_int8_to_float] is missing; its
    scalar conversion is "exact, lossless": the pattern of the float equal
    to the lane's value. *)
Definition int8_to_float_lane (t : ScalarType) (x : Z) : Z :=
  exact_binary32 (value8 t x).

Definition spec_prims (u : Unspecified) : ScalarPrims := {|
  bf16_to_fp32 := bf16_to_fp32_lane;
  fp16_to_fp32 := half_to_float_lane;
  fp32_to_bf16 := fp32_to_bf16_lane (nan_to_bf16 u);
  fp32_to_fp16 := float_to_half_lane;
  float_to_int8 := float_to_int8_lane (fraction_rounding u) (nan_to_int8 u);
  int8_to_float := int8_to_float_lane;
  int32_to_int8 := int32_to_8bit u
|}.

Definition spec_helpers (u : Unspecified) : Vec512Helpers :=
  lanewise (spec_prims u) (upper_lanes u).

(** Modelled from the spec: the int32 to float kernel of the composed path
    "int8 -> int32 -> float" is missing (the file has no specialization for
    it); it is the lane-wise conversion of signed 32-bit integers to
    binary32, round to nearest even (VCVTDQ2PS). *)
Definition VecConvert_float_1_int32_t_1 (src : Z) : Z :=
  _mm512_cvtepi32_ps src.

(** Two policies an int32 to 8-bit conversion can have: clamping the
    32-bit value to the destination range, and keeping its low 8 bits. *)
Definition saturating_int32_to_8bit (t : ScalarType) (x : Z) : Z :=
  wrap 8 (Z.max (min_val t) (Z.min (max_val t) (signed 32 x))).

Definition wrapping_int32_to_8bit (t : ScalarType) (x : Z) : Z :=
  wrap 8 x.

(** The conversion each kernel applies to one element: "the converted
    value of logical element i"; [r] is the rounding direction of MXCSR,
    which the int64 to float conversion follows. *)
Definition lane_conversion
    (p : ScalarPrims) (r : rounding) (k : Kernel) (x : Z) : Z :=
  match k with
  | K_float_BFloat16 => bf16_to_fp32 p x
  | K_float_Half => fp16_to_fp32 p x
  | K_BFloat16_float => fp32_to_bf16 p x
  | K_Half_float => fp32_to_fp16 p x
  | K_float_int64 => of_integer_r r (signed 64 x)
  | K_int64_float => fst (cvtps_epi64_lane TO_ZERO x)
  | K_int32_int64 => wrap 32 x
  | K_int64_int32 => signed 32 x
  | K_int32_int8 => signed 8 x
  | K_int32_uint8 => wrap 8 x
  | K_8bit_float t => float_to_int8 p t x
  | K_float_8bit t => int8_to_float p t x
  | K_8bit_int64 t => int32_to_int8 p t (wrap 32 x)
  end.

(** The logical elements of a group of [n] registers of type [t], and the
    elements a conversion has on both sides: those it converts. *)
Definition group_elements (t : ScalarType) (n : nat) : nat :=
  n * Group.lanes_per_register (bits_of t).

Definition converted_elements
    (dst_t : ScalarType) (dst_n : nat) (src_t : ScalarType) (src_n : nat)
  : nat :=
  Nat.min (group_elements dst_t dst_n) (group_elements src_t src_n).

(** The conversion of the tuple is a specialization of this file whose
    body chains two conversions through int32. *)
Definition composed_through_int32
    (dst_t : ScalarType) (dst_n : nat) (src_t : ScalarType) (src_n : nat)
  : Prop :=
  exists k, VecConvert dst_t dst_n src_t src_n = Some k
            /\ implementation k = Through Int32.

(** The brain-float round trip of a register of floats. *)
Definition bf16_round_trip (u : Unspecified) (undef src : Z) : Z :=
  VecConvert_float_1_BFloat16_1 (helpers := spec_helpers u)
    (VecConvert_BFloat16_1_float_1 (helpers := spec_helpers u) undef src).

(** The top 16 bits of a 32-bit pattern. *)
Definition top16 (b : Z) : Z := Z.shiftr (wrap 32 b) 16.

(** One choice for what the specification leaves open: NaN to the quiet
    NaN of brain-float and to 0 of an 8-bit integer, fractions truncated,
    8-bit results by wrapping, other lanes zero. *)
Definition default_unspecified : Unspecified := {|
  nan_to_bf16 := fun _ => 32704;
  nan_to_int8 := fun _ _ => 0;
  fraction_rounding := TO_ZERO;
  int32_to_8bit := wrapping_int32_to_8bit;
  upper_lanes := 0
|}.

(** The same, with a clamping int32 to 8-bit conversion and other lanes
    set. *)
Definition saturating_unspecified : Unspecified := {|
  nan_to_bf16 := fun _ => 65535;
  nan_to_int8 := fun _ _ => 0;
  fraction_rounding := TO_NEAREST_INT;
  int32_to_8bit := saturating_int32_to_8bit;
  upper_lanes := 2 ^ 384 - 1
|}.

End Spec.

(** ** Sample registers *)

Module Examples.
Import Bits.

(** Sixteen int32 lanes: 7, -1, INT32_MIN, INT32_MAX, and so on. *)
Definition int32_register : Z :=
  pack 32 [7; -1; - 2 ^ 31; 2 ^ 31 - 1; 0; 100; -100; 65536;
           1; 2; 3; 4; -5; -6; -7; -8].

(** Two registers of eight int64 lanes, all inside the int32 range. *)
Definition int64_group_in_range : Z * Z :=
  (pack 64 [7; -1; - 2 ^ 31; 2 ^ 31 - 1; 0; 100; -100; 65536],
   pack 64 [1; 2; 3; 4; -5; -6; -7; -8]).

(** Two registers of eight int64 lanes, some outside the int32 range:
    lane 1 is [2^32 + 5], lane 2 is [2^31], lane 3 is [- 2^31 - 1],
    lane 9 is [2^40 - 1]. *)
Definition int64_group_out_of_range : Z * Z :=
  (pack 64 [7; 2 ^ 32 + 5; 2 ^ 31; - 2 ^ 31 - 1; 0; 100; -100; 2 ^ 63 - 1],
   pack 64 [1; 2 ^ 40 - 1; 3; 4; -5; -6; - 2 ^ 63; -8]).

(** The group that has the low 32 bits of each lane of
    [int64_group_out_of_range] and nothing above them. *)
Definition int64_group_low_halves : Z * Z :=
  (pack 64 [7; 5; 2 ^ 31; 2 ^ 31 - 1; 0; 100; 2 ^ 32 - 100; 2 ^ 32 - 1],
   pack 64 [1; 2 ^ 32 - 1; 3; 4; 2 ^ 32 - 5; 2 ^ 32 - 6; 0; 2 ^ 32 - 8]).

(** Sixty-four 8-bit lanes: the first sixteen are 0, 1, 127, 128 (-128),
    255 (-1), ...; the others are 0xAB. *)
Definition int8_register : Z :=
  pack 8 ([0; 1; 127; 128; 255; 200; 100; 50; 2; 3; 4; 5; 6; 7; 8; 9]
          ++ repeat 171 48).

(** The same first sixteen lanes, the others 0. *)
Definition int8_register_low : Z :=
  pack 8 [0; 1; 127; 128; 255; 200; 100; 50; 2; 3; 4; 5; 6; 7; 8; 9].

(** Sixteen binary32 lanes: 1000.0, -1000.0, 100.0, 9.3e18, 2.75, -2.75,
    1.0, 300.0, -1.5, 3.0e9, +infinity, -infinity, a NaN, 0.0, -0.0 and
    the pattern 0x3F80FFFF (just below 1.0078125). *)
Definition float_register : Z :=
  pack 32 [1148846080; 3296329728; 1120403456; 1593905213;
           1076887552; 3224371200; 1065353216; 1133903872;
           3217031168; 1328730206; 2139095040; 4286578688;
           2143289344; 0; 2147483648; 1065418751].

End Examples.

(** ** Further notions for the kernels *)

Module More.
Import Bits F32.

(** The binary32 pattern [b] with its sign bit inverted: the pattern of the
    negated number. *)
Definition negate (b : Z) : Z := Z.lxor b (Z.shiftl 1 31).

(** The order of two finite numbers [(-1)^neg * m * 2^e], by
    cross-multiplication of their fractions. *)
Definition finite_le (neg1 : bool) (m1 e1 : Z) (neg2 : bool) (m2 e2 : Z)
  : Prop :=
  numerator neg1 m1 e1 * denominator e2
  <= numerator neg2 m2 e2 * denominator e1.

(** Two registers of eight int64 lanes of magnitude at most 2^24. *)
Definition int64_group_small : Z * Z :=
  (pack 64 [0; 1; -1; 2 ^ 24; - 2 ^ 24; 1000; -1000; 16777215],
   pack 64 [12345; -12345; 7; -7; 65536; -65536; 3; -3]).

(** Two registers of eight int64 lanes that binary32 cannot hold exactly:
    lane 0 is [0x0123456789ABCDEF], lane 1 is [2^63 - 1], lane 2 is
    [2^24 + 1], and lanes 8 to 10 are their negations. *)
Definition int64_group_inexact : Z * Z :=
  (pack 64 [81985529216486895; 2 ^ 63 - 1; 2 ^ 24 + 1; 0; 0; 0; 0; 0],
   pack 64 [-81985529216486895; - (2 ^ 63 - 1); - (2 ^ 24 + 1);
            0; 0; 0; 0; 0]).

End More.

(** ** Facts about lanes *)

Module BitsFacts.
Import Bits.

Lemma wrap_mod w x : 0 <= w -> wrap w x = x mod 2 ^ w.
Proof. intros Hw. unfold wrap. now rewrite Z.land_ones. Qed.

Lemma wrap_range w x : 0 <= w -> 0 <= wrap w x < 2 ^ w.
Proof.
  intros Hw. rewrite wrap_mod by assumption.
  apply Z.mod_pos_bound. apply Z.pow_pos_nonneg; lia.
Qed.

Lemma wrap_small w x : 0 <= w -> 0 <= x < 2 ^ w -> wrap w x = x.
Proof. intros Hw Hx. rewrite wrap_mod by assumption. now apply Z.mod_small. Qed.

Lemma wrap_idem w x : 0 <= w -> wrap w (wrap w x) = wrap w x.
Proof. intros Hw. apply wrap_small; auto using wrap_range. Qed.

Lemma wrap_wrap_le v w x : 0 <= v <= w -> wrap v (wrap w x) = wrap v x.
Proof.
  intros H. rewrite !wrap_mod by lia.
  replace (2 ^ w) with (2 ^ v * 2 ^ (w - v)).
  - rewrite Z.rem_mul_r by (apply Z.pow_nonzero || apply Z.pow_pos_nonneg; lia).
    rewrite Z.mul_comm, Z.mod_add by (apply Z.pow_nonzero; lia).
    apply Z.mod_mod. apply Z.pow_nonzero; lia.
  - rewrite <- Z.pow_add_r by lia. f_equal. lia.
Qed.

Lemma shiftr_div x n : 0 <= n -> Z.shiftr x n = x / 2 ^ n.
Proof. intros. now apply Z.shiftr_div_pow2. Qed.

(** [Z.lor] of a [w]-bit pattern and a value shifted past it is a sum. *)
Lemma lor_shiftl_add w a b :
  0 <= w -> 0 <= a < 2 ^ w -> Z.lor a (Z.shiftl b w) = a + b * 2 ^ w.
Proof.
  intros Hw Ha. rewrite Z.shiftl_mul_pow2 by assumption.
  assert (Hd : Z.land a (b * 2 ^ w) = 0);
    [|now rewrite <- Z.lxor_lor, Z.add_nocarry_lxor].
  apply Z.bits_inj'. intros n Hn.
  rewrite Z.land_spec, Z.bits_0.
  destruct (Z.lt_ge_cases n w) as [Hlt | Hge].
  - rewrite Z.mul_pow2_bits_low by assumption. apply andb_false_r.
  - replace (Z.testbit a n) with false; [reflexivity|].
    symmetry. destruct (Z.eq_dec a 0) as [-> | Hnz]; [apply Z.bits_0|].
    apply Z.bits_above_log2; [lia|].
    apply Z.lt_le_trans with w; [|assumption].
    apply Z.log2_lt_pow2; lia.
Qed.

Lemma pack_cons w x t :
  0 <= w -> pack w (x :: t) = wrap w x + pack w t * 2 ^ w.
Proof. intros Hw. simpl. apply lor_shiftl_add; auto using wrap_range. Qed.

Lemma pack_range w l :
  0 <= w -> 0 <= pack w l < 2 ^ (w * Z.of_nat (length l)).
Proof.
  intros Hw. induction l as [|x t IH].
  - simpl. rewrite Z.mul_0_r. simpl. lia.
  - rewrite pack_cons by assumption.
    pose proof (wrap_range w x Hw) as Hx.
    cbn [length]. rewrite Nat2Z.inj_succ, Z.mul_succ_r, Z.pow_add_r by lia.
    nia.
Qed.

Lemma unpack_length w n r : length (unpack w n r) = n.
Proof. revert r. induction n; intros; simpl; auto. Qed.

Lemma unpack_cons_pack w n x t :
  0 <= w ->
  unpack w (S n) (pack w (x :: t)) = wrap w x :: unpack w n (pack w t).
Proof.
  intros Hw. cbn [unpack]. rewrite pack_cons by assumption.
  pose proof (wrap_range w x Hw) as Hx.
  assert (Hp : 0 < 2 ^ w) by (apply Z.pow_pos_nonneg; lia).
  f_equal.
  - rewrite (wrap_mod w (_ + _)) by assumption.
    rewrite Z.mod_add by lia. rewrite <- wrap_mod by assumption.
    now apply wrap_idem.
  - f_equal. rewrite shiftr_div by assumption.
    rewrite Z.div_add by lia. rewrite Z.div_small by assumption. lia.
Qed.

(** Unpacking what was packed gives the lanes back, each cut to [w] bits. *)
Lemma unpack_pack w l :
  0 <= w -> unpack w (length l) (pack w l) = map (wrap w) l.
Proof.
  intros Hw. induction l as [|x t IH]; [reflexivity|].
  cbn [length map]. rewrite unpack_cons_pack by assumption. now rewrite IH.
Qed.

(** Packing the first [n] lanes of [r] keeps the low [w * n] bits of [r]. *)
Lemma pack_unpack w n r :
  0 <= w -> pack w (unpack w n r) = wrap (w * Z.of_nat n) r.
Proof.
  intros Hw. revert r. induction n as [|n IH]; intros r.
  - simpl. rewrite Z.mul_0_r. unfold wrap. simpl. now rewrite Z.land_0_r.
  - cbn [unpack]. rewrite pack_cons, wrap_idem, IH by assumption.
    assert (Hp : 0 < 2 ^ w) by (apply Z.pow_pos_nonneg; lia).
    assert (Hq : 0 < 2 ^ (w * Z.of_nat n)) by (apply Z.pow_pos_nonneg; lia).
    rewrite !wrap_mod by lia. rewrite shiftr_div by assumption.
    rewrite Nat2Z.inj_succ, Z.mul_succ_r.
    rewrite (Z.add_comm (w * Z.of_nat n) w), Z.pow_add_r by lia.
    rewrite Z.rem_mul_r by lia. lia.
Qed.

Lemma nth_unpack w n r i :
  0 <= w -> (i < n)%nat -> nth i (unpack w n r) 0 = lane w r i.
Proof.
  intros Hw. revert r i. induction n as [|n IH]; intros r i Hi; [lia|].
  destruct i as [|i].
  - simpl. unfold lane. now rewrite Z.mul_0_r, Z.shiftr_0_r.
  - cbn [unpack nth]. rewrite IH by lia. unfold lane.
    rewrite Z.shiftr_shiftr by lia. do 2 f_equal. lia.
Qed.

Lemma lane_pack w l i :
  0 <= w -> (i < length l)%nat -> lane w (pack w l) i = wrap w (nth i l 0).
Proof.
  intros Hw Hi. rewrite <- (nth_unpack w (length l)) by assumption.
  rewrite unpack_pack by assumption.
  change 0 with (wrap w 0) at 1. apply map_nth.
Qed.

Lemma pack_app w l1 l2 :
  0 <= w ->
  pack w (l1 ++ l2) = pack w l1 + pack w l2 * 2 ^ (w * Z.of_nat (length l1)).
Proof.
  intros Hw. induction l1 as [|x t IH].
  - simpl. rewrite Z.mul_0_r. simpl. lia.
  - rewrite <- app_comm_cons, !pack_cons, IH by assumption.
    cbn [length]. rewrite Nat2Z.inj_succ, Z.mul_succ_r, Z.pow_add_r by lia.
    ring.
Qed.

Lemma unpack_app w n1 n2 r :
  0 <= w ->
  unpack w (n1 + n2) r
  = unpack w n1 r ++ unpack w n2 (Z.shiftr r (w * Z.of_nat n1)).
Proof.
  intros Hw. revert r. induction n1 as [|n IH]; intros r.
  - simpl. now rewrite Z.mul_0_r, Z.shiftr_0_r.
  - cbn [Nat.add unpack app]. rewrite IH.
    rewrite Z.shiftr_shiftr by lia.
    now replace (w * Z.of_nat (S n)) with (w + w * Z.of_nat n) by lia.
Qed.

(** The top bit of a [w]-bit pattern says whether it reaches [2^(w-1)]. *)
Lemma testbit_top w u :
  0 < w -> 0 <= u < 2 ^ w -> Z.testbit u (w - 1) = (2 ^ (w - 1) <=? u).
Proof.
  intros Hw Hu.
  assert (H2 : 2 ^ w = 2 * 2 ^ (w - 1)).
  { rewrite <- Z.pow_succ_r by lia. f_equal. lia. }
  assert (Hp : 0 < 2 ^ (w - 1)) by (apply Z.pow_pos_nonneg; lia).
  pose proof (Z.testbit_spec' u (w - 1) ltac:(lia)) as Hs.
  destruct (Z.leb_spec (2 ^ (w - 1)) u) as [Hge | Hlt].
  - assert (Hq : u / 2 ^ (w - 1) = 1).
    { symmetry. apply Z.div_unique with (u - 2 ^ (w - 1)); lia. }
    rewrite Hq in Hs.
    destruct (Z.testbit u (w - 1)); [reflexivity|discriminate].
  - rewrite Z.div_small in Hs by lia.
    destruct (Z.testbit u (w - 1)); [discriminate|reflexivity].
Qed.

Lemma signed_alt w x :
  0 < w ->
  signed w x = if 2 ^ (w - 1) <=? wrap w x then wrap w x - 2 ^ w else wrap w x.
Proof.
  intros Hw. unfold signed. cbv zeta.
  rewrite testbit_top; [reflexivity|assumption|apply wrap_range; lia].
Qed.

Lemma signed_range w x : 0 < w -> - 2 ^ (w - 1) <= signed w x < 2 ^ (w - 1).
Proof.
  intros Hw. rewrite signed_alt by assumption.
  pose proof (wrap_range w x ltac:(lia)) as Hx.
  assert (H2 : 2 ^ w = 2 * 2 ^ (w - 1)).
  { rewrite <- Z.pow_succ_r by lia. f_equal. lia. }
  destruct (Z.leb_spec (2 ^ (w - 1)) (wrap w x)); lia.
Qed.

Lemma wrap_signed w x : 0 < w -> wrap w (signed w x) = wrap w x.
Proof.
  intros Hw. unfold signed. cbv zeta.
  destruct (Z.testbit (wrap w x) (w - 1)); [|apply wrap_idem; lia].
  rewrite (wrap_mod w (_ - _)) by lia.
  replace (wrap w x - 2 ^ w) with (wrap w x + (-1) * 2 ^ w) by lia.
  rewrite Z.mod_add by (apply Z.pow_nonzero; lia).
  rewrite <- wrap_mod by lia. apply wrap_idem; lia.
Qed.

Lemma signed_wrap w x : signed w (wrap w x) = signed w x.
Proof.
  unfold signed. cbv zeta. destruct (Z.le_gt_cases 0 w).
  - now rewrite wrap_idem.
  - unfold wrap. rewrite Z.ones_equiv, Z.pow_neg_r by lia. simpl.
    now rewrite !Z.land_m1_r.
Qed.

(** A value inside the signed [w]-bit range is the signed reading of its
    pattern. *)
Lemma signed_small w y :
  0 < w -> - 2 ^ (w - 1) <= y < 2 ^ (w - 1) -> signed w y = y.
Proof.
  intros Hw Hy.
  pose proof (signed_range w y Hw) as Hs.
  pose proof (wrap_signed w y Hw) as He.
  rewrite !wrap_mod in He by lia.
  assert (H2 : 2 ^ w = 2 * 2 ^ (w - 1)).
  { rewrite <- Z.pow_succ_r by lia. f_equal. lia. }
  assert (Hp : 0 < 2 ^ (w - 1)) by (apply Z.pow_pos_nonneg; lia).
  assert (Hd : (signed w y - y) mod 2 ^ w = 0).
  { rewrite Zminus_mod, He, Z.sub_diag. apply Z.mod_0_l. lia. }
  apply Z.mod_divide in Hd; [|lia]. destruct Hd as [k Hk].
  assert (k = 0) by nia. subst k. lia.
Qed.


(** *** Lanes bit by bit *)

Lemma testbit_wrap w x n :
  0 <= w -> 0 <= n -> Z.testbit (wrap w x) n = (n <? w) && Z.testbit x n.
Proof.
  intros Hw Hn. unfold wrap.
  rewrite Z.land_spec, Z.testbit_ones_nonneg by assumption.
  apply andb_comm.
Qed.

Lemma testbit_lane w r i n :
  0 <= w -> 0 <= n ->
  Z.testbit (lane w r i) n = (n <? w) && Z.testbit r (n + w * Z.of_nat i).
Proof.
  intros Hw Hn. unfold lane.
  now rewrite testbit_wrap, Z.shiftr_spec by assumption.
Qed.

(** Two lanes are equal when the register bits they cover are. *)
Lemma lane_ext w a b i j :
  0 <= w ->
  (forall n, 0 <= n < w ->
     Z.testbit a (n + w * Z.of_nat i) = Z.testbit b (n + w * Z.of_nat j)) ->
  lane w a i = lane w b j.
Proof.
  intros Hw H. apply Z.bits_inj'. intros n Hn.
  rewrite !testbit_lane by assumption.
  destruct (Z.ltb_spec n w); [|reflexivity].
  cbn [andb]. apply H. lia.
Qed.

Lemma lane_range w r i : 0 <= w -> 0 <= lane w r i < 2 ^ w.
Proof. intros. unfold lane. now apply wrap_range. Qed.

Lemma wrap_lane w r i : 0 <= w -> wrap w (lane w r i) = lane w r i.
Proof. intros. unfold lane. now apply wrap_idem. Qed.

(** Cutting a register to [k] bits keeps the lanes that lie below bit [k]. *)
Lemma lane_wrap_below w k r i :
  0 <= w -> w * Z.of_nat (S i) <= k -> lane w (wrap k r) i = lane w r i.
Proof.
  intros Hw Hk. apply lane_ext; [assumption|]. intros n Hn.
  rewrite testbit_wrap by lia.
  destruct (Z.ltb_spec (n + w * Z.of_nat i) k); [reflexivity|lia].
Qed.

(** Lane [i] of a register shifted right by [j] lanes is lane [j + i]. *)
Lemma lane_shiftr w r i j :
  0 <= w -> lane w (Z.shiftr r (w * Z.of_nat j)) i = lane w r (j + i).
Proof.
  intros Hw. apply lane_ext; [assumption|]. intros n Hn.
  rewrite Z.shiftr_spec by lia. f_equal. lia.
Qed.

(** The lanes of a register put together from a low part of [k] bits and
    a high part. *)
Lemma lane_lor_low w k a b i :
  0 <= w -> w * Z.of_nat (S i) <= k ->
  lane w (Z.lor (wrap k a) (Z.shiftl b k)) i = lane w a i.
Proof.
  intros Hw Hk. apply lane_ext; [assumption|]. intros n Hn.
  rewrite Z.lor_spec, testbit_wrap, Z.shiftl_spec by lia.
  rewrite (Z.testbit_neg_r b) by lia.
  destruct (Z.ltb_spec (n + w * Z.of_nat i) k); [|lia].
  now rewrite orb_false_r.
Qed.

Lemma lane_lor_high w k a b i j :
  0 <= w -> k = w * Z.of_nat j ->
  lane w (Z.lor (wrap k a) (Z.shiftl b k)) (j + i) = lane w b i.
Proof.
  intros Hw Hk. apply lane_ext; [assumption|]. intros n Hn.
  rewrite Z.lor_spec, testbit_wrap, Z.shiftl_spec by lia.
  destruct (Z.ltb_spec (n + w * Z.of_nat (j + i)) k); [lia|].
  cbn [andb orb]. f_equal. lia.
Qed.

(** A lane of a register whose lanes are [f] of the lanes of another. *)
Lemma lane_pack_map wi wo n f a i :
  0 <= wi -> 0 <= wo -> (i < n)%nat ->
  lane wo (pack wo (map f (unpack wi n a))) i = wrap wo (f (lane wi a i)).
Proof.
  intros Hwi Hwo Hi.
  rewrite lane_pack by (rewrite ?length_map, ?unpack_length; assumption).
  rewrite (nth_indep _ 0 (f 0))
    by (rewrite length_map, unpack_length; assumption).
  rewrite map_nth, nth_unpack by assumption. reflexivity.
Qed.

(** Registers of [n] lanes with equal lanes are equal. *)
Lemma eq_of_lanes w n a b :
  0 <= w ->
  0 <= a < 2 ^ (w * Z.of_nat n) -> 0 <= b < 2 ^ (w * Z.of_nat n) ->
  (forall i, (i < n)%nat -> lane w a i = lane w b i) ->
  a = b.
Proof.
  intros Hw Ha Hb H.
  rewrite <- (wrap_small (w * Z.of_nat n) a), <- (wrap_small (w * Z.of_nat n) b)
    by (assumption || lia).
  rewrite <- !pack_unpack by assumption. f_equal.
  apply nth_ext with (d := 0) (d' := 0).
  - now rewrite !unpack_length.
  - intros i Hi. rewrite unpack_length in Hi.
    rewrite !nth_unpack by assumption. now apply H.
Qed.

(** "The low [w] bits reinterpreted as signed", written with [mod]. *)
Lemma signed_mod w x :
  0 < w -> signed w x = (x + 2 ^ (w - 1)) mod 2 ^ w - 2 ^ (w - 1).
Proof.
  intros Hw. rewrite signed_alt by assumption.
  rewrite wrap_mod by lia.
  assert (H2 : 2 ^ w = 2 * 2 ^ (w - 1)).
  { rewrite <- Z.pow_succ_r by lia. f_equal. lia. }
  assert (Hp : 0 < 2 ^ (w - 1)) by (apply Z.pow_pos_nonneg; lia).
  pose proof (Z.mod_pos_bound x (2 ^ w) ltac:(lia)) as Hm.
  destruct (Z.leb_spec (2 ^ (w - 1)) (x mod 2 ^ w)).
  - symmetry. apply Z.add_move_r.
    symmetry. apply Z.mod_unique with (x / 2 ^ w + 1); [lia|].
    pose proof (Z.div_mod x (2 ^ w) ltac:(lia)). lia.
  - symmetry. apply Z.add_move_r.
    symmetry. apply Z.mod_unique with (x / 2 ^ w); [lia|].
    pose proof (Z.div_mod x (2 ^ w) ltac:(lia)). lia.
Qed.

End BitsFacts.

(** ** Lanes through the intrinsics *)

Module IntrinFacts.
Import Bits BitsFacts Intrin.

(** The kernels pass the immediate 1: its bit 0 is set. *)
Ltac imm8_is_1 := change (Z.testbit 1 0) with true; cbv iota.

Lemma lane_castsi512_si256 w a i :
  0 <= w -> w * Z.of_nat (S i) <= 256 ->
  lane w (_mm512_castsi512_si256 a) i = lane w a i.
Proof. intros. now apply lane_wrap_below. Qed.

Lemma lane_castps512_ps256 w a i :
  0 <= w -> w * Z.of_nat (S i) <= 256 ->
  lane w (_mm512_castps512_ps256 a) i = lane w a i.
Proof. intros. now apply lane_wrap_below. Qed.

Lemma lane_castsi512_si128 w a i :
  0 <= w -> w * Z.of_nat (S i) <= 128 ->
  lane w (_mm512_castsi512_si128 a) i = lane w a i.
Proof. intros. now apply lane_wrap_below. Qed.

(** The defined half of a widening cast; the undefined half plays no part. *)
Lemma lane_castsi256_si512 w undef a i :
  0 <= w -> w * Z.of_nat (S i) <= 256 ->
  lane w (_mm512_castsi256_si512 undef a) i = lane w a i.
Proof. intros. unfold _mm512_castsi256_si512. now apply lane_lor_low. Qed.

Lemma lane_castps256_ps512 w undef a i :
  0 <= w -> w * Z.of_nat (S i) <= 256 ->
  lane w (_mm512_castps256_ps512 undef a) i = lane w a i.
Proof. intros. unfold _mm512_castps256_ps512. now apply lane_lor_low. Qed.

Lemma lane_extracti32x8_1 w a i j :
  0 <= w -> 256 = w * Z.of_nat j -> (i < j)%nat ->
  lane w (_mm512_extracti32x8_epi32 a 1) i = lane w a (j + i).
Proof.
  intros Hw Hj Hi. unfold _mm512_extracti32x8_epi32. imm8_is_1.
  rewrite lane_wrap_below by nia.
  rewrite Hj. now apply lane_shiftr.
Qed.

Lemma lane_extractf32x8_1 w a i j :
  0 <= w -> 256 = w * Z.of_nat j -> (i < j)%nat ->
  lane w (_mm512_extractf32x8_ps a 1) i = lane w a (j + i).
Proof.
  intros Hw Hj Hi. unfold _mm512_extractf32x8_ps. imm8_is_1.
  rewrite lane_wrap_below by nia.
  rewrite Hj. now apply lane_shiftr.
Qed.

Lemma lane_inserti32x8_1_low w a b i :
  0 <= w -> w * Z.of_nat (S i) <= 256 ->
  lane w (_mm512_inserti32x8 a b 1) i = lane w a i.
Proof.
  intros. unfold _mm512_inserti32x8. imm8_is_1. now apply lane_lor_low.
Qed.

Lemma lane_inserti32x8_1_high w a b i j :
  0 <= w -> 256 = w * Z.of_nat j -> (i < j)%nat ->
  lane w (_mm512_inserti32x8 a b 1) (j + i) = lane w b i.
Proof.
  intros Hw Hj Hi. unfold _mm512_inserti32x8. imm8_is_1.
  rewrite lane_lor_high by assumption. apply lane_wrap_below; [assumption|nia].
Qed.

Lemma lane_insertf32x8_1_low w a b i :
  0 <= w -> w * Z.of_nat (S i) <= 256 ->
  lane w (_mm512_insertf32x8 a b 1) i = lane w a i.
Proof.
  intros. unfold _mm512_insertf32x8. imm8_is_1. now apply lane_lor_low.
Qed.

Lemma lane_insertf32x8_1_high w a b i j :
  0 <= w -> 256 = w * Z.of_nat j -> (i < j)%nat ->
  lane w (_mm512_insertf32x8 a b 1) (j + i) = lane w b i.
Proof.
  intros Hw Hj Hi. unfold _mm512_insertf32x8. imm8_is_1.
  rewrite lane_lor_high by assumption. apply lane_wrap_below; [assumption|nia].
Qed.

(** A register put together from two 256-bit halves is a 512-bit pattern. *)
Lemma halves_range a b :
  0 <= Z.lor (wrap 256 a) (Z.shiftl (wrap 256 b) 256) < 2 ^ 512.
Proof.
  pose proof (wrap_range 256 a ltac:(lia)) as Ha.
  pose proof (wrap_range 256 b ltac:(lia)) as Hb.
  rewrite lor_shiftl_add by (lia || apply wrap_range; lia).
  change (2 ^ 512) with (2 ^ 256 * 2 ^ 256). nia.
Qed.

End IntrinFacts.

(** ** Lanes through the kernels *)

Module KernelFacts.
Import Bits BitsFacts Intrin IntrinFacts Group Kernels.

Lemma elem_regs1 w r i :
  (i < lanes_per_register w)%nat -> elem w (regs1 r) i = lane w r i.
Proof.
  intros Hi. unfold elem, regs1.
  rewrite Nat.div_small, Nat.mod_small by assumption. reflexivity.
Qed.

Lemma elem64_low g i :
  (i < 8)%nat -> elem 64 (regs2 g) i = lane 64 (fst g) i.
Proof.
  intros Hi. unfold elem, regs2.
  change (lanes_per_register 64) with 8%nat.
  rewrite Nat.div_small, Nat.mod_small by assumption. reflexivity.
Qed.

Lemma elem64_high g i :
  (i < 8)%nat -> elem 64 (regs2 g) (8 + i) = lane 64 (snd g) i.
Proof.
  intros Hi. unfold elem, regs2.
  change (lanes_per_register 64) with 8%nat.
  replace (8 + i)%nat with (i + 1 * 8)%nat by lia.
  rewrite Nat.div_add, Nat.Div0.mod_add by lia.
  rewrite Nat.div_small, Nat.mod_small by assumption. reflexivity.
Qed.

(** An index below 16 is in the first register of a pair of 8-lane
    registers or in the second. *)
Lemma split16 (P : nat -> Prop) :
  (forall i, (i < 8)%nat -> P i) ->
  (forall i, (i < 8)%nat -> P (8 + i)%nat) ->
  forall i, (i < 16)%nat -> P i.
Proof.
  intros Hlo Hhi i Hi. destruct (Nat.lt_ge_cases i 8) as [H | H].
  - now apply Hlo.
  - replace i with (8 + (i - 8))%nat by lia. apply Hhi. lia.
Qed.

(** *** int64 x 2 to int32 *)

Lemma narrow_lane undef src i :
  (i < 16)%nat ->
  lane 32 (VecConvert_int32_t_1_int64_t_2 undef src) i
  = wrap 32 (elem 64 (regs2 src) i).
Proof.
  revert i. apply split16; intros i Hi; unfold VecConvert_int32_t_1_int64_t_2;
    cbv zeta.
  - rewrite lane_inserti32x8_1_low, lane_castsi256_si512 by lia.
    unfold _mm512_cvtepi64_epi32. rewrite lane_pack_map by lia.
    rewrite wrap_idem by lia. now rewrite elem64_low.
  - rewrite (lane_inserti32x8_1_high 32 _ _ i 8) by lia.
    unfold _mm512_cvtepi64_epi32. rewrite lane_pack_map by lia.
    rewrite wrap_idem by lia. now rewrite elem64_high.
Qed.

Lemma narrow_range undef src :
  is_m512 (VecConvert_int32_t_1_int64_t_2 undef src).
Proof.
  unfold VecConvert_int32_t_1_int64_t_2, _mm512_inserti32x8. cbv zeta.
  imm8_is_1. apply halves_range.
Qed.

(** *** int32 to int64 x 2 *)

Lemma widen_lane src i :
  (i < 16)%nat ->
  elem 64 (regs2 (VecConvert_int64_t_2_int32_t_1 src)) i
  = wrap 64 (signed 32 (lane 32 src i)).
Proof.
  revert i. apply split16; intros i Hi.
  - rewrite elem64_low by assumption.
    unfold VecConvert_int64_t_2_int32_t_1, _mm512_cvtepi32_epi64. cbn [fst].
    rewrite lane_pack_map by lia.
    rewrite lane_castsi512_si256 by lia. now rewrite wrap_idem by lia.
  - rewrite elem64_high by assumption.
    unfold VecConvert_int64_t_2_int32_t_1, _mm512_cvtepi32_epi64. cbn [snd].
    rewrite lane_pack_map by lia.
    rewrite (lane_extracti32x8_1 32 _ i 8) by lia. now rewrite wrap_idem by lia.
Qed.

Lemma widen_range src :
  is_m512 (fst (VecConvert_int64_t_2_int32_t_1 src)) /\
  is_m512 (snd (VecConvert_int64_t_2_int32_t_1 src)).
Proof.
  unfold VecConvert_int64_t_2_int32_t_1, _mm512_cvtepi32_epi64, is_m512.
  cbn [fst snd]. split.
  - pose proof (pack_range 64
      (map (fun x => wrap 64 (signed 32 x))
         (unpack 32 8 (_mm512_castsi512_si256 src))) ltac:(lia)) as H.
    now rewrite length_map, unpack_length in H.
  - pose proof (pack_range 64
      (map (fun x => wrap 64 (signed 32 x))
         (unpack 32 8 (_mm512_extracti32x8_epi32 src 1))) ltac:(lia)) as H.
    now rewrite length_map, unpack_length in H.
Qed.

(** Sign extension to 64 bits keeps the value, truncation to 32 bits of the
    extension gives the pattern back. *)
Lemma wrap32_sext x : wrap 32 (wrap 64 (signed 32 x)) = wrap 32 x.
Proof. rewrite wrap_wrap_le by lia. apply wrap_signed. lia. Qed.

Lemma signed64_sext x : signed 64 (wrap 64 (signed 32 x)) = signed 32 x.
Proof.
  rewrite signed_wrap. apply signed_small; [lia|].
  pose proof (signed_range 32 x ltac:(lia)). lia.
Qed.

End KernelFacts.

(** ** Narrowing and the 8-bit widenings *)

Module IntegerFacts.
Import Bits BitsFacts Intrin IntrinFacts Group Kernels KernelFacts.

(** The signed reading of the low 32 bits depends on the 64-bit value
    only. *)
Lemma signed32_of_signed64 y : signed 32 (signed 64 y) = signed 32 y.
Proof.
  rewrite <- (signed_wrap 32 (signed 64 y)), <- (signed_wrap 32 y).
  f_equal. rewrite <- (wrap_wrap_le 32 64 (signed 64 y)) by lia.
  rewrite wrap_signed by lia. apply wrap_wrap_le. lia.
Qed.

(** A 64-bit lane whose value is in the int32 range is the sign extension
    of its low 32 bits. *)
Lemma sext_of_low_half y :
  - 2 ^ 31 <= signed 64 y < 2 ^ 31 ->
  wrap 64 (signed 32 (wrap 32 y)) = wrap 64 y.
Proof.
  intros Hy. rewrite signed_wrap, <- signed32_of_signed64.
  rewrite signed_small by (simpl; lia). apply wrap_signed. lia.
Qed.

Lemma int8_lane src i :
  (i < 16)%nat ->
  lane 32 (VecConvert_int32_t_1_int8_t_1 src) i
  = wrap 32 (signed 8 (lane 8 src i)).
Proof.
  intros Hi. unfold VecConvert_int32_t_1_int8_t_1, _mm512_cvtepi8_epi32.
  cbv zeta. rewrite lane_pack_map by lia.
  rewrite lane_castsi512_si128 by lia. apply wrap_idem. lia.
Qed.

Lemma uint8_lane src i :
  (i < 16)%nat ->
  lane 32 (VecConvert_int32_t_1_uint8_t_1 src) i = lane 8 src i.
Proof.
  intros Hi. unfold VecConvert_int32_t_1_uint8_t_1, _mm512_cvtepu8_epi32.
  cbv zeta. rewrite lane_pack_map by lia.
  rewrite lane_castsi512_si128 by lia.
  rewrite wrap_idem, wrap_lane by lia.
  apply wrap_small; [lia|].
  pose proof (lane_range 8 src i ltac:(lia)). lia.
Qed.

(** Sign extension from 8 to 32 bits keeps the value. *)
Lemma signed32_sext8 x : signed 32 (wrap 32 (signed 8 x)) = signed 8 x.
Proof.
  rewrite signed_wrap. apply signed_small; [lia|].
  pose proof (signed_range 8 x ltac:(lia)). lia.
Qed.

(** The narrowed register depends on the low 32 bits of each lane only. *)
Lemma narrow_low_halves undef undef' src src' :
  (forall j, (j < 16)%nat ->
     wrap 32 (elem 64 (regs2 src) j) = wrap 32 (elem 64 (regs2 src') j)) ->
  VecConvert_int32_t_1_int64_t_2 undef src
  = VecConvert_int32_t_1_int64_t_2 undef' src'.
Proof.
  intros H. apply (eq_of_lanes 32 16); try lia; try apply narrow_range.
  intros j Hj. rewrite !narrow_lane by assumption. now apply H.
Qed.

End IntegerFacts.

(** ** Lane order, kernel by kernel *)

Module LaneOrder.
Import Bits BitsFacts F32 Intrin IntrinFacts Group Types Kernels KernelFacts.
Import Dispatch Spec.

Lemma lane_map_lanes wi wo n f a i :
  0 <= wi -> 0 <= wo -> (i < n)%nat ->
  lane wo (map_lanes wi wo n f a) i = wrap wo (f (lane wi a i)).
Proof. intros. unfold map_lanes. now apply lane_pack_map. Qed.

Lemma lane_with_upper w upper low i :
  0 <= w -> w * Z.of_nat (S i) <= 128 ->
  lane w (with_upper upper low) i = lane w low i.
Proof. intros. unfold with_upper. now apply lane_lor_low. Qed.

(** The elements of a group given by its list of registers are those of
    the pair of its first two registers. *)
Lemma elem64_nth src i :
  (i < 16)%nat ->
  elem 64 src i = elem 64 (regs2 (nth 0 src 0, nth 1 src 0)) i.
Proof.
  revert i. apply split16; intros i Hi.
  - rewrite elem64_low by assumption. unfold elem.
    change (lanes_per_register 64) with 8%nat.
    rewrite Nat.div_small, Nat.mod_small by assumption. reflexivity.
  - rewrite elem64_high by assumption. unfold elem.
    change (lanes_per_register 64) with 8%nat.
    replace (8 + i)%nat with (i + 1 * 8)%nat by lia.
    rewrite Nat.div_add, Nat.Div0.mod_add by lia.
    rewrite Nat.div_small, Nat.mod_small by assumption. reflexivity.
Qed.

Lemma elem_single w src i :
  (i < lanes_per_register w)%nat -> elem w src i = lane w (nth 0 src 0) i.
Proof.
  intros Hi. unfold elem.
  rewrite Nat.div_small, Nat.mod_small by assumption. reflexivity.
Qed.

Lemma elem_singleton w r i :
  (i < lanes_per_register w)%nat -> elem w [r] i = lane w r i.
Proof. intros Hi. now rewrite elem_single. Qed.

Lemma rounding_of_to_zero st :
  rounding_of st (Z.lor _MM_FROUND_TO_ZERO _MM_FROUND_NO_EXC) = TO_ZERO.
Proof. reflexivity. Qed.

Lemma suppress_no_exc :
  suppress_exceptions (Z.lor _MM_FROUND_TO_ZERO _MM_FROUND_NO_EXC) = true.
Proof. reflexivity. Qed.

(** *** float to int64 x 2 *)

Lemma float_to_int64_result src st :
  fst (VecConvert_int64_t_2_float_1 src st)
  = (pack 64 (map (fun b => fst (cvtps_epi64_lane TO_ZERO b))
                (unpack 32 8 (_mm512_castps512_ps256 src))),
     pack 64 (map (fun b => fst (cvtps_epi64_lane TO_ZERO b))
                (unpack 32 8 (_mm512_extractf32x8_ps src 1)))).
Proof.
  unfold VecConvert_int64_t_2_float_1, _mm512_cvt_roundps_epi64.
  rewrite !rounding_of_to_zero, !map_map. reflexivity.
Qed.

Lemma float_to_int64_state src st :
  snd (VecConvert_int64_t_2_float_1 src st) = st.
Proof.
  unfold VecConvert_int64_t_2_float_1, _mm512_cvt_roundps_epi64.
  rewrite suppress_no_exc. reflexivity.
Qed.

Lemma float_to_int64_lane src st i :
  (i < 16)%nat ->
  elem 64 (regs2 (fst (VecConvert_int64_t_2_float_1 src st))) i
  = wrap 64 (fst (cvtps_epi64_lane TO_ZERO (lane 32 src i))).
Proof.
  rewrite float_to_int64_result.
  revert i. apply split16; intros i Hi.
  - rewrite elem64_low by assumption. cbn [fst].
    rewrite lane_pack_map by lia. now rewrite lane_castps512_ps256 by lia.
  - rewrite elem64_high by assumption. cbn [snd].
    rewrite lane_pack_map by lia.
    now rewrite (lane_extractf32x8_1 32 _ i 8) by lia.
Qed.

(** *** int64 x 2 to float *)

Lemma int64_to_float_lane undef src st i :
  (i < 16)%nat ->
  lane 32 (VecConvert_float_1_int64_t_2 undef src st) i
  = wrap 32 (of_integer_r (rc st) (signed 64 (elem 64 (regs2 src) i))).
Proof.
  revert i. apply split16; intros i Hi; unfold VecConvert_float_1_int64_t_2;
    cbv zeta.
  - rewrite lane_insertf32x8_1_low, lane_castps256_ps512 by lia.
    unfold _mm512_cvtepi64_ps. rewrite lane_pack_map by lia.
    now rewrite elem64_low.
  - rewrite (lane_insertf32x8_1_high 32 _ _ i 8) by lia.
    unfold _mm512_cvtepi64_ps. rewrite lane_pack_map by lia.
    now rewrite elem64_high.
Qed.

(** *** The kernels that go through a helper *)

Section Lanewise.
Variable p : ScalarPrims.
Variable upper : Z.
Let H : Vec512Helpers := lanewise p upper.
Existing Instance H.

Lemma float_BFloat16_lane src i :
  (i < 16)%nat ->
  lane 32 (VecConvert_float_1_BFloat16_1 src) i
  = wrap 32 (bf16_to_fp32 p (lane 16 src i)).
Proof.
  intros Hi. unfold VecConvert_float_1_BFloat16_1.
  cbn [cvtbf16_fp32 H lanewise].
  rewrite lane_map_lanes by lia. now rewrite lane_castsi512_si256 by lia.
Qed.

Lemma float_Half_lane src i :
  (i < 16)%nat ->
  lane 32 (VecConvert_float_1_Half_1 src) i
  = wrap 32 (fp16_to_fp32 p (lane 16 src i)).
Proof.
  intros Hi. unfold VecConvert_float_1_Half_1. cbn [cvtfp16_fp32 H lanewise].
  rewrite lane_map_lanes by lia. now rewrite lane_castsi512_si256 by lia.
Qed.

Lemma BFloat16_float_lane undef src i :
  (i < 16)%nat ->
  lane 16 (VecConvert_BFloat16_1_float_1 undef src) i
  = wrap 16 (fp32_to_bf16 p (lane 32 src i)).
Proof.
  intros Hi. unfold VecConvert_BFloat16_1_float_1.
  cbn [cvtfp32_bf16 H lanewise].
  rewrite lane_castsi256_si512 by lia. now rewrite lane_map_lanes by lia.
Qed.

Lemma Half_float_lane undef src i :
  (i < 16)%nat ->
  lane 16 (VecConvert_Half_1_float_1 undef src) i
  = wrap 16 (fp32_to_fp16 p (lane 32 src i)).
Proof.
  intros Hi. unfold VecConvert_Half_1_float_1. cbn [cvtfp32_fp16 H lanewise].
  rewrite lane_castsi256_si512 by lia. now rewrite lane_map_lanes by lia.
Qed.

Lemma dst_float_lane t src i :
  (i < 16)%nat ->
  lane 8 (VecConvert_dst_t_1_float_1 t src) i
  = wrap 8 (float_to_int8 p t (lane 32 src i)).
Proof.
  intros Hi. unfold VecConvert_dst_t_1_float_1.
  cbn [convert_float_to_int8 H lanewise].
  rewrite lane_with_upper by lia. now rewrite lane_map_lanes by lia.
Qed.

Lemma float_src_lane t src i :
  (i < 16)%nat ->
  lane 32 (VecConvert_float_1_src_t_1 t src) i
  = wrap 32 (int8_to_float p t (lane 8 src i)).
Proof.
  intros Hi. unfold VecConvert_float_1_src_t_1.
  cbn [convert_int8_to_float H lanewise].
  now rewrite lane_map_lanes by lia.
Qed.

Lemma dst_int64_lane t undef src i :
  (i < 16)%nat ->
  lane 8 (VecConvert_dst_t_1_int64_t_2 t undef src) i
  = wrap 8 (int32_to_int8 p t (wrap 32 (elem 64 (regs2 src) i))).
Proof.
  intros Hi. unfold VecConvert_dst_t_1_int64_t_2.
  cbn [VecConvert_dst_t_1_int32_t_1 H lanewise].
  rewrite lane_with_upper by lia. rewrite lane_map_lanes by lia.
  now rewrite narrow_lane by assumption.
Qed.

(** Every specialization has sixteen elements on both of its sides. *)
Lemma converted_elements_16 dst_t dst_n src_t src_n k :
  VecConvert dst_t dst_n src_t src_n = Some k ->
  converted_elements dst_t dst_n src_t src_n = 16%nat.
Proof.
  intros Hk.
  destruct dst_t, src_t; cbn in Hk; try discriminate;
    destruct dst_n as [|[|[|?]]]; cbn in Hk; try discriminate;
    destruct src_n as [|[|[|?]]]; cbn in Hk; try discriminate;
    reflexivity.
Qed.

(** Every kernel, through the dispatch table. *)
Lemma kernel_lane k undef st src i dst_t dst_n src_t src_n :
  VecConvert dst_t dst_n src_t src_n = Some k ->
  (i < 16)%nat ->
  elem (bits_of dst_t) (apply k undef st src) i
  = wrap (bits_of dst_t)
      (lane_conversion p (rc st) k (elem (bits_of src_t) src i)).
Proof.
  intros Hk Hi.
  assert (L8 : (i < lanes_per_register 8)%nat) by (change (i < 64)%nat; lia).
  assert (L16 : (i < lanes_per_register 16)%nat) by (change (i < 32)%nat; lia).
  assert (L32 : (i < lanes_per_register 32)%nat) by (change (i < 16)%nat; lia).
  destruct dst_t, src_t; cbn in Hk; try discriminate;
    destruct dst_n as [|[|[|?]]]; cbn in Hk; try discriminate;
    destruct src_n as [|[|[|?]]]; cbn in Hk; try discriminate;
    injection Hk as <-; cbn [bits_of apply lane_conversion];
    rewrite ?(elem_single 8 src), ?(elem_single 16 src), ?(elem_single 32 src),
      ?(elem64_nth src), ?elem_singleton by assumption.
  - now apply BFloat16_float_lane.
  - now apply Half_float_lane.
  - now apply float_BFloat16_lane.
  - now apply float_Half_lane.
  - now apply int64_to_float_lane.
  - now apply float_src_lane.
  - now apply float_src_lane.
  - exact (float_to_int64_lane _ _ _ Hi).
  - exact (widen_lane _ _ Hi).
  - rewrite narrow_lane by assumption. now rewrite wrap_idem by lia.
  - now apply IntegerFacts.int8_lane.
  - rewrite IntegerFacts.uint8_lane by assumption.
    rewrite wrap_lane by lia. symmetry. apply wrap_small; [lia|].
    pose proof (lane_range 8 (nth 0 src 0) i ltac:(lia)). lia.
  - now apply dst_float_lane.
  - now apply dst_int64_lane.
  - now apply dst_float_lane.
  - now apply dst_int64_lane.
Qed.

End Lanewise.

End LaneOrder.

(** ** Rounding binary32 values to integers *)

Module F32Facts.
Import Bits BitsFacts F32.

Lemma fraction_field_range b : 0 <= fraction_field b < 2 ^ 23.
Proof. apply (wrap_range 23 b). lia. Qed.

Lemma decode_finite_nonneg b neg m e :
  decode b = FFin neg m e -> 0 <= m.
Proof.
  intros H.
  apply (f_equal (fun c => match c with FFin _ m _ => m | _ => 0 end)) in H.
  rewrite <- H. unfold decode. cbv zeta.
  pose proof (fraction_field_range b) as Hf.
  destruct (exponent_field b =? 255).
  - destruct (fraction_field b =? 0); lia.
  - destruct (exponent_field b =? 0); lia.
Qed.

Lemma denominator_pos e : 0 < denominator e.
Proof.
  unfold denominator. destruct (Z.leb_spec 0 e); [lia|].
  apply Z.pow_pos_nonneg; lia.
Qed.

(** Quotient and remainder of the magnitude by the denominator, as the
    shift and the mask compute them. *)
Lemma shift_mask_div_mod m k :
  0 < k ->
  m = Z.shiftr m k * 2 ^ k + Z.land m (Z.ones k)
  /\ 0 <= Z.land m (Z.ones k) < 2 ^ k.
Proof.
  intros Hk. rewrite Z.shiftr_div_pow2, Z.land_ones by lia.
  assert (Hp : 0 < 2 ^ k) by (apply Z.pow_pos_nonneg; lia).
  split; [|apply Z.mod_pos_bound; lia].
  pose proof (Z.div_mod m (2 ^ k) ltac:(lia)). lia.
Qed.

(** Every rounding direction gives the quotient or the quotient plus one,
    the latter only when there is a remainder. *)
Lemma round_magnitude_cases r neg m e :
  e < 0 ->
  round_magnitude r neg m e = Z.shiftr m (- e)
  \/ (round_magnitude r neg m e = Z.shiftr m (- e) + 1
      /\ 0 < Z.land m (Z.ones (- e))).
Proof.
  intros He. unfold round_magnitude.
  destruct (Z.leb_spec 0 e); [lia|]. cbv zeta.
  assert (Hh : 0 < 2 ^ (- e - 1)) by (apply Z.pow_pos_nonneg; lia).
  destruct r.
  - destruct (Z.ltb_spec (2 ^ (- e - 1)) (Z.land m (Z.ones (- e)))); cbn [orb].
    + right. split; [reflexivity|lia].
    + destruct (Z.eqb_spec (Z.land m (Z.ones (- e))) (2 ^ (- e - 1)));
        cbn [andb]; [|now left].
      destruct (Z.odd (Z.shiftr m (- e))); [right; split; [reflexivity|lia]
                                           |now left].
  - destruct neg; cbn [andb]; [|now left].
    destruct (Z.ltb_spec 0 (Z.land m (Z.ones (- e)))); [right|left]; auto.
  - destruct neg; cbn [andb negb]; [now left|].
    destruct (Z.ltb_spec 0 (Z.land m (Z.ones (- e)))); [right|left]; auto.
  - now left.
Qed.

(** The rounded integer is less than one away from the number. *)
Lemma round_bracket r neg m e :
  0 <= m ->
  (to_integer r neg m e - 1) * denominator e
  < numerator neg m e
  < (to_integer r neg m e + 1) * denominator e.
Proof.
  intros Hm. unfold to_integer, numerator, denominator.
  destruct (Z.leb_spec 0 e) as [He | He].
  - unfold round_magnitude. destruct (Z.leb_spec 0 e); [|lia].
    destruct neg; lia.
  - destruct (shift_mask_div_mod m (- e) ltac:(lia)) as [Hdm Hrem].
    assert (Hp : 0 < 2 ^ (- e)) by (apply Z.pow_pos_nonneg; lia).
    destruct (round_magnitude_cases r neg m e He) as [-> | [-> Hpos]];
      destruct neg; nia.
Qed.

(** Rounding toward zero drops the fraction. *)
Lemma to_zero_truncates neg m e :
  0 <= m -> truncation_of neg m e (to_integer TO_ZERO neg m e).
Proof.
  intros Hm. unfold truncation_of, to_integer, numerator, denominator,
    round_magnitude.
  destruct (Z.leb_spec 0 e) as [He | He].
  - assert (0 <= m * 2 ^ e)
      by (apply Z.mul_nonneg_nonneg; [lia|apply Z.pow_nonneg; lia]).
    destruct neg; split; lia.
  - destruct (shift_mask_div_mod m (- e) ltac:(lia)) as [Hdm Hrem].
    assert (Hp : 0 < 2 ^ (- e)) by (apply Z.pow_pos_nonneg; lia).
    assert (Hq : 0 <= Z.shiftr m (- e)) by (apply Z.shiftr_nonneg; lia).
    destruct neg; split; lia.
Qed.

(** An integer number is rounded to itself in every direction. *)
Lemma round_integer r neg m e v :
  0 <= m -> numerator neg m e = v * denominator e ->
  to_integer r neg m e = v.
Proof.
  intros Hm Hv. pose proof (round_bracket r neg m e Hm) as Hb.
  pose proof (denominator_pos e). rewrite Hv in Hb. nia.
Qed.

End F32Facts.

(** ** The conversions between floats and 8-bit integers, brain-floats *)

Module ConversionFacts.
Import Bits BitsFacts F32 F32Facts Types Spec.

(** An integer of the destination range is the value of its own 8-bit
    pattern. *)
Lemma value8_of_pattern t c :
  is_8bit_integer t = true -> min_val t <= c <= max_val t ->
  value8 t (wrap 8 (wrap 8 c)) = c.
Proof.
  intros Ht Hc. rewrite wrap_idem by lia.
  destruct t; try discriminate; cbn [value8 min_val max_val] in *.
  - rewrite signed_wrap. apply signed_small; lia.
  - rewrite wrap_idem by lia. apply wrap_small; lia.
Qed.

Lemma min_le_max t : is_8bit_integer t = true -> min_val t <= max_val t.
Proof. destruct t; try discriminate; simpl; lia. Qed.

(** The clamped integer, from where the number lies. *)
Lemma clamp_cases t r neg m e :
  is_8bit_integer t = true -> 0 <= m ->
  let c := Z.max (min_val t) (Z.min (max_val t) (to_integer r neg m e)) in
  min_val t <= c <= max_val t
  /\ (max_val t * denominator e < numerator neg m e -> c = max_val t)
  /\ (numerator neg m e < min_val t * denominator e -> c = min_val t)
  /\ (forall v, numerator neg m e = v * denominator e ->
        min_val t <= v <= max_val t -> c = v).
Proof.
  intros Ht Hm c. subst c.
  pose proof (min_le_max t Ht) as Hmm.
  pose proof (round_bracket r neg m e Hm) as Hb.
  pose proof (denominator_pos e) as Hd.
  repeat split; try lia.
  - intros Hgt. assert (max_val t <= to_integer r neg m e) by nia. lia.
  - intros Hlt. assert (to_integer r neg m e <= min_val t) by nia. lia.
  - intros v Hv Hr. rewrite (round_integer r neg m e v Hm Hv). lia.
Qed.

(** A 32-bit pattern that is not a NaN has a top half below 0xFFFF. *)
Lemma not_nan_top x :
  0 <= x < 2 ^ 32 -> is_nan x = false -> Z.shiftr x 16 < 2 ^ 16 - 1.
Proof.
  intros Hx Hn. rewrite Z.shiftr_div_pow2 by lia.
  destruct (Z.lt_ge_cases (x / 2 ^ 16) (2 ^ 16 - 1)) as [|Hge]; [assumption|].
  exfalso.
  assert (Hlow : (2 ^ 16 - 1) * 2 ^ 16 <= x).
  { pose proof (Z.div_mod x (2 ^ 16) ltac:(lia)).
    pose proof (Z.mod_pos_bound x (2 ^ 16) ltac:(lia)). lia. }
  assert (He : exponent_field x = 255).
  { unfold exponent_field. rewrite Z.shiftr_div_pow2 by lia.
    replace (x / 2 ^ 23) with 511; [reflexivity|].
    apply Z.div_unique with (x - 511 * 2 ^ 23); lia. }
  assert (Hf : 0 < fraction_field x).
  { unfold fraction_field. rewrite Z.land_ones by lia.
    replace (x mod 2 ^ 23) with (x - 511 * 2 ^ 23); [lia|].
    apply Z.mod_unique with 511; lia. }
  unfold is_nan, decode in Hn. cbv zeta in Hn. rewrite He in Hn.
  cbn [Z.eqb Pos.eqb] in Hn.
  destruct (Z.eqb_spec (fraction_field x) 0); [lia|discriminate].
Qed.

(** The round trip of one non-NaN lane: the kept half, or the kept half
    plus one, followed by sixteen zero bits. *)
Lemma bf16_lane_round_trip nan x :
  0 <= x < 2 ^ 32 -> is_nan x = false ->
  let top := Z.shiftr x 16 in
  let low := Z.land x (Z.ones 16) in
  let y := wrap 32 (bf16_to_fp32_lane (wrap 16 (fp32_to_bf16_lane nan x))) in
  x = top * 2 ^ 16 + low
  /\ 0 <= low < 2 ^ 16
  /\ ((y = top * 2 ^ 16 /\ low <= 2 ^ 15)
      \/ (y = (top + 1) * 2 ^ 16 /\ 2 ^ 15 <= low)).
Proof.
  intros Hx Hn top low y.
  pose proof (not_nan_top x Hx Hn) as Htop. fold top in Htop.
  destruct (shift_mask_div_mod x 16 ltac:(lia)) as [Hdm Hlow].
  fold top low in Hdm, Hlow.
  assert (Ht0 : 0 <= top) by (apply Z.shiftr_nonneg; lia).
  assert (Hy : forall h, 0 <= h < 2 ^ 16 ->
             wrap 32 (bf16_to_fp32_lane (wrap 16 h)) = h * 2 ^ 16).
  { intros h Hh. unfold bf16_to_fp32_lane.
    rewrite !wrap_idem, (wrap_small 16 h) by lia.
    rewrite Z.shiftl_mul_pow2 by lia. apply wrap_small; lia. }
  split; [lia|]. split; [exact Hlow|].
  subst y. unfold fp32_to_bf16_lane. rewrite Hn. cbv zeta.
  rewrite (wrap_small 32 x) by (assumption || lia). fold top low.
  destruct (Z.ltb_spec (2 ^ 15) low); cbn [orb].
  - right. rewrite (wrap_small 16 (top + 1)) by lia.
    rewrite Hy by lia. lia.
  - destruct (Z.eqb_spec low (2 ^ 15)); cbn [andb].
    + destruct (Z.odd top).
      * right. rewrite (wrap_small 16 (top + 1)) by lia.
        rewrite Hy by lia. lia.
      * left. rewrite Hy by lia. lia.
    + left. rewrite Hy by lia. lia.
Qed.

Lemma top16_shifted h : 0 <= h < 2 ^ 16 -> top16 (h * 2 ^ 16) = h.
Proof.
  intros Hh. unfold top16.
  rewrite wrap_small by (lia).
  rewrite Z.shiftr_div_pow2 by lia. apply Z.div_mul. lia.
Qed.

Lemma low16_shifted h : Z.land (h * 2 ^ 16) (Z.ones 16) = 0.
Proof. rewrite Z.land_ones by lia. apply Z.mod_mul. lia. Qed.

(** Read without any rounding, the down-conversion keeps the top half. *)
Lemma bf16_truncating_keeps_top x :
  top16 (bf16_to_fp32_lane (fp32_to_bf16_lane_truncating x)) = top16 x.
Proof.
  unfold fp32_to_bf16_lane_truncating, bf16_to_fp32_lane.
  pose proof (wrap_range 32 x ltac:(lia)) as Hx.
  assert (Ht : 0 <= Z.shiftr (wrap 32 x) 16 < 2 ^ 16).
  { rewrite Z.shiftr_div_pow2 by lia. split.
    - apply Z.div_pos; lia.
    - apply Z.div_lt_upper_bound; lia. }
  rewrite (wrap_small 16) by (assumption || lia).
  rewrite Z.shiftl_mul_pow2 by lia. rewrite top16_shifted by assumption.
  reflexivity.
Qed.

(** Checking a property of the integers from [lo] to [lo + n - 1] one by
    one. *)
Lemma check_range (P : Z -> bool) lo n :
  forallb P (map (fun k => lo + Z.of_nat k) (seq 0 n)) = true ->
  forall v, lo <= v < lo + Z.of_nat n -> P v = true.
Proof.
  intros Hall v Hv. rewrite forallb_forall in Hall. apply Hall.
  apply in_map_iff. exists (Z.to_nat (v - lo)). split; [lia|].
  apply in_seq. lia.
Qed.

(** On the values of 8-bit integers the exact pattern is the one rounding
    to nearest produces, it denotes the value, and every rounding direction
    reads the value back. *)
Lemma exact_is_rounded v :
  -128 <= v <= 255 -> exact_binary32 v = of_integer v.
Proof.
  intros Hv.
  apply Z.eqb_eq.
  apply (check_range (fun v => exact_binary32 v =? of_integer v) (-128) 384);
    [vm_compute; reflexivity | lia].
Qed.

Lemma exact_denotes v :
  -128 <= v <= 255 -> denotes (exact_binary32 v) v.
Proof.
  intros Hv.
  assert (H : denotesb (exact_binary32 v) v = true).
  { apply (check_range (fun v => denotesb (exact_binary32 v) v) (-128) 384);
      [vm_compute; reflexivity | lia]. }
  unfold denotesb in H. unfold denotes.
  destruct (decode (exact_binary32 v)); try discriminate.
  now apply Z.eqb_eq.
Qed.

Lemma exact_range v : -128 <= v <= 255 -> 0 <= exact_binary32 v < 2 ^ 32.
Proof.
  intros Hv.
  assert (H : (0 <=? exact_binary32 v) && (exact_binary32 v <? 2 ^ 32) = true).
  { apply (check_range
             (fun v => (0 <=? exact_binary32 v) && (exact_binary32 v <? 2 ^ 32))
             (-128) 384); [vm_compute; reflexivity | lia]. }
  apply andb_true_iff in H. destruct H as [H1 H2].
  apply Z.leb_le in H1. apply Z.ltb_lt in H2. lia.
Qed.

Lemma value8_range t x :
  is_8bit_integer t = true ->
  min_val t <= value8 t x <= max_val t /\ -128 <= value8 t x <= 255.
Proof.
  intros Ht. destruct t; try discriminate; cbn [value8 min_val max_val].
  - pose proof (signed_range 8 x ltac:(lia)). lia.
  - pose proof (wrap_range 8 x ltac:(lia)). lia.
Qed.

Lemma wrap8_value8 t x :
  is_8bit_integer t = true -> wrap 8 (value8 t x) = wrap 8 x.
Proof.
  intros Ht. destruct t; try discriminate; cbn [value8].
  - apply wrap_signed. lia.
  - apply wrap_idem. lia.
Qed.

(** The half conversions on a few patterns: 1.0, the largest half 65504,
    the smallest subnormal 2^-24 and -2.0 go to float and come back; 65520
    overflows to infinity, 65519.996 rounds down to 65504, and 2^-25, a tie
    between 0 and the smallest subnormal, goes to the even one, 0. *)
Example half_conversions :
  map half_to_float_lane [15360; 31743; 1; 49152]
  = [1065353216; 1199562752; 864026624; 3221225472]
  /\ map float_to_half_lane
       [1065353216; 1199562752; 864026624; 3221225472;
        1199566848; 1199566847; 855638016]
     = [15360; 31743; 1; 49152; 31744; 31743; 0].
Proof. split; vm_compute; reflexivity. Qed.

End ConversionFacts.

(** * The properties of the specification *)

Import Bits BitsFacts F32 Intrin IntrinFacts Group Types Kernels KernelFacts.
Import Dispatch Spec Examples.

(** ** int32 and int64 *)

(** C5: for every 32-bit integer lane value, narrowing the widened value
    returns it exactly: converting a register of int32 to a group of two
    registers of int64 (each lane sign-extended) and back is the
    identity. *)
Theorem narrow_widen_identity (undef x : Z) (i : nat) :
  is_m512 x -> (i < 16)%nat ->
  signed 64 (elem 64 (regs2 (VecConvert_int64_t_2_int32_t_1 x)) i)
  = signed 32 (lane 32 x i)
  /\ VecConvert_int32_t_1_int64_t_2 undef (VecConvert_int64_t_2_int32_t_1 x)
     = x.
Proof.
  intros Hx Hi. split.
  - rewrite widen_lane by assumption. apply signed64_sext.
  - apply (eq_of_lanes 32 16); try lia.
    + apply narrow_range.
    + exact Hx.
    + intros j Hj. rewrite narrow_lane, widen_lane by assumption.
      rewrite wrap32_sext. apply wrap_lane. lia.
Qed.

Lemma narrow_widen_identity_witness :
  signed 64 (elem 64 (regs2 (VecConvert_int64_t_2_int32_t_1 int32_register)) 2)
  = - 2 ^ 31
  /\ VecConvert_int32_t_1_int64_t_2 12345
       (VecConvert_int64_t_2_int32_t_1 int32_register)
     = int32_register.
Proof.
  assert (H : is_m512 int32_register) by (split; vm_compute; congruence).
  destruct (narrow_widen_identity 12345 int32_register 2 H ltac:(lia))
    as [H1 H2].
  split; [rewrite H1; reflexivity | exact H2].
Defined.

(** C3: for every 64-bit integer lane value within the int32 range,
    widening the narrowed value gives it back; for every lane value, inside
    the range or outside it, the int64-to-int32 kernel returns the low 32
    bits of the lane, which read as a signed 32-bit integer are the lane's
    value wrapped modulo 2^32 (no saturation). *)
Theorem widen_narrow_wrap_law (undef : Z) (src : Z * Z) (i : nat) :
  is_m512 (fst src) -> is_m512 (snd src) -> (i < 16)%nat ->
  lane 32 (VecConvert_int32_t_1_int64_t_2 undef src) i
  = wrap 32 (elem 64 (regs2 src) i)
  /\ signed 32 (lane 32 (VecConvert_int32_t_1_int64_t_2 undef src) i)
     = (signed 64 (elem 64 (regs2 src) i) + 2 ^ 31) mod 2 ^ 32 - 2 ^ 31
  /\ ((forall j, (j < 16)%nat ->
         - 2 ^ 31 <= signed 64 (elem 64 (regs2 src) j) < 2 ^ 31) ->
      VecConvert_int64_t_2_int32_t_1 (VecConvert_int32_t_1_int64_t_2 undef src)
      = src).
Proof.
  intros H0 H1 Hi. split; [|split].
  - now apply narrow_lane.
  - rewrite narrow_lane by assumption.
    rewrite signed_wrap, <- IntegerFacts.signed32_of_signed64.
    apply (signed_mod 32). lia.
  - intros Hin. destruct src as [s0 s1]. cbn [fst snd] in H0, H1.
    pose proof (widen_range (VecConvert_int32_t_1_int64_t_2 undef (s0, s1)))
      as [R0 R1].
    apply injective_projections.
    + apply (eq_of_lanes 64 8); try lia; [exact R0 | exact H0 |].
      intros j Hj. rewrite <- elem64_low by assumption.
      rewrite widen_lane, narrow_lane by lia.
      rewrite IntegerFacts.sext_of_low_half by (apply Hin; lia).
      rewrite elem64_low by assumption. apply wrap_lane. lia.
    + apply (eq_of_lanes 64 8); try lia; [exact R1 | exact H1 |].
      intros j Hj. rewrite <- elem64_high by assumption.
      rewrite widen_lane, narrow_lane by lia.
      rewrite IntegerFacts.sext_of_low_half by (apply Hin; lia).
      rewrite elem64_high by assumption. apply wrap_lane. lia.
Qed.

Lemma int64_group_in_range_ok :
  forall j, (j < 16)%nat ->
    - 2 ^ 31 <= signed 64 (elem 64 (regs2 int64_group_in_range) j) < 2 ^ 31.
Proof.
  intros j Hj.
  do 16 (destruct j as [|j]; [vm_compute; split; congruence|]). lia.
Qed.

Lemma widen_narrow_wrap_law_witness :
  signed 32
    (lane 32 (VecConvert_int32_t_1_int64_t_2 99 int64_group_in_range) 2)
  = - 2 ^ 31
  /\ VecConvert_int64_t_2_int32_t_1
       (VecConvert_int32_t_1_int64_t_2 99 int64_group_in_range)
     = int64_group_in_range.
Proof.
  assert (H0 : is_m512 (fst int64_group_in_range))
    by (split; vm_compute; congruence).
  assert (H1 : is_m512 (snd int64_group_in_range))
    by (split; vm_compute; congruence).
  destruct (widen_narrow_wrap_law 99 int64_group_in_range 2 H0 H1 ltac:(lia))
    as [_ [Hs Hr]].
  split; [rewrite Hs; reflexivity | exact (Hr int64_group_in_range_ok)].
Defined.

(** Outside the int32 range the narrowed lane is the wrapped value, not a
    clamped one: [2^32 + 5] gives 5, [2^31] gives [- 2^31], [- 2^31 - 1]
    gives [2^31 - 1], and widening does not give the lane back. *)
Example narrow_wraps_out_of_range :
  map (fun i =>
         signed 32
           (lane 32
              (VecConvert_int32_t_1_int64_t_2 0 int64_group_out_of_range) i))
      [1; 2; 3]%nat
  = [5; - 2 ^ 31; 2 ^ 31 - 1]
  /\ VecConvert_int64_t_2_int32_t_1
       (VecConvert_int32_t_1_int64_t_2 0 int64_group_out_of_range)
     <> int64_group_out_of_range.
Proof. split; [reflexivity | vm_compute; congruence]. Qed.

(** ** 8-bit integers to int32 *)

(** C9: the 8-bit-to-32-bit conversion sign-extends each lane of a signed
    source and zero-extends each lane of an unsigned source, and it reads
    only the first 128 bits of the source register (the first 16 of its 64
    lanes): two sources that agree on their low 128 bits give the same
    result. *)
Theorem int8_to_int32_extends (src src' : Z) (i : nat) :
  (i < 16)%nat -> wrap 128 src = wrap 128 src' ->
  (lane 32 (VecConvert_int32_t_1_int8_t_1 src) i
   = wrap 32 (signed 8 (lane 8 src i))
   /\ signed 32 (lane 32 (VecConvert_int32_t_1_int8_t_1 src) i)
      = signed 8 (lane 8 src i))
  /\ lane 32 (VecConvert_int32_t_1_uint8_t_1 src) i = lane 8 src i
  /\ VecConvert_int32_t_1_int8_t_1 src = VecConvert_int32_t_1_int8_t_1 src'
  /\ VecConvert_int32_t_1_uint8_t_1 src = VecConvert_int32_t_1_uint8_t_1 src'.
Proof.
  intros Hi Hlow. repeat split.
  - now apply IntegerFacts.int8_lane.
  - rewrite IntegerFacts.int8_lane by assumption.
    apply IntegerFacts.signed32_sext8.
  - now apply IntegerFacts.uint8_lane.
  - unfold VecConvert_int32_t_1_int8_t_1, _mm512_castsi512_si128. cbv zeta.
    now rewrite Hlow.
  - unfold VecConvert_int32_t_1_uint8_t_1, _mm512_castsi512_si128. cbv zeta.
    now rewrite Hlow.
Qed.

Lemma int8_to_int32_extends_witness :
  (signed 32 (lane 32 (VecConvert_int32_t_1_int8_t_1 int8_register) 4) = -1
   /\ lane 32 (VecConvert_int32_t_1_uint8_t_1 int8_register) 4 = 255)
  /\ VecConvert_int32_t_1_int8_t_1 int8_register
     = VecConvert_int32_t_1_int8_t_1 int8_register_low.
Proof.
  destruct (int8_to_int32_extends int8_register int8_register_low 4
              ltac:(lia) ltac:(reflexivity))
    as [[_ Hs] [Hu [Hi _]]].
  split; [split; [rewrite Hs | rewrite Hu]; reflexivity | exact Hi].
Defined.

(** ** Lane order *)

(** C2: for every conversion the file specialises and every input group,
    logical element [i] of the output group is the converted value of
    logical element [i] of the input group, for every [i] that both groups
    have (sixteen elements for each pair, whatever the group sizes); this
    holds for the kernels that split one register into two and for those
    that merge two registers into one.  The helpers of other headers act
    lane by lane, whatever their scalar conversions are; the int64 to
    float conversion of an element rounds in the direction of the MXCSR it
    runs in. *)
Theorem lane_order_preserved
    (p : ScalarPrims) (upper undef : Z) (st : MXCSR)
    (dst_t : ScalarType) (dst_n : nat) (src_t : ScalarType) (src_n : nat)
    (k : Kernel) (src : list Z) (i : nat) :
  VecConvert dst_t dst_n src_t src_n = Some k ->
  (i < converted_elements dst_t dst_n src_t src_n)%nat ->
  elem (bits_of dst_t) (apply (helpers := lanewise p upper) k undef st src) i
  = wrap (bits_of dst_t)
      (lane_conversion p (rc st) k (elem (bits_of src_t) src i)).
Proof.
  intros Hk Hi. rewrite (LaneOrder.converted_elements_16 _ _ _ _ _ Hk) in Hi.
  now apply LaneOrder.kernel_lane with dst_n src_n.
Qed.

Lemma lane_order_preserved_witness :
  elem 64
    (apply (helpers := lanewise (spec_prims default_unspecified) 0)
       K_int64_int32 0 {| rc := TO_NEAREST_INT; flags := [] |}
       [int32_register]) 12
  = wrap 64 (-5)
  /\ elem 32
       (apply (helpers := lanewise (spec_prims default_unspecified) 0)
          K_float_int64 0 {| rc := TO_NEAREST_INT; flags := [] |}
          [fst int64_group_in_range; snd int64_group_in_range]) 9
     = 1073741824.
Proof.
  split.
  - refine (eq_trans
        (lane_order_preserved (spec_prims default_unspecified) 0 0
           {| rc := TO_NEAREST_INT; flags := [] |}
           Int64 2 Int32 1 K_int64_int32 [int32_register] 12
           eq_refl ltac:(vm_compute; lia)) _).
    reflexivity.
  - refine (eq_trans
        (lane_order_preserved (spec_prims default_unspecified) 0 0
           {| rc := TO_NEAREST_INT; flags := [] |}
           Float 1 Int64 2 K_float_int64
           [fst int64_group_in_range; snd int64_group_in_range] 9
           eq_refl ltac:(vm_compute; lia)) _).
    reflexivity.
Defined.

(** ** 64-bit integers to 8-bit integers *)

(** C10: the composed int64-to-int8/uint8 conversion first wraps each
    64-bit lane modulo 2^32 (the int64-to-int32 step) and only then applies
    the int32-to-8-bit conversion, whatever its policy is, to the wrapped
    32-bit value; two groups whose lanes agree on their low 32 bits convert
    alike, so the full 64-bit magnitude plays no part. *)
Theorem int64_to_int8_sees_low_halves
    (helpers : Vec512Helpers) (dst_t : ScalarType)
    (undef undef' : Z) (src src' : Z * Z) (i : nat) :
  (i < 16)%nat ->
  (forall j, (j < 16)%nat ->
     wrap 32 (elem 64 (regs2 src) j) = wrap 32 (elem 64 (regs2 src') j)) ->
  VecConvert_dst_t_1_int64_t_2 dst_t undef src
  = VecConvert_dst_t_1_int32_t_1 dst_t
      (VecConvert_int32_t_1_int64_t_2 undef src)
  /\ lane 32 (VecConvert_int32_t_1_int64_t_2 undef src) i
     = elem 64 (regs2 src) i mod 2 ^ 32
  /\ VecConvert_dst_t_1_int64_t_2 dst_t undef src
     = VecConvert_dst_t_1_int64_t_2 dst_t undef' src'.
Proof.
  intros Hi Hlow. split; [reflexivity|split].
  - rewrite narrow_lane by assumption. apply wrap_mod. lia.
  - unfold VecConvert_dst_t_1_int64_t_2.
    now rewrite (IntegerFacts.narrow_low_halves undef undef' src src').
Qed.

Lemma low_halves_agree :
  forall j, (j < 16)%nat ->
    wrap 32 (elem 64 (regs2 int64_group_out_of_range) j)
    = wrap 32 (elem 64 (regs2 int64_group_low_halves) j).
Proof.
  intros j Hj. do 16 (destruct j as [|j]; [vm_compute; reflexivity|]). lia.
Qed.

Lemma int64_to_int8_sees_low_halves_witness :
  lane 32 (VecConvert_int32_t_1_int64_t_2 7 int64_group_out_of_range) 1 = 5
  /\ VecConvert_dst_t_1_int64_t_2
       (helpers := spec_helpers saturating_unspecified)
       Int8 7 int64_group_out_of_range
     = VecConvert_dst_t_1_int64_t_2
         (helpers := spec_helpers saturating_unspecified)
         Int8 8 int64_group_low_halves.
Proof.
  destruct (int64_to_int8_sees_low_halves
              (spec_helpers saturating_unspecified) Int8 7 8
              int64_group_out_of_range int64_group_low_halves 1
              ltac:(lia) low_halves_agree)
    as [_ [Hl He]].
  split; [rewrite Hl; reflexivity | exact He].
Defined.

(** Even with a clamping int32-to-int8 step, the lanes [2^32 + 5],
    [2^63 - 1] and [- 2^63] convert to 5, -1 and 0: the clamp sees the low
    32 bits, not the 64-bit magnitude (which would give 127, 127 and
    -128). *)
Example int64_to_int8_not_saturating_on_64_bits :
  map (fun i => signed 8
         (lane 8 (VecConvert_dst_t_1_int64_t_2
                    (helpers := spec_helpers saturating_unspecified)
                    Int8 0 int64_group_out_of_range) i))
      [1; 7; 14]%nat
  = [5; -1; 0].
Proof. vm_compute. reflexivity. Qed.

(** C6, amended: the int64 (group of 2) to 8-bit integer conversion is a
    specialization whose body chains the int64-to-int32 kernel and the
    int32-to-8-bit conversion through a 32-bit integer intermediate, with
    no intrinsic of its own, and its result is that of the two applied in
    sequence; the file has no kernel for the opposite direction, 8-bit
    integers to int64. *)
Theorem int64_to_int8_is_composed
    (helpers : Vec512Helpers) (dst_t : ScalarType)
    (undef : Z) (st : MXCSR) (s0 s1 : Z) :
  is_8bit_integer dst_t = true ->
  composed_through_int32 dst_t 1 Int64 2
  /\ VecConvert dst_t 1 Int64 2 = Some (K_8bit_int64 dst_t)
  /\ VecConvert Int32 1 Int64 2 = Some K_int32_int64
  /\ apply (K_8bit_int64 dst_t) undef st [s0; s1]
     = [VecConvert_dst_t_1_int32_t_1 dst_t
          (nth 0 (apply K_int32_int64 undef st [s0; s1]) 0)]
  /\ VecConvert Int64 2 dst_t 1 = None.
Proof.
  intros H8. destruct dst_t; try discriminate; cbn.
  all: repeat split; try reflexivity.
  - exists (K_8bit_int64 Int8). split; reflexivity.
  - exists (K_8bit_int64 UInt8). split; reflexivity.
Qed.

Lemma int64_to_int8_is_composed_witness :
  composed_through_int32 Int8 1 Int64 2
  /\ VecConvert Int64 2 Int8 1 = None.
Proof.
  destruct (int64_to_int8_is_composed
              (spec_helpers default_unspecified) Int8 0
              {| rc := TO_NEAREST_INT; flags := [] |} 0 0 eq_refl)
    as [Hc [_ [_ [_ Hn]]]].
  split; [exact Hc | exact Hn].
Defined.

(** C6, as stated, fails for one of its two directions: 8-bit integers
    to int64 (group of 2) is not a composition of two kernels of this file,
    which has no specialization for that tuple at all. *)
Lemma int8_to_int64_not_composed :
  ~ composed_through_int32 Int64 2 Int8 1.
Proof. intros [k [Hk _]]. discriminate Hk. Qed.

(** ** float to int64 *)

(** C4: for every 32-bit float lane value, the float-to-int64 conversion
    rounds toward zero: a finite lane whose truncated value fits int64
    converts to that value.  No floating-point exception is recorded,
    whatever the lanes hold: MXCSR is left as it was.  A lane whose value
    does not fit (9.3e18 for one), an infinity or a NaN converts to the
    pattern the hardware defines for it, 0x8000000000000000, not to a
    clamped value. *)
Theorem float_to_int64_truncates (src : Z) (st : MXCSR) (i : nat) :
  (i < 16)%nat ->
  snd (VecConvert_int64_t_2_float_1 src st) = st
  /\ match decode (lane 32 src i) with
     | FFin neg m e =>
         let t := to_integer TO_ZERO neg m e in
         truncation_of neg m e t
         /\ (- 2 ^ 63 <= t < 2 ^ 63 ->
             signed 64
               (elem 64 (regs2 (fst (VecConvert_int64_t_2_float_1 src st))) i)
             = t)
         /\ (~ - 2 ^ 63 <= t < 2 ^ 63 ->
             elem 64 (regs2 (fst (VecConvert_int64_t_2_float_1 src st))) i
             = integer_indefinite64)
     | _ =>
         elem 64 (regs2 (fst (VecConvert_int64_t_2_float_1 src st))) i
         = integer_indefinite64
     end.
Proof.
  intros Hi. split; [apply LaneOrder.float_to_int64_state|].
  rewrite LaneOrder.float_to_int64_lane by assumption.
  unfold cvtps_epi64_lane.
  destruct (decode (lane 32 src i)) as [| neg | neg m e] eqn:Hd;
    try reflexivity.
  cbv zeta. split; [|split].
  - apply F32Facts.to_zero_truncates.
    now apply (F32Facts.decode_finite_nonneg (lane 32 src i) neg m e).
  - intros [Hlo Hhi].
    destruct (Z.leb_spec (- 2 ^ 63) (to_integer TO_ZERO neg m e)); [|lia].
    destruct (Z.ltb_spec (to_integer TO_ZERO neg m e) (2 ^ 63)); [|lia].
    cbn [andb fst]. rewrite !signed_wrap. apply signed_small; [lia|].
    split; assumption.
  - intros Hout.
    destruct (Z.leb_spec (- 2 ^ 63) (to_integer TO_ZERO neg m e));
      destruct (Z.ltb_spec (to_integer TO_ZERO neg m e) (2 ^ 63));
      cbn [andb fst]; try reflexivity.
    exfalso. apply Hout. split; assumption.
Qed.

Lemma float_to_int64_truncates_witness :
  snd (VecConvert_int64_t_2_float_1 float_register
         {| rc := TO_NEAREST_INT; flags := [] |})
  = {| rc := TO_NEAREST_INT; flags := [] |}
  /\ signed 64
       (elem 64
          (regs2 (fst (VecConvert_int64_t_2_float_1 float_register
                         {| rc := TO_NEAREST_INT; flags := [] |}))) 5)
     = -2.
Proof.
  destruct (float_to_int64_truncates float_register
              {| rc := TO_NEAREST_INT; flags := [] |} 5 ltac:(lia))
    as [Hst Hlane].
  split; [exact Hst|].
  change (decode (lane 32 float_register 5)) with (FFin true 11534336 (-22))
    in Hlane.
  destruct Hlane as [_ [Hin _]].
  refine (eq_trans (Hin _) _); [vm_compute; split; congruence | reflexivity].
Defined.

(** The sixteen lanes of [float_register] through the kernel: fractions
    are dropped toward zero (2.75 to 2, -2.75 to -2, -1.5 to -1), and
    9.3e18, the infinities and the NaN give [- 2^63], the signed reading of
    0x8000000000000000, where a saturating conversion would give
    [2^63 - 1] for 9.3e18. *)
Example float_to_int64_lanes :
  map (fun i => signed 64
         (elem 64
            (regs2 (fst (VecConvert_int64_t_2_float_1 float_register
                           {| rc := TO_POS_INF; flags := [] |}))) i))
      (seq 0 16)
  = [1000; -1000; 100; - 2 ^ 63; 2; -2; 1; 300;
     -1; 3000000000; - 2 ^ 63; - 2 ^ 63; - 2 ^ 63; 0; 0; 1].
Proof. vm_compute. reflexivity. Qed.

(** ** float to 8-bit integers *)

(** C1: the float-to-int8 and float-to-uint8 conversions are saturating:
    the result always lies in the destination range, a finite lane above
    the range or +infinity gives the maximum, one below it or -infinity
    gives the minimum, and an integer inside the range gives itself; so
    1000.0, -1000.0 and 100.0 give 127, -128 and 100 for int8.  (What a
    NaN gives is not fixed.) *)
Theorem float_to_int8_saturates
    (u : Unspecified) (dst_t : ScalarType) (src : Z) (i : nat) :
  is_8bit_integer dst_t = true -> (i < 16)%nat ->
  let out :=
    value8 dst_t
      (lane 8 (VecConvert_dst_t_1_float_1 (helpers := spec_helpers u)
                 dst_t src) i) in
  match decode (lane 32 src i) with
  | FFin neg m e =>
      min_val dst_t <= out <= max_val dst_t
      /\ (max_val dst_t * denominator e < numerator neg m e ->
          out = max_val dst_t)
      /\ (numerator neg m e < min_val dst_t * denominator e ->
          out = min_val dst_t)
      /\ (forall v, numerator neg m e = v * denominator e ->
            min_val dst_t <= v <= max_val dst_t -> out = v)
  | FInf neg => out = if neg then min_val dst_t else max_val dst_t
  | FNaN => True
  end.
Proof.
  intros Ht Hi out. subst out. unfold spec_helpers.
  rewrite LaneOrder.dst_float_lane by assumption.
  cbn [float_to_int8 spec_prims]. unfold float_to_int8_lane.
  pose proof (ConversionFacts.min_le_max dst_t Ht) as Hmm.
  destruct (decode (lane 32 src i)) as [| neg | neg m e] eqn:Hd.
  - exact I.
  - apply ConversionFacts.value8_of_pattern; [assumption|].
    destruct neg; lia.
  - pose proof (F32Facts.decode_finite_nonneg _ _ _ _ Hd) as Hm.
    destruct (ConversionFacts.clamp_cases dst_t (fraction_rounding u)
                neg m e Ht Hm) as [Hr [Hhi [Hlo Hin]]].
    rewrite ConversionFacts.value8_of_pattern by assumption.
    repeat split; try lia; assumption.
Qed.

Lemma float_to_int8_saturates_witness :
  value8 Int8
    (lane 8 (VecConvert_dst_t_1_float_1
               (helpers := spec_helpers default_unspecified)
               Int8 float_register) 0)
  = 127
  /\ value8 Int8
       (lane 8 (VecConvert_dst_t_1_float_1
                  (helpers := spec_helpers default_unspecified)
                  Int8 float_register) 1)
     = -128
  /\ value8 Int8
       (lane 8 (VecConvert_dst_t_1_float_1
                  (helpers := spec_helpers default_unspecified)
                  Int8 float_register) 2)
     = 100.
Proof.
  pose proof (float_to_int8_saturates default_unspecified Int8
                float_register 0 eq_refl ltac:(lia)) as H0.
  pose proof (float_to_int8_saturates default_unspecified Int8
                float_register 1 eq_refl ltac:(lia)) as H1.
  pose proof (float_to_int8_saturates default_unspecified Int8
                float_register 2 eq_refl ltac:(lia)) as H2.
  cbv zeta in H0, H1, H2.
  change (decode (lane 32 float_register 0)) with (FFin false 16384000 (-14))
    in H0.
  change (decode (lane 32 float_register 1)) with (FFin true 16384000 (-14))
    in H1.
  change (decode (lane 32 float_register 2)) with (FFin false 13107200 (-17))
    in H2.
  destruct H0 as [_ [H0 _]]. destruct H1 as [_ [_ [H1 _]]].
  destruct H2 as [_ [_ [_ H2]]].
  split; [|split].
  - refine (eq_trans (H0 _) _); [vm_compute|]; reflexivity.
  - refine (eq_trans (H1 _) _); [vm_compute|]; reflexivity.
  - apply (H2 100); [reflexivity | vm_compute; split; congruence].
Defined.

(** The sixteen lanes of [float_register] for both destinations, with
    truncation and with rounding to nearest: whatever is above the range
    gives its maximum, whatever is below gives its minimum. *)
Example float_to_int8_lanes :
  map (fun i => value8 Int8
         (lane 8 (VecConvert_dst_t_1_float_1
                    (helpers := spec_helpers default_unspecified)
                    Int8 float_register) i))
      (seq 0 16)
  = [127; -128; 100; 127; 2; -2; 1; 127; -1; 127; 127; -128; 0; 0; 0; 1]
  /\ map (fun i => value8 UInt8
            (lane 8 (VecConvert_dst_t_1_float_1
                       (helpers := spec_helpers saturating_unspecified)
                       UInt8 float_register) i))
         (seq 0 16)
     = [255; 0; 100; 255; 3; 0; 1; 255; 0; 255; 255; 0; 0; 0; 0; 1].
Proof. split; vm_compute; reflexivity. Qed.

(** ** 8-bit integers to float *)

(** C8: for every 8-bit integer lane value, signed or unsigned, converting
    the register directly to float gives the same register as converting
    it to int32 and then int32 to float; the float denotes the lane's value
    exactly, and the value is recovered from it (lossless). *)
Theorem int8_to_float_direct_is_composed
    (u : Unspecified) (src : Z) (i : nat) :
  (i < 16)%nat ->
  VecConvert_float_1_src_t_1 (helpers := spec_helpers u) Int8 src
  = VecConvert_float_1_int32_t_1 (VecConvert_int32_t_1_int8_t_1 src)
  /\ VecConvert_float_1_src_t_1 (helpers := spec_helpers u) UInt8 src
     = VecConvert_float_1_int32_t_1 (VecConvert_int32_t_1_uint8_t_1 src)
  /\ forall t, is_8bit_integer t = true ->
       denotes
         (lane 32 (VecConvert_float_1_src_t_1 (helpers := spec_helpers u)
                     t src) i)
         (value8 t (lane 8 src i))
       /\ forall r nan,
            float_to_int8_lane r nan t
              (lane 32 (VecConvert_float_1_src_t_1
                          (helpers := spec_helpers u) t src) i)
            = lane 8 src i.
Proof.
  intros Hi.
  assert (Hdirect : forall t j, is_8bit_integer t = true -> (j < 16)%nat ->
            lane 32 (VecConvert_float_1_src_t_1 (helpers := spec_helpers u)
                       t src) j
            = exact_binary32 (value8 t (lane 8 src j))).
  { intros t j Ht Hj. unfold spec_helpers.
    rewrite LaneOrder.float_src_lane by assumption.
    cbn [int8_to_float spec_prims]. unfold int8_to_float_lane.
    apply wrap_small; [lia|]. apply ConversionFacts.exact_range.
    apply ConversionFacts.value8_range. assumption. }
  assert (Hrange : forall t,
            0 <= VecConvert_float_1_src_t_1 (helpers := spec_helpers u) t src
            < 2 ^ (32 * Z.of_nat 16)).
  { intros t. unfold VecConvert_float_1_src_t_1, spec_helpers.
    cbn [convert_int8_to_float lanewise]. unfold map_lanes.
    pose proof (pack_range 32
      (map (int8_to_float (spec_prims u) t) (unpack 8 16 src)) ltac:(lia)) as H.
    now rewrite length_map, unpack_length in H. }
  assert (Hcomp : forall a,
            0 <= VecConvert_float_1_int32_t_1 a < 2 ^ (32 * Z.of_nat 16)).
  { intros a. unfold VecConvert_float_1_int32_t_1, _mm512_cvtepi32_ps.
    pose proof (pack_range 32
      (map (fun x => of_integer (signed 32 x)) (unpack 32 16 a)) ltac:(lia))
      as H.
    now rewrite length_map, unpack_length in H. }
  assert (Hlane : forall a j, (j < 16)%nat ->
            lane 32 (VecConvert_float_1_int32_t_1 a) j
            = wrap 32 (of_integer (signed 32 (lane 32 a j)))).
  { intros a j Hj. unfold VecConvert_float_1_int32_t_1, _mm512_cvtepi32_ps.
    now rewrite lane_pack_map by lia. }
  split; [|split].
  - apply (eq_of_lanes 32 16); try lia; [apply Hrange | apply Hcomp |].
    intros j Hj. rewrite Hdirect, Hlane by (assumption || reflexivity).
    rewrite IntegerFacts.int8_lane, IntegerFacts.signed32_sext8 by assumption.
    cbn [value8].
    pose proof (signed_range 8 (lane 8 src j) ltac:(lia)) as Hs.
    rewrite <- ConversionFacts.exact_is_rounded by (lia).
    symmetry. apply wrap_small; [lia|].
    apply ConversionFacts.exact_range. lia.
  - apply (eq_of_lanes 32 16); try lia; [apply Hrange | apply Hcomp |].
    intros j Hj. rewrite Hdirect, Hlane by (assumption || reflexivity).
    rewrite IntegerFacts.uint8_lane by assumption.
    cbn [value8]. rewrite wrap_lane by lia.
    pose proof (lane_range 8 src j ltac:(lia)) as Hl.
    rewrite (signed_small 32) by (lia).
    rewrite <- ConversionFacts.exact_is_rounded by (lia).
    symmetry. apply wrap_small; [lia|].
    apply ConversionFacts.exact_range. lia.
  - intros t Ht. rewrite Hdirect by assumption.
    destruct (ConversionFacts.value8_range t (lane 8 src i) Ht) as [Hv Hw].
    pose proof (ConversionFacts.exact_denotes _ Hw) as Hden.
    split; [exact Hden|].
    intros r nan. unfold float_to_int8_lane. unfold denotes in Hden.
    destruct (decode (exact_binary32 (value8 t (lane 8 src i))))
      as [| neg | neg m e] eqn:Hd; try contradiction.
    pose proof (F32Facts.decode_finite_nonneg _ _ _ _ Hd) as Hm.
    rewrite (F32Facts.round_integer r neg m e _ Hm Hden).
    rewrite Z.min_r, Z.max_r by lia.
    rewrite ConversionFacts.wrap8_value8 by assumption.
    apply wrap_lane. lia.
Qed.

Lemma int8_to_float_direct_is_composed_witness :
  VecConvert_float_1_src_t_1 (helpers := spec_helpers default_unspecified)
    Int8 int8_register
  = VecConvert_float_1_int32_t_1 (VecConvert_int32_t_1_int8_t_1 int8_register)
  /\ denotes
       (lane 32 (VecConvert_float_1_src_t_1
                   (helpers := spec_helpers default_unspecified)
                   Int8 int8_register) 3)
       (-128).
Proof.
  destruct (int8_to_float_direct_is_composed default_unspecified
              int8_register 3 ltac:(lia)) as [He [_ Hd]].
  split; [exact He | exact (proj1 (Hd Int8 eq_refl))].
Defined.

(** ** float and brain-float *)

(** The helpers [cvtfp32_bf16] and [cvtbf16_fp32] are defined in another
    header, and the specification's sentence on the down-conversion can be
    read in two ways: it "keeps the top 16 bits" and it is "round-to-nearest
    per hardware instruction semantics".  The two readings disagree on the
    round trip float, brain-float, float, as the facts below record for
    the two models of the down-conversion. *)

(** Read as rounding to nearest ([fp32_to_bf16_lane]), the pattern
    0x3F80FFFF (lane 15 of [float_register]) comes back from the round trip
    as 0x3F810000, whose top 16 bits are not the original's. *)
Example bf16_round_trip_changes_top16 :
  lane 32 (bf16_round_trip default_unspecified 0 float_register) 15
  = 1065418752
  /\ top16 (lane 32 (bf16_round_trip default_unspecified 0 float_register) 15)
     <> top16 (lane 32 float_register 15).
Proof. split; [reflexivity | vm_compute; congruence]. Qed.

(** Read as keeping the top 16 bits without rounding
    ([fp32_to_bf16_lane_truncating]), the top 16 bits come back unchanged
    for every pattern. *)
Remark bf16_round_trip_without_rounding (x : Z) :
  top16 (bf16_to_fp32_lane (fp32_to_bf16_lane_truncating x)) = top16 x.
Proof. apply ConversionFacts.bf16_truncating_keeps_top. Qed.

(** * Further properties of the kernels *)

Import More.

(** ** The kernels that merge two registers *)

Module MergeFacts.
Import Bits BitsFacts Intrin IntrinFacts Group Kernels KernelFacts.

Lemma int64_to_float_range undef src st :
  is_m512 (VecConvert_float_1_int64_t_2 undef src st).
Proof.
  unfold VecConvert_float_1_int64_t_2, _mm512_insertf32x8. cbv zeta.
  imm8_is_1. apply halves_range.
Qed.

Lemma int64_to_float_undef undef undef' src st :
  VecConvert_float_1_int64_t_2 undef src st
  = VecConvert_float_1_int64_t_2 undef' src st.
Proof.
  apply (eq_of_lanes 32 16); try lia; try apply int64_to_float_range.
  intros j Hj. now rewrite !LaneOrder.int64_to_float_lane by assumption.
Qed.

End MergeFacts.

(** X1: the kernels that merge two int64 registers into one register
    (to int32, to float, and through int32 to an 8-bit type) give a result
    in which the undefined upper half of the widening cast plays no part:
    the insert overwrites it. *)
Theorem merging_kernels_ignore_undefined_half
    (helpers : Vec512Helpers) (dst_t : ScalarType)
    (undef undef' : Z) (src : Z * Z) (st : MXCSR) :
  VecConvert_int32_t_1_int64_t_2 undef src
  = VecConvert_int32_t_1_int64_t_2 undef' src
  /\ VecConvert_float_1_int64_t_2 undef src st
     = VecConvert_float_1_int64_t_2 undef' src st
  /\ VecConvert_dst_t_1_int64_t_2 dst_t undef src
     = VecConvert_dst_t_1_int64_t_2 dst_t undef' src.
Proof.
  assert (Hn : VecConvert_int32_t_1_int64_t_2 undef src
               = VecConvert_int32_t_1_int64_t_2 undef' src)
    by (apply IntegerFacts.narrow_low_halves; reflexivity).
  split; [exact Hn|split].
  - apply MergeFacts.int64_to_float_undef.
  - unfold VecConvert_dst_t_1_int64_t_2. now rewrite Hn.
Qed.

(** ** The 8-bit widenings *)

Module WidenFacts.
Import Bits BitsFacts Intrin IntrinFacts Group Kernels KernelFacts.

Lemma int8_to_int32_range src :
  is_m512 (VecConvert_int32_t_1_int8_t_1 src)
  /\ is_m512 (VecConvert_int32_t_1_uint8_t_1 src).
Proof.
  unfold VecConvert_int32_t_1_int8_t_1, VecConvert_int32_t_1_uint8_t_1,
    _mm512_cvtepi8_epi32, _mm512_cvtepu8_epi32, is_m512. cbv zeta. split.
  - pose proof (pack_range 32
      (map (fun x => wrap 32 (signed 8 x))
         (unpack 8 16 (_mm512_castsi512_si128 src))) ltac:(lia)) as H.
    now rewrite length_map, unpack_length in H.
  - pose proof (pack_range 32
      (map (fun x => wrap 32 (wrap 8 x))
         (unpack 8 16 (_mm512_castsi512_si128 src))) ltac:(lia)) as H.
    now rewrite length_map, unpack_length in H.
Qed.

(** Narrowing what was widened gives the register back. *)
Lemma narrow_after_widen undef x :
  is_m512 x ->
  VecConvert_int32_t_1_int64_t_2 undef (VecConvert_int64_t_2_int32_t_1 x) = x.
Proof.
  intros Hx. apply (eq_of_lanes 32 16); try lia;
    [apply narrow_range | exact Hx |].
  intros j Hj. rewrite narrow_lane, widen_lane by assumption.
  rewrite wrap32_sext. apply wrap_lane. lia.
Qed.

(** Sources with the same first sixteen 8-bit lanes have the same low 128
    bits. *)
Lemma low128_of_lanes src src' :
  (forall j, (j < 16)%nat -> lane 8 src j = lane 8 src' j) ->
  wrap 128 src = wrap 128 src'.
Proof.
  intros H. apply (eq_of_lanes 8 16); try lia;
    try (apply (wrap_range 128); lia).
  intros j Hj. rewrite !lane_wrap_below by lia. now apply H.
Qed.

Lemma low8_of_int8_lane src i :
  (i < 16)%nat ->
  wrap 8 (lane 32 (VecConvert_int32_t_1_int8_t_1 src) i) = lane 8 src i.
Proof.
  intros Hi. rewrite IntegerFacts.int8_lane by assumption.
  rewrite wrap_wrap_le, wrap_signed by lia. apply wrap_lane. lia.
Qed.

Lemma low8_of_uint8_lane src i :
  (i < 16)%nat ->
  wrap 8 (lane 32 (VecConvert_int32_t_1_uint8_t_1 src) i) = lane 8 src i.
Proof.
  intros Hi. rewrite IntegerFacts.uint8_lane by assumption.
  apply wrap_lane. lia.
Qed.

End WidenFacts.

(** X2: the 8-bit-to-32-bit kernels lose nothing of the sixteen lanes they
    read: the low 8 bits of each result lane are the source lane, and two
    sources give the same result exactly when they agree on their low 128
    bits. *)
Theorem int8_to_int32_lossless (src src' : Z) (i : nat) :
  (i < 16)%nat ->
  wrap 8 (lane 32 (VecConvert_int32_t_1_int8_t_1 src) i) = lane 8 src i
  /\ wrap 8 (lane 32 (VecConvert_int32_t_1_uint8_t_1 src) i) = lane 8 src i
  /\ (VecConvert_int32_t_1_int8_t_1 src = VecConvert_int32_t_1_int8_t_1 src'
      <-> wrap 128 src = wrap 128 src')
  /\ (VecConvert_int32_t_1_uint8_t_1 src = VecConvert_int32_t_1_uint8_t_1 src'
      <-> wrap 128 src = wrap 128 src').
Proof.
  intros Hi. split; [|split; [|split; split]].
  - now apply WidenFacts.low8_of_int8_lane.
  - now apply WidenFacts.low8_of_uint8_lane.
  - intros He. apply WidenFacts.low128_of_lanes. intros j Hj.
    rewrite <- !WidenFacts.low8_of_int8_lane by assumption. now rewrite He.
  - intros Hl. unfold VecConvert_int32_t_1_int8_t_1, _mm512_castsi512_si128.
    cbv zeta. now rewrite Hl.
  - intros He. apply WidenFacts.low128_of_lanes. intros j Hj.
    rewrite <- !WidenFacts.low8_of_uint8_lane by assumption. now rewrite He.
  - intros Hl. unfold VecConvert_int32_t_1_uint8_t_1, _mm512_castsi512_si128.
    cbv zeta. now rewrite Hl.
Qed.

Lemma int8_to_int32_lossless_witness :
  wrap 8 (lane 32 (VecConvert_int32_t_1_int8_t_1 int8_register) 5) = 200
  /\ (VecConvert_int32_t_1_uint8_t_1 int8_register
      = VecConvert_int32_t_1_uint8_t_1 int8_register_low
      <-> wrap 128 int8_register = wrap 128 int8_register_low).
Proof.
  destruct (int8_to_int32_lossless int8_register int8_register_low 5
              ltac:(lia)) as [Hs [_ [_ Hu]]].
  split; [rewrite Hs; reflexivity | exact Hu].
Defined.

(** X3: the signed and the unsigned 8-bit-to-32-bit kernels give values
    in [-128, 127] and in [0, 255]; on a source lane below 128 they give
    the same lane, on a source lane from 128 up the signed result is the
    unsigned one minus 256. *)
Theorem int8_signed_and_unsigned (src : Z) (i : nat) :
  (i < 16)%nat ->
  let s := signed 32 (lane 32 (VecConvert_int32_t_1_int8_t_1 src) i) in
  let u := lane 32 (VecConvert_int32_t_1_uint8_t_1 src) i in
  -128 <= s <= 127
  /\ 0 <= u <= 255
  /\ (u < 128 ->
      s = u /\ lane 32 (VecConvert_int32_t_1_int8_t_1 src) i = u)
  /\ (128 <= u ->
      s = u - 256
      /\ lane 32 (VecConvert_int32_t_1_int8_t_1 src) i = u + (2 ^ 32 - 2 ^ 8)).
Proof.
  intros Hi s u. subst s u.
  rewrite IntegerFacts.uint8_lane by assumption.
  rewrite IntegerFacts.int8_lane by assumption.
  rewrite IntegerFacts.signed32_sext8.
  pose proof (lane_range 8 src i ltac:(lia)) as Hl.
  rewrite signed_alt by lia. rewrite wrap_lane by lia.
  change (2 ^ (8 - 1)) with 128. change (2 ^ 8) with 256 in *.
  destruct (Z.leb_spec 128 (lane 8 src i)) as [Hge | Hlt].
  - split; [lia|]. split; [lia|]. split; intros Hu; [lia|].
    split; [reflexivity|].
    rewrite wrap_mod by lia.
    symmetry. apply Z.mod_unique with (-1); lia.
  - split; [lia|]. split; [lia|]. split; intros Hu; [|lia].
    split; [reflexivity|]. apply wrap_small; lia.
Qed.

Lemma int8_signed_and_unsigned_witness :
  signed 32 (lane 32 (VecConvert_int32_t_1_int8_t_1 int8_register) 5)
  = lane 32 (VecConvert_int32_t_1_uint8_t_1 int8_register) 5 - 256
  /\ signed 32 (lane 32 (VecConvert_int32_t_1_int8_t_1 int8_register) 6)
     = lane 32 (VecConvert_int32_t_1_uint8_t_1 int8_register) 6.
Proof.
  destruct (int8_signed_and_unsigned int8_register 5 ltac:(lia))
    as [_ [_ [_ H5]]].
  destruct (int8_signed_and_unsigned int8_register 6 ltac:(lia))
    as [_ [_ [H6 _]]].
  split.
  - apply H5. vm_compute. congruence.
  - apply H6. reflexivity.
Defined.

(** X4: widening the result of an 8-bit-to-32-bit kernel to int64 keeps
    each lane's value (the signed value of a signed source lane, the lane
    itself for an unsigned source), and narrowing the widened group gives
    the 32-bit register back. *)
Theorem int8_to_int64_through_int32 (undef src : Z) (i : nat) :
  (i < 16)%nat ->
  signed 64
    (elem 64
       (regs2 (VecConvert_int64_t_2_int32_t_1
                 (VecConvert_int32_t_1_int8_t_1 src))) i)
  = signed 8 (lane 8 src i)
  /\ elem 64
       (regs2 (VecConvert_int64_t_2_int32_t_1
                 (VecConvert_int32_t_1_uint8_t_1 src))) i
     = lane 8 src i
  /\ VecConvert_int32_t_1_int64_t_2 undef
       (VecConvert_int64_t_2_int32_t_1 (VecConvert_int32_t_1_int8_t_1 src))
     = VecConvert_int32_t_1_int8_t_1 src
  /\ VecConvert_int32_t_1_int64_t_2 undef
       (VecConvert_int64_t_2_int32_t_1 (VecConvert_int32_t_1_uint8_t_1 src))
     = VecConvert_int32_t_1_uint8_t_1 src.
Proof.
  intros Hi. destruct (WidenFacts.int8_to_int32_range src) as [Rs Ru].
  split; [|split; [|split]].
  - rewrite widen_lane by assumption. rewrite signed64_sext.
    rewrite IntegerFacts.int8_lane by assumption.
    apply IntegerFacts.signed32_sext8.
  - rewrite widen_lane by assumption.
    rewrite IntegerFacts.uint8_lane by assumption.
    pose proof (lane_range 8 src i ltac:(lia)) as Hl.
    rewrite (signed_small 32) by lia. apply wrap_small; lia.
  - now apply WidenFacts.narrow_after_widen.
  - now apply WidenFacts.narrow_after_widen.
Qed.

Lemma int8_to_int64_through_int32_witness :
  signed 64
    (elem 64
       (regs2 (VecConvert_int64_t_2_int32_t_1
                 (VecConvert_int32_t_1_int8_t_1 int8_register))) 3)
  = -128
  /\ elem 64
       (regs2 (VecConvert_int64_t_2_int32_t_1
                 (VecConvert_int32_t_1_uint8_t_1 int8_register))) 3
     = 128.
Proof.
  destruct (int8_to_int64_through_int32 0 int8_register 3 ltac:(lia))
    as [Hs [Hu _]].
  split; [rewrite Hs | rewrite Hu]; reflexivity.
Defined.

(** ** float to int64, lane by lane *)

Module TruncationFacts.
Import Bits BitsFacts F32 F32Facts Intrin Group Kernels KernelFacts.

(** Rounding toward zero is the quotient of the fraction that rounds
    toward zero. *)
Lemma to_zero_quot neg m e :
  0 <= m ->
  to_integer TO_ZERO neg m e = Z.quot (numerator neg m e) (denominator e).
Proof.
  intros Hm. unfold to_integer, round_magnitude, numerator, denominator.
  destruct (Z.leb_spec 0 e) as [He | He].
  - rewrite Z.quot_1_r. destruct neg; lia.
  - assert (Hp : 0 < 2 ^ (- e)) by (apply Z.pow_pos_nonneg; lia).
    rewrite Z.shiftr_div_pow2 by lia.
    rewrite <- Z.quot_div_nonneg by lia.
    destruct neg.
    + replace (-1 * m) with (- m) by lia. now rewrite Z.quot_opp_l by lia.
    + now replace (1 * m) with m by lia.
Qed.

(** The fields of a pattern bound the number it denotes. *)
Lemma exponent_field_range b : 0 <= exponent_field b < 256.
Proof.
  unfold exponent_field. change 255 with (Z.ones 8).
  apply (wrap_range 8). lia.
Qed.

Lemma decode_by_exponent b :
  exponent_field b <> 255 ->
  exists m e,
    decode b = FFin (sign_bit b) m e
    /\ 0 <= m < 2 ^ 24
    /\ (exponent_field b = 0 -> e = -149)
    /\ (exponent_field b <> 0 -> 2 ^ 23 <= m /\ e = exponent_field b - 150).
Proof.
  intros H255. unfold decode. cbv zeta.
  pose proof (fraction_field_range b) as Hf.
  pose proof (exponent_field_range b) as He.
  destruct (Z.eqb_spec (exponent_field b) 255); [contradiction|].
  destruct (Z.eqb_spec (exponent_field b) 0) as [H0 | H0].
  - exists (fraction_field b), (-149). repeat split; lia.
  - exists (fraction_field b + 2 ^ 23), (exponent_field b - 150).
    repeat split; lia.
Qed.

Lemma decode_not_finite b :
  exponent_field b = 255 ->
  decode b = FNaN \/ exists neg, decode b = FInf neg.
Proof.
  intros H. unfold decode. cbv zeta. rewrite H. cbn [Z.eqb Pos.eqb].
  destruct (fraction_field b =? 0); [right; eauto | now left].
Qed.

(** Below the exponent of [2^63] the truncated value fits int64 with room
    to spare. *)
Lemma truncated_bound neg m e :
  0 <= m < 2 ^ 24 -> e <= 39 ->
  - 2 ^ 63 < to_integer TO_ZERO neg m e < 2 ^ 63.
Proof.
  intros Hm He. unfold to_integer, round_magnitude.
  assert (Hq : 0 <= (if 0 <=? e then m * 2 ^ e else Z.shiftr m (- e)) < 2 ^ 63).
  { destruct (Z.leb_spec 0 e).
    - assert (0 < 2 ^ e <= 2 ^ 39).
      { split; [apply Z.pow_pos_nonneg; lia | apply Z.pow_le_mono_r; lia]. }
      nia.
    - rewrite Z.shiftr_div_pow2 by lia.
      assert (0 < 2 ^ (- e)) by (apply Z.pow_pos_nonneg; lia).
      split; [apply Z.div_pos; lia|].
      apply Z.le_lt_trans with m; [|lia].
      apply Z.div_le_upper_bound; nia. }
  destruct neg; lia.
Qed.

(** From the exponent of [2^63] up the magnitude does not fit. *)
Lemma truncated_large neg m e :
  2 ^ 23 <= m -> 40 <= e -> 2 ^ 63 <= round_magnitude TO_ZERO neg m e.
Proof.
  intros Hm He. unfold round_magnitude.
  destruct (Z.leb_spec 0 e); [|lia].
  assert (2 ^ 40 <= 2 ^ e) by (apply Z.pow_le_mono_r; lia).
  nia.
Qed.

(** Below the exponent of 1 the magnitude truncates to nothing. *)
Lemma truncated_small neg m e :
  0 <= m < 2 ^ 24 -> e <= -24 -> to_integer TO_ZERO neg m e = 0.
Proof.
  intros Hm He. unfold to_integer, round_magnitude.
  destruct (Z.leb_spec 0 e); [lia|].
  assert (Hz : Z.shiftr m (- e) = 0).
  { rewrite Z.shiftr_div_pow2 by lia. apply Z.div_small.
    assert (2 ^ 24 <= 2 ^ (- e)) by (apply Z.pow_le_mono_r; lia). lia. }
  rewrite Hz. now destruct neg.
Qed.

(** The lane a finite source lane converts to, when its truncation fits. *)
Lemma lane_of_finite src st i neg m e :
  (i < 16)%nat ->
  decode (lane 32 src i) = FFin neg m e ->
  - 2 ^ 63 <= to_integer TO_ZERO neg m e < 2 ^ 63 ->
  elem 64 (regs2 (fst (VecConvert_int64_t_2_float_1 src st))) i
  = wrap 64 (to_integer TO_ZERO neg m e)
  /\ signed 64
       (elem 64 (regs2 (fst (VecConvert_int64_t_2_float_1 src st))) i)
     = to_integer TO_ZERO neg m e.
Proof.
  intros Hi Hd [Hlo Hhi].
  rewrite LaneOrder.float_to_int64_lane by assumption.
  unfold cvtps_epi64_lane. rewrite Hd. cbv zeta.
  destruct (Z.leb_spec (- 2 ^ 63) (to_integer TO_ZERO neg m e)); [|lia].
  destruct (Z.ltb_spec (to_integer TO_ZERO neg m e) (2 ^ 63)); [|lia].
  cbn [andb fst]. rewrite wrap_idem by lia. split; [reflexivity|].
  rewrite signed_wrap. apply signed_small; lia.
Qed.

(** The lane a source lane converts to, when nothing fits. *)
Lemma lane_of_unfit src st i :
  (i < 16)%nat ->
  match decode (lane 32 src i) with
  | FFin neg m e => ~ - 2 ^ 63 < to_integer TO_ZERO neg m e < 2 ^ 63
  | _ => True
  end ->
  elem 64 (regs2 (fst (VecConvert_int64_t_2_float_1 src st))) i
  = integer_indefinite64.
Proof.
  intros Hi Hd.
  rewrite LaneOrder.float_to_int64_lane by assumption.
  unfold cvtps_epi64_lane.
  destruct (decode (lane 32 src i)) as [| neg | neg m e]; try reflexivity.
  cbv zeta.
  destruct (Z.leb_spec (- 2 ^ 63) (to_integer TO_ZERO neg m e));
    destruct (Z.ltb_spec (to_integer TO_ZERO neg m e) (2 ^ 63));
    cbn [andb fst]; try reflexivity.
  assert (Ht : to_integer TO_ZERO neg m e = - 2 ^ 63) by lia.
  rewrite Ht. reflexivity.
Qed.

End TruncationFacts.

Module SignFacts.
Import Bits BitsFacts F32 F32Facts.

Lemma testbit_sign_mask n :
  0 <= n -> Z.testbit (Z.shiftl 1 31) n = (n =? 31).
Proof.
  intros Hn. change (Z.shiftl 1 31) with (2 ^ 31).
  rewrite Z.pow2_bits_eqb by lia. apply Z.eqb_sym.
Qed.

Lemma sign_bit_negate b : sign_bit (negate b) = negb (sign_bit b).
Proof.
  unfold sign_bit, negate. rewrite Z.lxor_spec, testbit_sign_mask by lia.
  cbn [Z.eqb Pos.eqb]. apply xorb_true_r.
Qed.

Lemma fraction_field_negate b : fraction_field (negate b) = fraction_field b.
Proof.
  unfold fraction_field, negate. apply Z.bits_inj'. intros n Hn.
  rewrite !Z.land_spec, Z.lxor_spec, testbit_sign_mask by lia.
  rewrite Z.testbit_ones_nonneg by lia.
  destruct (Z.ltb_spec n 23); [|now rewrite !andb_false_r].
  destruct (Z.eqb_spec n 31); [lia|]. now rewrite xorb_false_r.
Qed.

Lemma exponent_field_negate b : exponent_field (negate b) = exponent_field b.
Proof.
  unfold exponent_field, negate. change 255 with (Z.ones 8).
  apply Z.bits_inj'. intros n Hn.
  rewrite !Z.land_spec, !Z.shiftr_spec, Z.lxor_spec by lia.
  rewrite testbit_sign_mask by lia.
  rewrite Z.testbit_ones_nonneg by lia.
  destruct (Z.ltb_spec n 8); [|now rewrite !andb_false_r].
  destruct (Z.eqb_spec (n + 23) 31); [lia|]. now rewrite xorb_false_r.
Qed.

(** Inverting the sign bit negates the number and nothing else. *)
Lemma decode_negate b :
  decode (negate b)
  = match decode b with
    | FNaN => FNaN
    | FInf neg => FInf (negb neg)
    | FFin neg m e => FFin (negb neg) m e
    end.
Proof.
  unfold decode. cbv zeta.
  rewrite exponent_field_negate, fraction_field_negate, sign_bit_negate.
  destruct (exponent_field b =? 255).
  - now destruct (fraction_field b =? 0).
  - now destruct (exponent_field b =? 0).
Qed.

Lemma to_zero_negated neg m e :
  to_integer TO_ZERO (negb neg) m e = - to_integer TO_ZERO neg m e.
Proof. unfold to_integer, round_magnitude. destruct neg; cbn [negb]; lia. Qed.

End SignFacts.

(** X5: a float lane that holds an integer of the int64 range converts to
    that integer exactly, and the converted group is the same whatever
    MXCSR holds when the kernel runs (the rounding is fixed by the
    immediate, not by the current rounding mode). *)
Theorem float_to_int64_exact_on_integers
    (src : Z) (st st' : MXCSR) (i : nat) (v : Z) :
  (i < 16)%nat ->
  denotes (lane 32 src i) v ->
  - 2 ^ 63 <= v < 2 ^ 63 ->
  signed 64 (elem 64 (regs2 (fst (VecConvert_int64_t_2_float_1 src st))) i)
  = v
  /\ fst (VecConvert_int64_t_2_float_1 src st)
     = fst (VecConvert_int64_t_2_float_1 src st').
Proof.
  intros Hi Hden Hv. split.
  - unfold denotes in Hden.
    destruct (decode (lane 32 src i)) as [| neg | neg m e] eqn:Hd;
      try contradiction.
    pose proof (F32Facts.decode_finite_nonneg _ _ _ _ Hd) as Hm.
    pose proof (F32Facts.round_integer TO_ZERO neg m e v Hm Hden) as Ht.
    destruct (TruncationFacts.lane_of_finite src st i neg m e Hi Hd
                ltac:(rewrite Ht; exact Hv)) as [_ Hs].
    now rewrite Hs.
  - rewrite (LaneOrder.float_to_int64_result src st).
    rewrite (LaneOrder.float_to_int64_result src st'). reflexivity.
Qed.

Lemma float_to_int64_exact_on_integers_witness :
  signed 64
    (elem 64
       (regs2 (fst (VecConvert_int64_t_2_float_1 float_register
                      {| rc := TO_POS_INF; flags := [Inexact] |}))) 9)
  = 3000000000.
Proof.
  apply (float_to_int64_exact_on_integers float_register
           {| rc := TO_POS_INF; flags := [Inexact] |}
           {| rc := TO_ZERO; flags := [] |} 9 3000000000 ltac:(lia)).
  - vm_compute. reflexivity.
  - lia.
Defined.

Module OrderFacts.
Import Bits BitsFacts F32 F32Facts.

(** What a finite pattern below the exponent of [2^63] decodes to. *)
Lemma finite_below_2_63 b neg m e :
  decode b = FFin neg m e -> exponent_field b < 190 ->
  0 <= m < 2 ^ 24 /\ e <= 39.
Proof.
  intros Hd Hex.
  destruct (TruncationFacts.decode_by_exponent b ltac:(lia))
    as [m' [e' [Hd' [Hm [H0 Hn]]]]].
  rewrite Hd in Hd'.
  pose proof (f_equal (fun c => match c with FFin _ x _ => x | _ => 0 end) Hd')
    as Em.
  pose proof (f_equal (fun c => match c with FFin _ _ x => x | _ => 0 end) Hd')
    as Ee.
  cbv beta iota in Em, Ee. subst m' e'.
  split; [exact Hm|].
  destruct (Z.eq_dec (exponent_field b) 0) as [Hz | Hz].
  - rewrite (H0 Hz). lia.
  - destruct (Hn Hz) as [_ ->]. lia.
Qed.

(** Truncation keeps the order of the numbers. *)
Lemma to_zero_monotone n1 m1 e1 n2 m2 e2 :
  0 <= m1 -> 0 <= m2 ->
  finite_le n1 m1 e1 n2 m2 e2 ->
  to_integer TO_ZERO n1 m1 e1 <= to_integer TO_ZERO n2 m2 e2.
Proof.
  intros H1 H2 Hle. unfold finite_le in Hle.
  rewrite !TruncationFacts.to_zero_quot by assumption.
  pose proof (denominator_pos e1) as D1.
  pose proof (denominator_pos e2) as D2.
  rewrite <- (Z.quot_mul_cancel_r (numerator n1 m1 e1) (denominator e1)
                (denominator e2)) by lia.
  rewrite <- (Z.quot_mul_cancel_r (numerator n2 m2 e2) (denominator e2)
                (denominator e1)) by lia.
  rewrite (Z.mul_comm (denominator e2) (denominator e1)).
  apply Z.quot_le_mono; nia.
Qed.

End OrderFacts.

(** X6: the float-to-int64 kernel keeps the order of the lanes it can
    represent: of two finite lanes of magnitude below 2^63, the one that
    holds the smaller number converts to the smaller (or the same)
    integer. *)
Theorem float_to_int64_monotone
    (src : Z) (st : MXCSR) (i j : nat)
    (n1 : bool) (m1 e1 : Z) (n2 : bool) (m2 e2 : Z) :
  (i < 16)%nat -> (j < 16)%nat ->
  decode (lane 32 src i) = FFin n1 m1 e1 ->
  decode (lane 32 src j) = FFin n2 m2 e2 ->
  exponent_field (lane 32 src i) < 190 ->
  exponent_field (lane 32 src j) < 190 ->
  finite_le n1 m1 e1 n2 m2 e2 ->
  signed 64 (elem 64 (regs2 (fst (VecConvert_int64_t_2_float_1 src st))) i)
  <= signed 64 (elem 64 (regs2 (fst (VecConvert_int64_t_2_float_1 src st))) j).
Proof.
  intros Hi Hj Hd1 Hd2 Hx1 Hx2 Hle.
  destruct (OrderFacts.finite_below_2_63 _ _ _ _ Hd1 Hx1) as [Hm1 He1].
  destruct (OrderFacts.finite_below_2_63 _ _ _ _ Hd2 Hx2) as [Hm2 He2].
  pose proof (TruncationFacts.truncated_bound n1 m1 e1 Hm1 He1) as Hb1.
  pose proof (TruncationFacts.truncated_bound n2 m2 e2 Hm2 He2) as Hb2.
  destruct (TruncationFacts.lane_of_finite src st i n1 m1 e1 Hi Hd1
              ltac:(lia)) as [_ ->].
  destruct (TruncationFacts.lane_of_finite src st j n2 m2 e2 Hj Hd2
              ltac:(lia)) as [_ ->].
  apply OrderFacts.to_zero_monotone; lia || assumption.
Qed.

Lemma float_to_int64_monotone_witness :
  signed 64
    (elem 64
       (regs2 (fst (VecConvert_int64_t_2_float_1 float_register
                      {| rc := TO_NEAREST_INT; flags := [] |}))) 5)
  <= signed 64
       (elem 64
          (regs2 (fst (VecConvert_int64_t_2_float_1 float_register
                         {| rc := TO_NEAREST_INT; flags := [] |}))) 8).
Proof.
  apply (float_to_int64_monotone float_register
           {| rc := TO_NEAREST_INT; flags := [] |} 5 8
           true 11534336 (-22) true 12582912 (-23));
    try lia; try reflexivity.
  vm_compute. congruence.
Defined.

(** X7: the float-to-int64 kernel is odd: inverting the sign bit of a
    lane of magnitude below 2^63 negates the converted integer (truncation
    treats both signs alike, as rounding down or up would not). *)
Theorem float_to_int64_odd (src src' : Z) (st : MXCSR) (i : nat) :
  (i < 16)%nat ->
  lane 32 src' i = negate (lane 32 src i) ->
  exponent_field (lane 32 src i) < 190 ->
  signed 64 (elem 64 (regs2 (fst (VecConvert_int64_t_2_float_1 src' st))) i)
  = - signed 64
        (elem 64 (regs2 (fst (VecConvert_int64_t_2_float_1 src st))) i).
Proof.
  intros Hi Hneg Hex.
  destruct (TruncationFacts.decode_by_exponent (lane 32 src i) ltac:(lia))
    as [m [e [Hd _]]].
  destruct (OrderFacts.finite_below_2_63 _ _ _ _ Hd Hex) as [Hm He].
  assert (Hd' : decode (lane 32 src' i)
                = FFin (negb (sign_bit (lane 32 src i))) m e).
  { rewrite Hneg, SignFacts.decode_negate. now rewrite Hd. }
  pose proof (TruncationFacts.truncated_bound
                (sign_bit (lane 32 src i)) m e Hm He) as Hb.
  pose proof (TruncationFacts.truncated_bound
                (negb (sign_bit (lane 32 src i))) m e Hm He) as Hb'.
  destruct (TruncationFacts.lane_of_finite src st i _ m e Hi Hd ltac:(lia))
    as [_ ->].
  destruct (TruncationFacts.lane_of_finite src' st i _ m e Hi Hd' ltac:(lia))
    as [_ ->].
  apply SignFacts.to_zero_negated.
Qed.

Lemma float_to_int64_odd_witness :
  signed 64
    (elem 64
       (regs2 (fst (VecConvert_int64_t_2_float_1
                      (pack 32 [3224371200])
                      {| rc := TO_NEAREST_INT; flags := [] |}))) 0)
  = - signed 64
        (elem 64
           (regs2 (fst (VecConvert_int64_t_2_float_1
                          (pack 32 [1076887552])
                          {| rc := TO_NEAREST_INT; flags := [] |}))) 0).
Proof.
  apply float_to_int64_odd; [lia | reflexivity | vm_compute; reflexivity].
Defined.

(** X8: what a lane converts to follows from its exponent field alone:
    below 127 (magnitude under 1, zeros and subnormals included) it gives
    0; from 127 to 189 it gives a nonzero integer of magnitude below 2^63;
    and it gives 0x8000000000000000 exactly when the field is 190 or more
    (magnitude 2^63 or more, infinities and NaNs). *)
Theorem float_to_int64_by_exponent (src : Z) (st : MXCSR) (i : nat) :
  (i < 16)%nat ->
  let ex := exponent_field (lane 32 src i) in
  let out := elem 64 (regs2 (fst (VecConvert_int64_t_2_float_1 src st))) i in
  (ex < 127 -> out = 0)
  /\ (127 <= ex < 190 -> 1 <= Z.abs (signed 64 out) < 2 ^ 63)
  /\ (out = integer_indefinite64 <-> 190 <= ex).
Proof.
  intros Hi ex out. subst out.
  pose proof (TruncationFacts.exponent_field_range (lane 32 src i)) as Hr.
  fold ex in Hr.
  assert (Hfin : ex < 190 ->
            exists neg m e,
              decode (lane 32 src i) = FFin neg m e
              /\ 0 <= m < 2 ^ 24 /\ e <= 39
              /\ (ex < 127 -> e <= -24)
              /\ (127 <= ex -> 2 ^ 23 <= m /\ -23 <= e)
              /\ elem 64
                   (regs2 (fst (VecConvert_int64_t_2_float_1 src st))) i
                 = wrap 64 (to_integer TO_ZERO neg m e)
              /\ signed 64
                   (elem 64
                      (regs2 (fst (VecConvert_int64_t_2_float_1 src st))) i)
                 = to_integer TO_ZERO neg m e).
  { intros Hlt.
    destruct (TruncationFacts.decode_by_exponent (lane 32 src i)
                ltac:(fold ex; lia)) as [m [e [Hd [Hm [H0 Hn]]]]].
    fold ex in H0, Hn.
    destruct (OrderFacts.finite_below_2_63 _ _ _ _ Hd ltac:(fold ex; lia))
      as [_ He].
    pose proof (TruncationFacts.truncated_bound
                  (sign_bit (lane 32 src i)) m e Hm He) as Hb.
    destruct (TruncationFacts.lane_of_finite src st i _ m e Hi Hd ltac:(lia))
      as [Ho Hs].
    exists (sign_bit (lane 32 src i)), m, e.
    split; [exact Hd|]. split; [exact Hm|]. split; [exact He|].
    split; [|split; [|split; [exact Ho | exact Hs]]].
    - intros Hs127. destruct (Z.eq_dec ex 0) as [Hz | Hz].
      + rewrite (H0 Hz). lia.
      + destruct (Hn Hz) as [_ ->]. lia.
    - intros Hge. destruct (Hn ltac:(lia)) as [Hm' ->]. lia. }
  split; [|split].
  - intros Hlt. destruct (Hfin ltac:(lia)) as [neg [m [e H]]].
    destruct H as [_ [Hm [_ [Hs [_ [Ho _]]]]]].
    rewrite Ho, (TruncationFacts.truncated_small neg m e Hm (Hs Hlt)).
    reflexivity.
  - intros [Hge Hlt]. destruct (Hfin Hlt) as [neg [m [e H]]].
    destruct H as [_ [Hm [He [_ [Hn [_ Hs]]]]]].
    destruct (Hn Hge) as [Hm23 He23].
    rewrite Hs.
    pose proof (TruncationFacts.truncated_bound neg m e Hm He) as Hb.
    split; [|lia].
    assert (Hmag : 1 <= round_magnitude TO_ZERO neg m e).
    { unfold round_magnitude. destruct (Z.leb_spec 0 e).
      - assert (0 < 2 ^ e) by (apply Z.pow_pos_nonneg; lia). nia.
      - rewrite Z.shiftr_div_pow2 by lia.
        assert (0 < 2 ^ (- e) <= 2 ^ 23).
        { split; [apply Z.pow_pos_nonneg; lia
                 | apply Z.pow_le_mono_r; lia]. }
        apply Z.div_le_lower_bound; lia. }
    unfold to_integer. destruct neg; lia.
  - split.
    + intros Hout.
      destruct (Z.lt_ge_cases ex 190) as [Hlt | Hge]; [exfalso|exact Hge].
      destruct (Hfin Hlt) as [neg [m [e H]]].
      destruct H as [_ [Hm [He [_ [_ [_ Hs]]]]]].
      pose proof (TruncationFacts.truncated_bound neg m e Hm He) as Hb.
      rewrite Hout in Hs.
      change (signed 64 integer_indefinite64) with (- 2 ^ 63) in Hs. lia.
    + intros Hge. apply TruncationFacts.lane_of_unfit; [assumption|].
      destruct (Z.eq_dec ex 255) as [H255 | H255].
      * destruct (TruncationFacts.decode_not_finite _ H255) as [-> | [n ->]];
          exact I.
      * destruct (TruncationFacts.decode_by_exponent (lane 32 src i) H255)
          as [m [e [Hd [Hm [_ Hn]]]]].
        rewrite Hd. destruct (Hn ltac:(fold ex; lia)) as [Hm23 He].
        fold ex in He.
        pose proof (TruncationFacts.truncated_large
                      (sign_bit (lane 32 src i)) m e Hm23 ltac:(lia)) as Hl.
        unfold to_integer. destruct (sign_bit (lane 32 src i)); lia.
Qed.

Lemma float_to_int64_by_exponent_witness :
  elem 64
    (regs2 (fst (VecConvert_int64_t_2_float_1 float_register
                   {| rc := TO_NEAREST_INT; flags := [] |}))) 14
  = 0
  /\ elem 64
       (regs2 (fst (VecConvert_int64_t_2_float_1 float_register
                      {| rc := TO_NEAREST_INT; flags := [] |}))) 3
     = integer_indefinite64.
Proof.
  destruct (float_to_int64_by_exponent float_register
              {| rc := TO_NEAREST_INT; flags := [] |} 14 ltac:(lia))
    as [H0 _].
  destruct (float_to_int64_by_exponent float_register
              {| rc := TO_NEAREST_INT; flags := [] |} 3 ltac:(lia))
    as [_ [_ [_ H1]]].
  split.
  - apply H0. vm_compute. reflexivity.
  - apply H1. vm_compute. congruence.
Defined.

(** ** int64 to float, lane by lane *)

Module EncodeFacts.
Import Bits BitsFacts F32 F32Facts.

(** A pattern put together from sign, exponent field and fraction field
    decodes to them. *)
Lemma decode_encode (s : bool) E F :
  0 <= F < 2 ^ 23 -> 0 < E < 255 ->
  let b := (if s then 2 ^ 31 else 0) + (E * 2 ^ 23 + F) in
  0 <= b < 2 ^ 32 /\ decode b = FFin s (F + 2 ^ 23) (E - 150).
Proof.
  intros HF HE b.
  assert (Hb : 0 <= b < 2 ^ 32) by (subst b; destruct s; lia).
  assert (Hfr : fraction_field b = F).
  { unfold fraction_field. rewrite Z.land_ones by lia.
    symmetry. apply Z.mod_unique with ((if s then 256 else 0) + E); [lia|].
    subst b. destruct s; lia. }
  assert (Hex : exponent_field b = E).
  { unfold exponent_field. change 255 with (Z.ones 8).
    rewrite Z.shiftr_div_pow2, Z.land_ones by lia.
    assert (Hq : b / 2 ^ 23 = (if s then 256 else 0) + E).
    { symmetry. apply Z.div_unique with F; [lia|]. subst b. destruct s; lia. }
    rewrite Hq. symmetry.
    apply Z.mod_unique with (if s then 1 else 0); [lia|]. destruct s; lia. }
  assert (Hsg : sign_bit b = s).
  { unfold sign_bit.
    pose proof (testbit_top 32 b ltac:(lia) Hb) as Ht.
    change (32 - 1) with 31 in Ht. rewrite Ht.
    subst b. destruct s; [apply Z.leb_le | apply Z.leb_gt]; lia. }
  split; [exact Hb|].
  unfold decode. cbv zeta. rewrite Hex, Hfr, Hsg.
  destruct (Z.eqb_spec E 255); [lia|].
  destruct (Z.eqb_spec E 0); [lia|]. reflexivity.
Qed.

(** The pattern of a negative integer is that of its magnitude with the
    sign bit set. *)
Lemma of_integer_sign v :
  v <> 0 ->
  of_integer v = (if v <? 0 then 2 ^ 31 else 0) + of_integer (Z.abs v).
Proof.
  intros Hv. unfold of_integer.
  destruct (Z.eqb_spec v 0); [contradiction|].
  destruct (Z.eqb_spec (Z.abs v) 0); [lia|].
  cbv zeta. rewrite Z.abs_idemp.
  destruct (Z.ltb_spec (Z.abs v) 0); [lia|].
  change (Z.shiftl 1 31) with (2 ^ 31). lia.
Qed.

(** The fields of the pattern of a positive integer and the number they
    stand for: the integer itself up to 2^24, and beyond that a multiple of
    [2^(k-23)] no further from it than half that step; [2^63] from
    [2^63 - 2^38] on. *)
Lemma of_integer_pos a :
  0 < a <= 2 ^ 63 ->
  exists E F,
    of_integer a = E * 2 ^ 23 + F
    /\ 0 <= F < 2 ^ 23 /\ 127 <= E <= 190
    /\ (E < 150 -> F + 2 ^ 23 = a * 2 ^ (150 - E))
    /\ (150 <= E ->
        2 ^ 24 * Z.abs ((F + 2 ^ 23) * 2 ^ (E - 150) - a) <= a
        /\ (a <= 2 ^ 24 -> (F + 2 ^ 23) * 2 ^ (E - 150) = a)
        /\ (a < 2 ^ 63 - 2 ^ 38 -> (F + 2 ^ 23) * 2 ^ (E - 150) < 2 ^ 63))
    /\ (E = 190 -> F = 0)
    /\ (2 ^ 63 - 2 ^ 38 <= a -> E = 190).
Proof.
  intros Ha. unfold of_integer.
  destruct (Z.eqb_spec a 0); [lia|]. cbv zeta.
  destruct (Z.ltb_spec a 0); [lia|].
  rewrite Z.abs_eq by lia.
  destruct (Z.log2_spec a ltac:(lia)) as [Hlo Hhi].
  pose proof (Z.log2_nonneg a) as Hk0.
  assert (Hk63 : Z.log2 a <= 63).
  { change 63 with (Z.log2 (2 ^ 63)). apply Z.log2_le_mono. lia. }
  set (k := Z.log2 a) in *.
  rewrite (Z.shiftl_mul_pow2 (k + 127)) by lia.
  destruct (Z.leb_spec k 23) as [Hk | Hk].
  - (* the integer fits the significand *)
    rewrite Z.shiftl_mul_pow2 by lia.
    assert (Hp : 2 ^ 23 = 2 ^ k * 2 ^ (23 - k)).
    { rewrite <- Z.pow_add_r by lia. f_equal. lia. }
    assert (Hp' : 2 ^ 24 = 2 ^ Z.succ k * 2 ^ (23 - k)).
    { rewrite <- Z.pow_add_r by lia. f_equal. lia. }
    assert (Hpos : 0 < 2 ^ (23 - k)) by (apply Z.pow_pos_nonneg; lia).
    exists (k + 127), (a * 2 ^ (23 - k) - 2 ^ 23).
    split; [lia|]. split; [nia|]. split; [lia|].
    split; [|split; [|split; [lia | nia]]].
    + intros _. replace (150 - (k + 127)) with (23 - k) by lia. lia.
    + intros HE. assert (k = 23) by lia. subst k.
      replace (Z.log2 a + 127 - 150) with 0 by lia.
      replace (23 - Z.log2 a) with 0 in * by lia.
      change (2 ^ 0) with 1 in *. repeat split; intros; lia.
  - (* the integer is rounded to 24 bits *)
    set (sh := k - 23) in *.
    assert (Hsh : 0 < sh <= 40) by (subst sh; lia).
    rewrite Z.shiftr_div_pow2, Z.land_ones by lia.
    rewrite (Z.shiftl_mul_pow2 1) by lia. rewrite Z.mul_1_l.
    assert (HP : 0 < 2 ^ sh) by (apply Z.pow_pos_nonneg; lia).
    assert (Hhalf : 2 ^ sh = 2 * 2 ^ (sh - 1)).
    { rewrite <- Z.pow_succ_r by lia. f_equal. lia. }
    assert (Hk2 : 2 ^ k = 2 ^ 23 * 2 ^ sh).
    { rewrite <- Z.pow_add_r by lia. f_equal. subst sh. lia. }
    assert (Hk2' : 2 ^ Z.succ k = 2 ^ 24 * 2 ^ sh).
    { rewrite <- Z.pow_add_r by lia. f_equal. subst sh. lia. }
    pose proof (Z.div_mod a (2 ^ sh) ltac:(lia)) as Hdm.
    pose proof (Z.mod_pos_bound a (2 ^ sh) ltac:(lia)) as Hrem.
    set (q := a / 2 ^ sh) in *. set (r := a mod 2 ^ sh) in *.
    set (h := 2 ^ (sh - 1)) in *.
    assert (Hq : 2 ^ 23 <= q < 2 ^ 24) by nia.
    assert (Hexact : a <= 2 ^ 24 -> r = 0 /\ sh = 1 /\ q = 2 ^ 23).
    { intros Hle. assert (Hsh1 : sh = 1).
      { destruct (Z.eq_dec sh 1) as [|Hne]; [assumption|exfalso].
        assert (2 ^ 2 <= 2 ^ sh) by (apply Z.pow_le_mono_r; lia). nia. }
      rewrite Hsh1 in *. change (2 ^ 1) with 2 in *. lia. }
    assert (Hk1 : k <= 62 -> 2 ^ 24 * 2 ^ sh <= 2 ^ 63).
    { intros Hle. rewrite <- Hk2'. apply Z.pow_le_mono_r; lia. }
    assert (Hk3 : k = 63 -> 2 ^ sh = 2 ^ 40 /\ a = 2 ^ 63 /\ q = 2 ^ 23 /\ r = 0).
    { intros Heq. rewrite Heq in Hlo.
      assert (Hsh40 : 2 ^ sh = 2 ^ 40) by (f_equal; subst sh; lia).
      rewrite Hsh40 in *. lia. }
    assert (Hk4 : k = 62 -> 2 ^ sh = 2 ^ 39 /\ h = 2 ^ 38).
    { intros Heq. split; [|subst h]; f_equal; subst sh; lia. }
    assert (Hk5 : 2 ^ 63 - 2 ^ 38 <= a -> k = 62 \/ k = 63).
    { intros Hge.
      destruct (Z.le_gt_cases 62 k) as [|Hlt]; [lia|exfalso].
      assert (2 ^ Z.succ k <= 2 ^ 62) by (apply Z.pow_le_mono_r; lia). lia. }
    set (up := (h <? r) || ((r =? h) && Z.odd q)).
    assert (Hup : up = true -> h <= r).
    { subst up. destruct (Z.ltb_spec h r); cbn [orb]; [lia|].
      destruct (Z.eqb_spec r h); cbn [andb]; [lia|discriminate]. }
    assert (Hdown : up = false -> r <= h).
    { subst up. destruct (Z.ltb_spec h r); cbn [orb]; [discriminate|lia]. }
    assert (Hmax : 2 ^ 63 - 2 ^ 38 <= a -> k = 62 ->
                   up = true /\ q + 1 = 2 ^ 24).
    { intros Hge Heq. destruct (Hk4 Heq) as [Hs39 Hh38].
      rewrite Hs39 in *.
      assert (Hq1 : q = 2 ^ 24 - 1) by lia.
      split; [|lia]. subst up.
      destruct (Z.ltb_spec h r); cbn [orb]; [reflexivity|].
      destruct (Z.eqb_spec r h); [|lia]. cbn [andb].
      rewrite Hq1. reflexivity. }
    destruct up eqn:Eup.
    + specialize (Hup eq_refl).
      destruct (Z.eq_dec (q + 1) (2 ^ 24)) as [Hc | Hc].
      * (* the carry runs into the exponent *)
        assert (Hk62 : k <= 62).
        { destruct (Z.eq_dec k 63) as [Hk63'|]; [exfalso|lia].
          destruct (Hk3 Hk63') as [_ [_ [Hq23 _]]]. lia. }
        exists (k + 128), 0.
        split; [lia|]. split; [lia|]. split; [lia|]. split; [lia|].
        split; [|split; [reflexivity|]].
        -- intros _.
           replace (k + 128 - 150) with (sh + 1) by (subst sh; lia).
           rewrite Z.pow_add_r by lia. change (2 ^ 1) with 2.
           split; [|split; [intros Hle; destruct (Hexact Hle); lia|]].
           { rewrite Z.abs_eq by nia. nia. }
           intros Hlt. destruct (Z.eq_dec k 62) as [Hk62' | Hk62'].
           { exfalso. destruct (Hk4 Hk62') as [Hs39 Hh38].
             rewrite Hs39 in *. lia. }
           assert (2 ^ Z.succ k <= 2 ^ 62) by (apply Z.pow_le_mono_r; lia).
           nia.
        -- intros Hge. destruct (Hk5 Hge); lia.
      * exists (k + 127), (q + 1 - 2 ^ 23).
        split; [lia|]. split; [lia|]. split; [lia|]. split; [lia|].
        split; [|split].
        -- intros _. replace (k + 127 - 150) with sh by (subst sh; lia).
           replace (q + 1 - 2 ^ 23 + 2 ^ 23) with (q + 1) by lia.
           split;
             [|split; [intros Hle; destruct (Hexact Hle) as [? [? ?]]; lia|]].
           { rewrite Z.abs_eq by nia. nia. }
           intros Hlt. destruct (Z.eq_dec k 63) as [Hk63' | Hk63'];
             [destruct (Hk3 Hk63') as [_ [? _]]; lia|].
           specialize (Hk1 ltac:(lia)). nia.
        -- intros HE. destruct (Hk3 ltac:(lia)) as [_ [_ [_ Hr0]]].
           assert (0 < h) by (subst h; apply Z.pow_pos_nonneg; lia). lia.
        -- intros Hge. destruct (Hk5 Hge) as [H62 | H63].
           ++ destruct (Hmax Hge H62) as [_ Hq1]. lia.
           ++ lia.
    + specialize (Hdown eq_refl).
      exists (k + 127), (q - 2 ^ 23).
      split; [lia|]. split; [lia|]. split; [lia|]. split; [lia|].
      split; [|split].
      * intros _. replace (k + 127 - 150) with sh by (subst sh; lia).
        replace (q - 2 ^ 23 + 2 ^ 23) with q by lia.
        split;
          [|split; [intros Hle; destruct (Hexact Hle) as [? [? ?]]; nia|]].
        { rewrite Z.abs_neq by nia. nia. }
        intros Hlt. nia.
      * intros HE. destruct (Hk3 ltac:(lia)) as [_ [_ [Hq23 _]]]. lia.
      * intros Hge. destruct (Hk5 Hge) as [H62 | H63].
        -- destruct (Hmax Hge H62) as [Ht _]. discriminate Ht.
        -- lia.
Qed.

End EncodeFacts.

(** ** The rounding direction of the int64 to float conversion *)

Module RoundingFacts.
Import Bits BitsFacts F32 F32Facts.

(** With the rounding control at round to nearest, the conversion is the
    one to nearest, ties to even. *)
Lemma of_integer_r_nearest v : of_integer_r TO_NEAREST_INT v = of_integer v.
Proof.
  unfold of_integer_r, of_integer.
  destruct (Z.eqb_spec v 0); [reflexivity|]. cbv zeta.
  destruct (Z.leb_spec (Z.log2 (Z.abs v)) 23) as [Hk | Hk]; [reflexivity|].
  unfold round_magnitude.
  destruct (Z.leb_spec 0 (23 - Z.log2 (Z.abs v))); [lia|]. cbv zeta.
  replace (- (23 - Z.log2 (Z.abs v))) with (Z.log2 (Z.abs v) - 23) by lia.
  rewrite (Z.shiftl_mul_pow2 1 (Z.log2 (Z.abs v) - 23 - 1)) by lia.
  rewrite Z.mul_1_l. reflexivity.
Qed.

(** An integer whose bits below the 24 leading ones are zero converts to
    the same pattern in every rounding direction. *)
Lemma of_integer_r_exact r v :
  (23 < Z.log2 (Z.abs v) ->
   Z.land (Z.abs v) (Z.ones (Z.log2 (Z.abs v) - 23)) = 0) ->
  of_integer_r r v = of_integer_r TO_NEAREST_INT v.
Proof.
  intros Hex. unfold of_integer_r.
  destruct (Z.eqb_spec v 0); [reflexivity|]. cbv zeta.
  destruct (Z.leb_spec (Z.log2 (Z.abs v)) 23) as [Hk | Hk]; [reflexivity|].
  specialize (Hex Hk).
  do 3 f_equal. unfold round_magnitude.
  destruct (Z.leb_spec 0 (23 - Z.log2 (Z.abs v))); [lia|]. cbv zeta.
  replace (- (23 - Z.log2 (Z.abs v))) with (Z.log2 (Z.abs v) - 23) by lia.
  rewrite Hex.
  assert (Hh : 0 < 2 ^ (Z.log2 (Z.abs v) - 23 - 1))
    by (apply Z.pow_pos_nonneg; lia).
  destruct (Z.ltb_spec (2 ^ (Z.log2 (Z.abs v) - 23 - 1)) 0); [lia|].
  destruct (Z.eqb_spec 0 (2 ^ (Z.log2 (Z.abs v) - 23 - 1))); [lia|].
  cbn [orb andb].
  destruct r; try reflexivity; destruct (v <? 0); reflexivity.
Qed.

(** An integer of magnitude at most 2^24 has no bit to round away. *)
Lemma small_is_exact v :
  Z.abs v <= 2 ^ 24 ->
  23 < Z.log2 (Z.abs v) ->
  Z.land (Z.abs v) (Z.ones (Z.log2 (Z.abs v) - 23)) = 0.
Proof.
  intros Hv Hk.
  assert (Hle : Z.log2 (Z.abs v) <= 24).
  { change 24 with (Z.log2 (2 ^ 24)). now apply Z.log2_le_mono. }
  assert (Hk24 : Z.log2 (Z.abs v) = 24) by lia.
  destruct (Z.log2_spec (Z.abs v)) as [Hlo _].
  { destruct (Z.abs v) eqn:E; try lia. discriminate Hk24. }
  rewrite Hk24 in *. assert (Ha : Z.abs v = 2 ^ 24) by lia.
  rewrite Ha. reflexivity.
Qed.

(** Neither has an integer that a 32-bit pattern denotes. *)
Lemma denoted_is_exact b v :
  denotes b v ->
  23 < Z.log2 (Z.abs v) ->
  Z.land (Z.abs v) (Z.ones (Z.log2 (Z.abs v) - 23)) = 0.
Proof.
  intros Hden Hk. unfold denotes in Hden.
  pose proof (TruncationFacts.exponent_field_range b) as Hex.
  destruct (Z.eq_dec (exponent_field b) 255) as [H255 | H255].
  { exfalso.
    destruct (TruncationFacts.decode_not_finite b H255) as [Hd | [n Hd]];
      rewrite Hd in Hden; exact Hden. }
  destruct (TruncationFacts.decode_by_exponent b H255)
    as [m [e [Hd [Hm _]]]].
  rewrite Hd in Hden. unfold numerator, denominator in Hden.
  set (a := Z.abs v) in *.
  assert (Ha0 : 0 < a).
  { destruct (Z.eq_dec a 0) as [E | E]; [|subst a; lia].
    rewrite E in Hk. discriminate Hk. }
  destruct (Z.log2_spec a Ha0) as [Hlo Hhi].
  set (k := Z.log2 a) in *.
  assert (H24 : 2 ^ 24 <= 2 ^ k) by (apply Z.pow_le_mono_r; lia).
  destruct (Z.leb_spec 0 e) as [He | He].
  - assert (Hpe : 0 < 2 ^ e) by (apply Z.pow_pos_nonneg; lia).
    assert (Ham : a = m * 2 ^ e) by (subst a; destruct (sign_bit b); lia).
    assert (Hke : k - 23 <= e).
    { destruct (Z.le_gt_cases (k - 23) e) as [|Hlt]; [assumption|exfalso].
      assert (2 ^ (24 + e) <= 2 ^ k) by (apply Z.pow_le_mono_r; lia).
      rewrite Z.pow_add_r in * by lia. nia. }
    rewrite Z.land_ones by lia. rewrite Ham.
    replace (2 ^ e) with (2 ^ (e - (k - 23)) * 2 ^ (k - 23))
      by (rewrite <- Z.pow_add_r by lia; f_equal; lia).
    rewrite Z.mul_assoc. apply Z.mod_mul.
    apply Z.pow_nonzero; lia.
  - exfalso.
    assert (Hpe : 0 < 2 ^ (- e)) by (apply Z.pow_pos_nonneg; lia).
    assert (Ham : m = a * 2 ^ (- e)) by (subst a; destruct (sign_bit b); lia).
    nia.
Qed.

(** The pattern of an int64 (or of 2^63) fits 32 bits in every rounding
    direction. *)
Lemma of_integer_r_range r v :
  - 2 ^ 63 <= v <= 2 ^ 63 -> 0 <= of_integer_r r v < 2 ^ 32.
Proof.
  intros Hv. unfold of_integer_r.
  destruct (Z.eqb_spec v 0); [lia|]. cbv zeta.
  set (a := Z.abs v).
  assert (Ha : 0 < a <= 2 ^ 63) by (subst a; lia).
  destruct (Z.log2_spec a ltac:(lia)) as [Hlo Hhi].
  pose proof (Z.log2_nonneg a) as Hk0.
  assert (Hk63 : Z.log2 a <= 63).
  { change 63 with (Z.log2 (2 ^ 63)). apply Z.log2_le_mono. lia. }
  set (k := Z.log2 a) in *.
  rewrite (Z.shiftl_mul_pow2 (k + 127)) by lia.
  assert (Hs : 0 <= (if v <? 0 then Z.shiftl 1 31 else 0) <= 2 ^ 31).
  { change (Z.shiftl 1 31) with (2 ^ 31). destruct (v <? 0); lia. }
  assert (Hm : 2 ^ 23
               <= (if k <=? 23 then Z.shiftl a (23 - k)
                   else round_magnitude r (v <? 0) a (23 - k))
               <= 2 ^ 24).
  { destruct (Z.leb_spec k 23) as [Hk | Hk].
    - rewrite Z.shiftl_mul_pow2 by lia.
      assert (Hp : 2 ^ 23 = 2 ^ k * 2 ^ (23 - k)).
      { rewrite <- Z.pow_add_r by lia. f_equal. lia. }
      assert (Hp' : 2 ^ 24 = 2 ^ Z.succ k * 2 ^ (23 - k)).
      { rewrite <- Z.pow_add_r by lia. f_equal. lia. }
      assert (0 < 2 ^ (23 - k)) by (apply Z.pow_pos_nonneg; lia). nia.
    - destruct (shift_mask_div_mod a (- (23 - k)) ltac:(lia)) as [Hdm Hrem].
      assert (Hk2 : 2 ^ k = 2 ^ 23 * 2 ^ (- (23 - k))).
      { rewrite <- Z.pow_add_r by lia. f_equal. lia. }
      assert (Hk2' : 2 ^ Z.succ k = 2 ^ 24 * 2 ^ (- (23 - k))).
      { rewrite <- Z.pow_add_r by lia. f_equal. lia. }
      assert (0 < 2 ^ (- (23 - k))) by (apply Z.pow_pos_nonneg; lia).
      destruct (round_magnitude_cases r (v <? 0) a (23 - k) ltac:(lia))
        as [-> | [-> _]]; nia. }
  lia.
Qed.

End RoundingFacts.

Module RoundTripFacts.
Import Bits BitsFacts F32 F32Facts Intrin Group Kernels KernelFacts.

(** The pattern of an int64 denotes an integer close to it. *)
Lemma of_integer_denotes v :
  - 2 ^ 63 <= v < 2 ^ 63 ->
  exists R,
    denotes (of_integer v) R
    /\ 0 <= of_integer v < 2 ^ 32
    /\ - 2 ^ 63 <= R <= 2 ^ 63
    /\ 2 ^ 24 * Z.abs (R - v) <= Z.abs v
    /\ (Z.abs v <= 2 ^ 24 -> R = v)
    /\ (v < 2 ^ 63 - 2 ^ 38 -> R < 2 ^ 63)
    /\ (2 ^ 63 - 2 ^ 38 <= v -> R = 2 ^ 63).
Proof.
  intros Hv. destruct (Z.eq_dec v 0) as [-> | Hnz].
  { exists 0. split; [vm_compute; reflexivity|].
    change (of_integer 0) with 0. repeat split; intros; lia. }
  destruct (EncodeFacts.of_integer_pos (Z.abs v) ltac:(lia))
    as [E [F [Hbits [HF [HE [Hlow [Hhigh [H190 Hmax]]]]]]]].
  destruct (EncodeFacts.decode_encode (v <? 0) E F HF ltac:(lia))
    as [Hrange Hdec].
  rewrite (EncodeFacts.of_integer_sign v Hnz), Hbits.
  unfold denotes. rewrite Hdec.
  unfold numerator, denominator.
  destruct (Z.leb_spec 0 (E - 150)) as [He | He].
  - destruct (Hhigh ltac:(lia)) as [Hb [Hex Hlt]].
    set (Rp := (F + 2 ^ 23) * 2 ^ (E - 150)) in *.
    assert (HRp : 0 < Rp <= 2 ^ 63).
    { subst Rp.
      assert (0 < 2 ^ (E - 150)) by (apply Z.pow_pos_nonneg; lia).
      split; [nia|].
      destruct (Z.eq_dec E 190) as [-> | Hne].
      - rewrite (H190 eq_refl). reflexivity.
      - assert (2 ^ (E - 150) <= 2 ^ 39) by (apply Z.pow_le_mono_r; lia).
        nia. }
    assert (HRmax : 2 ^ 63 - 2 ^ 38 <= Z.abs v -> Rp = 2 ^ 63).
    { intros Hge. subst Rp. rewrite (Hmax Hge), (H190 (Hmax Hge)).
      reflexivity. }
    destruct (Z.ltb_spec v 0) as [Hneg | Hpos].
    + exists (- Rp). rewrite Z.abs_neq in * by lia.
      split; [lia|]. split; [exact Hrange|]. repeat split; intros; lia.
    + exists Rp. rewrite Z.abs_eq in * by lia.
      split; [lia|]. split; [exact Hrange|]. repeat split; intros; lia.
  - specialize (Hlow ltac:(lia)).
    replace (- (E - 150)) with (150 - E) by lia.
    exists v. split; [destruct (Z.ltb_spec v 0); lia|].
    split; [exact Hrange|].
    assert (Hsmall : Z.abs v < 2 ^ 24).
    { assert (0 < 2 ^ (150 - E)) by (apply Z.pow_pos_nonneg; lia). nia. }
    rewrite Z.sub_diag. repeat split; intros; lia.
Qed.

(** The lane of the merged float register. *)
Lemma int64_to_float_lane_value undef src st i :
  (i < 16)%nat ->
  lane 32 (VecConvert_float_1_int64_t_2 undef src st) i
  = of_integer_r (rc st) (signed 64 (elem 64 (regs2 src) i)).
Proof.
  intros Hi. rewrite LaneOrder.int64_to_float_lane by assumption.
  pose proof (signed_range 64 (elem 64 (regs2 src) i) ltac:(lia)) as Hs.
  apply wrap_small; [lia|].
  apply RoundingFacts.of_integer_r_range. lia.
Qed.

(** The same lane with the rounding control at its default, round to
    nearest. *)
Lemma int64_to_float_lane_nearest undef src st i :
  (i < 16)%nat -> rc st = TO_NEAREST_INT ->
  lane 32 (VecConvert_float_1_int64_t_2 undef src st) i
  = of_integer (signed 64 (elem 64 (regs2 src) i)).
Proof.
  intros Hi Hrc. rewrite (int64_to_float_lane_value undef src st i Hi), Hrc.
  apply RoundingFacts.of_integer_r_nearest.
Qed.

(** The same lane when the conversion is exact: the rounding control plays
    no part. *)
Lemma int64_to_float_lane_exact undef src st i :
  (i < 16)%nat ->
  (23 < Z.log2 (Z.abs (signed 64 (elem 64 (regs2 src) i))) ->
   Z.land (Z.abs (signed 64 (elem 64 (regs2 src) i)))
     (Z.ones (Z.log2 (Z.abs (signed 64 (elem 64 (regs2 src) i))) - 23))
   = 0) ->
  lane 32 (VecConvert_float_1_int64_t_2 undef src st) i
  = of_integer (signed 64 (elem 64 (regs2 src) i)).
Proof.
  intros Hi Hex. rewrite (int64_to_float_lane_value undef src st i Hi).
  rewrite (RoundingFacts.of_integer_r_exact (rc st) _ Hex).
  apply RoundingFacts.of_integer_r_nearest.
Qed.

(** The lane a denoted integer converts to. *)
Lemma lane_of_denoted src st i R :
  (i < 16)%nat -> denotes (lane 32 src i) R ->
  (- 2 ^ 63 <= R < 2 ^ 63 ->
   signed 64 (elem 64 (regs2 (fst (VecConvert_int64_t_2_float_1 src st))) i)
   = R)
  /\ (R = 2 ^ 63 ->
      signed 64
        (elem 64 (regs2 (fst (VecConvert_int64_t_2_float_1 src st))) i)
      = - 2 ^ 63).
Proof.
  intros Hi Hden. unfold denotes in Hden.
  destruct (decode (lane 32 src i)) as [| neg | neg m e] eqn:Hd;
    try contradiction.
  pose proof (decode_finite_nonneg _ _ _ _ Hd) as Hm.
  pose proof (round_integer TO_ZERO neg m e R Hm Hden) as Ht.
  split.
  - intros HR.
    destruct (TruncationFacts.lane_of_finite src st i neg m e Hi Hd
                ltac:(rewrite Ht; exact HR)) as [_ Hs].
    now rewrite Hs.
  - intros HR. rewrite (TruncationFacts.lane_of_unfit src st i Hi).
    + reflexivity.
    + rewrite Hd, Ht. lia.
Qed.

End RoundTripFacts.

(** The conversion follows the rounding control of MXCSR.  Toward zero,
    the lane 0x0123456789ABCDEF becomes the pattern 0x5B91A2B3 and to
    nearest 0x5B91A2B4; the lane 2^63 - 1 becomes 0x5EFFFFFF (the float
    2^63 - 2^39, which converts back to that integer) toward zero, and
    0x5F000000 (the float 2^63, which converts back to the indefinite
    pattern) to nearest; the lane 2^24 + 1 becomes 2^24 toward minus
    infinity and 2^24 + 2 toward plus infinity, and its negation the
    other way round. *)
Example int64_to_float_follows_rounding_control :
  let convert r i :=
    lane 32 (VecConvert_float_1_int64_t_2 0 int64_group_inexact
               {| rc := r; flags := [] |}) i in
  let back r i :=
    signed 64
      (elem 64
         (regs2 (fst (VecConvert_int64_t_2_float_1
                        (VecConvert_float_1_int64_t_2 0 int64_group_inexact
                           {| rc := r; flags := [] |})
                        {| rc := TO_NEAREST_INT; flags := [] |}))) i) in
  convert TO_ZERO 0%nat = 1536271027
  /\ convert TO_NEAREST_INT 0%nat = 1536271028
  /\ convert TO_ZERO 1%nat = 1593835519
  /\ convert TO_NEAREST_INT 1%nat = 1593835520
  /\ back TO_ZERO 1%nat = 2 ^ 63 - 2 ^ 39
  /\ back TO_NEAREST_INT 1%nat = - 2 ^ 63
  /\ back TO_NEG_INF 2%nat = 2 ^ 24
  /\ back TO_POS_INF 2%nat = 2 ^ 24 + 2
  /\ back TO_NEG_INF 10%nat = - (2 ^ 24 + 2)
  /\ back TO_POS_INF 10%nat = - 2 ^ 24.
Proof. vm_compute. repeat split. Qed.

(** X9: with the rounding control of MXCSR at its default, round to
    nearest, the int64-to-float kernel gives, for every lane, a finite float
    (never a NaN or an infinity) that holds an integer: the lane's value
    itself when its magnitude is at most 2^24, and otherwise an integer
    within a 2^-24 part of the value.  The instruction has no rounding
    immediate, so under another rounding control the bound does not hold
    ([int64_to_float_follows_rounding_control]). *)
Theorem int64_to_float_nearest
    (undef : Z) (src : Z * Z) (st : MXCSR) (i : nat) :
  (i < 16)%nat ->
  rc st = TO_NEAREST_INT ->
  let v := signed 64 (elem 64 (regs2 src) i) in
  exists R,
    denotes (lane 32 (VecConvert_float_1_int64_t_2 undef src st) i) R
    /\ 2 ^ 24 * Z.abs (R - v) <= Z.abs v
    /\ (Z.abs v <= 2 ^ 24 -> R = v).
Proof.
  intros Hi Hrc v.
  rewrite (RoundTripFacts.int64_to_float_lane_nearest undef src st i Hi Hrc).
  fold v.
  pose proof (signed_range 64 (elem 64 (regs2 src) i) ltac:(lia)) as Hs.
  fold v in Hs.
  destruct (RoundTripFacts.of_integer_denotes v ltac:(lia))
    as [R [Hd [_ [_ [Hb [He _]]]]]].
  exists R. split; [exact Hd|]. split; [exact Hb | exact He].
Qed.

Lemma int64_to_float_nearest_witness :
  exists R,
    denotes
      (lane 32 (VecConvert_float_1_int64_t_2 0 int64_group_out_of_range
                  {| rc := TO_NEAREST_INT; flags := [] |}) 9) R
    /\ 2 ^ 24 * Z.abs (R - (2 ^ 40 - 1)) <= Z.abs (2 ^ 40 - 1)
    /\ (Z.abs (2 ^ 40 - 1) <= 2 ^ 24 -> R = 2 ^ 40 - 1).
Proof.
  exact (int64_to_float_nearest 0 int64_group_out_of_range
           {| rc := TO_NEAREST_INT; flags := [] |} 9 ltac:(lia) eq_refl).
Defined.

(** X10: with the rounding control of MXCSR at its default, round to
    nearest, when the group is converted to float (the conversion back
    fixes its own rounding and may run under any MXCSR), converting a group
    of int64 to float and back gives, lane by lane: the lane itself when
    its magnitude is at most 2^24; an integer within a 2^-24 part of it
    when it is below 2^63 - 2^38; and [- 2^63] when it is 2^63 - 2^38 or
    more, because such a lane rounds to the float 2^63, which the way back
    cannot represent.  Under another rounding control of the first
    conversion neither the bound nor the threshold holds
    ([int64_to_float_follows_rounding_control]). *)
Theorem int64_float_int64_round_trip
    (undef : Z) (src : Z * Z) (st0 st : MXCSR) (i : nat) :
  (i < 16)%nat ->
  rc st0 = TO_NEAREST_INT ->
  let v := signed 64 (elem 64 (regs2 src) i) in
  let back :=
    signed 64
      (elem 64
         (regs2 (fst (VecConvert_int64_t_2_float_1
                        (VecConvert_float_1_int64_t_2 undef src st0) st)))
         i) in
  (v < 2 ^ 63 - 2 ^ 38 ->
   2 ^ 24 * Z.abs (back - v) <= Z.abs v
   /\ (Z.abs v <= 2 ^ 24 -> back = v))
  /\ (2 ^ 63 - 2 ^ 38 <= v -> back = - 2 ^ 63).
Proof.
  intros Hi Hrc v back. subst back.
  pose proof (signed_range 64 (elem 64 (regs2 src) i) ltac:(lia)) as Hs.
  fold v in Hs.
  destruct (RoundTripFacts.of_integer_denotes v ltac:(lia))
    as [R [Hd [_ [HR [Hb [He [Hlt Hge]]]]]]].
  assert (Hden : denotes
                   (lane 32 (VecConvert_float_1_int64_t_2 undef src st0) i)
                   R).
  { rewrite (RoundTripFacts.int64_to_float_lane_nearest
               undef src st0 i Hi Hrc).
    exact Hd. }
  destruct (RoundTripFacts.lane_of_denoted
              (VecConvert_float_1_int64_t_2 undef src st0) st i R Hi Hden)
    as [Hin Hout].
  split.
  - intros Hv. specialize (Hlt Hv). rewrite (Hin ltac:(lia)).
    split; [exact Hb | exact He].
  - intros Hv. apply Hout. exact (Hge Hv).
Qed.

Lemma int64_float_int64_round_trip_witness :
  signed 64
    (elem 64
       (regs2 (fst (VecConvert_int64_t_2_float_1
                      (VecConvert_float_1_int64_t_2 0
                         int64_group_out_of_range
                         {| rc := TO_NEAREST_INT; flags := [] |})
                      {| rc := TO_POS_INF; flags := [] |}))) 7)
  = - 2 ^ 63
  /\ signed 64
       (elem 64
          (regs2 (fst (VecConvert_int64_t_2_float_1
                         (VecConvert_float_1_int64_t_2 0
                            int64_group_out_of_range
                            {| rc := TO_NEAREST_INT; flags := [] |})
                         {| rc := TO_POS_INF; flags := [] |}))) 6)
     = -100.
Proof.
  destruct (int64_float_int64_round_trip 0 int64_group_out_of_range
              {| rc := TO_NEAREST_INT; flags := [] |}
              {| rc := TO_POS_INF; flags := [] |} 7 ltac:(lia) eq_refl)
    as [_ H7].
  destruct (int64_float_int64_round_trip 0 int64_group_out_of_range
              {| rc := TO_NEAREST_INT; flags := [] |}
              {| rc := TO_POS_INF; flags := [] |} 6 ltac:(lia) eq_refl)
    as [H6 _].
  split.
  - apply H7. vm_compute. congruence.
  - refine (eq_trans (proj2 (H6 _) _) _);
      [reflexivity | vm_compute; congruence | reflexivity].
Defined.

Module ExactFacts.
Import Bits BitsFacts F32 F32Facts.

(** A 32-bit pattern is its three fields put together. *)
Lemma fields_recompose b :
  0 <= b < 2 ^ 32 ->
  b = (if sign_bit b then 2 ^ 31 else 0)
      + (exponent_field b * 2 ^ 23 + fraction_field b).
Proof.
  intros Hb.
  pose proof (Z.div_mod b (2 ^ 23) ltac:(lia)) as Hdm.
  pose proof (Z.mod_pos_bound b (2 ^ 23) ltac:(lia)) as Hfr.
  assert (Hh : 0 <= b / 2 ^ 23 < 512).
  { split; [apply Z.div_pos; lia | apply Z.div_lt_upper_bound; lia]. }
  unfold fraction_field, exponent_field, sign_bit.
  change 255 with (Z.ones 8).
  rewrite Z.shiftr_div_pow2, !Z.land_ones by lia.
  pose proof (testbit_top 32 b ltac:(lia) Hb) as Ht.
  change (32 - 1) with 31 in Ht. rewrite Ht.
  destruct (Z.leb_spec (2 ^ 31) b) as [Hs | Hs].
  - assert (Hm : (b / 2 ^ 23) mod 2 ^ 8 = b / 2 ^ 23 - 256).
    { symmetry. apply Z.mod_unique with 1; lia. }
    rewrite Hm. lia.
  - rewrite (Z.mod_small (b / 2 ^ 23)) by lia. lia.
Qed.

(** The pattern of an integer that a normal float holds exactly is that
    float. *)
Lemma of_integer_exact (s : bool) m e v :
  2 ^ 23 <= m < 2 ^ 24 -> -23 <= e ->
  numerator s m e = v * denominator e ->
  of_integer v
  = (if s then 2 ^ 31 else 0) + ((e + 150) * 2 ^ 23 + (m - 2 ^ 23)).
Proof.
  intros Hm He Hv. unfold numerator, denominator in Hv.
  assert (Hsplit : 2 ^ 23 = 2 ^ (23 + e) * 2 ^ (- e) \/ 0 <= e).
  { destruct (Z.le_gt_cases 0 e); [now right|left].
    rewrite <- Z.pow_add_r by lia. f_equal. lia. }
  assert (Ha : Z.abs v * (if 0 <=? e then 1 else 2 ^ (- e))
               = (if 0 <=? e then m * 2 ^ e else m)
               /\ (v <? 0) = s /\ v <> 0).
  { destruct (Z.leb_spec 0 e).
    - assert (0 < 2 ^ e) by (apply Z.pow_pos_nonneg; lia).
      destruct s; [|].
      + split; [lia|]. split; [apply Z.ltb_lt; nia | nia].
      + split; [lia|]. split; [apply Z.ltb_ge; nia | nia].
    - assert (0 < 2 ^ (- e)) by (apply Z.pow_pos_nonneg; lia).
      destruct s.
      + assert (v < 0) by nia.
        split; [nia|]. split; [apply Z.ltb_lt; lia | lia].
      + assert (0 < v) by nia.
        split; [nia|]. split; [apply Z.ltb_ge; lia | lia]. }
  destruct Ha as [Ha [Hsg Hnz]].
  unfold of_integer.
  destruct (Z.eqb_spec v 0); [contradiction|]. cbv zeta.
  rewrite Hsg. change (Z.shiftl 1 31) with (2 ^ 31).
  set (a := Z.abs v) in *.
  assert (Hk : Z.log2 a = 23 + e).
  { apply Z.log2_unique; [lia|].
    replace (Z.succ (23 + e)) with (24 + e) by lia.
    destruct (Z.leb_spec 0 e).
    - rewrite !Z.pow_add_r by lia.
      assert (0 < 2 ^ e) by (apply Z.pow_pos_nonneg; lia). nia.
    - destruct Hsplit as [H23 | ?]; [|lia].
      assert (H24 : 2 ^ 24 = 2 ^ (24 + e) * 2 ^ (- e)).
      { rewrite <- Z.pow_add_r by lia. f_equal. lia. }
      assert (0 < 2 ^ (- e)) by (apply Z.pow_pos_nonneg; lia).
      assert (0 < 2 ^ (23 + e)) by (apply Z.pow_pos_nonneg; lia).
      assert (0 < 2 ^ (24 + e)) by (apply Z.pow_pos_nonneg; lia).
      nia. }
  rewrite Hk. rewrite (Z.shiftl_mul_pow2 (23 + e + 127)) by lia.
  replace (23 + e + 127) with (e + 150) by lia.
  f_equal. f_equal. f_equal.
  destruct (Z.leb_spec (23 + e) 23) as [Hle | Hgt].
  - rewrite Z.shiftl_mul_pow2 by lia.
    replace (23 - (23 + e)) with (- e) by lia.
    destruct (Z.leb_spec 0 e).
    + assert (e = 0) by lia. subst e. change (2 ^ (- 0)) with 1.
      change (2 ^ 0) with 1 in Ha. lia.
    + lia.
  - destruct (Z.leb_spec 0 e); [|lia].
    replace (23 + e - 23) with e by lia.
    assert (0 < 2 ^ e) by (apply Z.pow_pos_nonneg; lia).
    assert (Ham : a = m * 2 ^ e) by lia.
    rewrite Z.shiftr_div_pow2, Z.land_ones by lia.
    rewrite Ham, Z.div_mul, Z.mod_mul by lia.
    rewrite (Z.shiftl_mul_pow2 1) by lia. rewrite Z.mul_1_l.
    assert (0 < 2 ^ (e - 1)) by (apply Z.pow_pos_nonneg; lia).
    destruct (Z.ltb_spec (2 ^ (e - 1)) 0); [lia|].
    destruct (Z.eqb_spec 0 (2 ^ (e - 1))); [lia|]. reflexivity.
Qed.

(** The pattern of a nonzero integer that a 32-bit pattern denotes is that
    pattern. *)
Lemma of_integer_of_denoted b v :
  0 <= b < 2 ^ 32 -> denotes b v -> v <> 0 -> of_integer v = b.
Proof.
  intros Hb Hden Hnz.
  pose proof (TruncationFacts.exponent_field_range b) as Hex.
  destruct (Z.eq_dec (exponent_field b) 255) as [H255 | H255].
  { exfalso. unfold denotes in Hden.
    destruct (TruncationFacts.decode_not_finite b H255) as [Hd | [n Hd]];
      rewrite Hd in Hden; exact Hden. }
  destruct (TruncationFacts.decode_by_exponent b H255)
    as [m [e [Hd [Hm [H0 Hn]]]]].
  unfold denotes in Hden. rewrite Hd in Hden.
  destruct (Z.eq_dec (exponent_field b) 0) as [Hz | Hz].
  { exfalso. specialize (H0 Hz). subst e.
    unfold numerator, denominator in Hden. cbn [Z.leb Z.compare] in Hden.
    change (- -149) with 149 in Hden.
    assert (Hbig : 2 ^ 24 < 2 ^ 149) by (apply Z.pow_lt_mono_r; lia).
    destruct (sign_bit b); nia. }
  destruct (Hn Hz) as [Hm23 He].
  assert (He23 : -23 <= e).
  { destruct (Z.le_gt_cases (-23) e) as [|Hlt]; [assumption|exfalso].
    unfold numerator, denominator in Hden.
    destruct (Z.leb_spec 0 e); [lia|].
    assert (2 ^ 24 <= 2 ^ (- e)) by (apply Z.pow_le_mono_r; lia).
    destruct (sign_bit b); nia. }
  rewrite (of_integer_exact (sign_bit b) m e v ltac:(lia) He23 Hden).
  pose proof (fields_recompose b Hb) as Hrec.
  assert (Hfr : fraction_field b = m - 2 ^ 23).
  { pose proof (f_equal
      (fun c => match c with FFin _ x _ => x | _ => 0 end) Hd) as Em.
    unfold decode in Em. cbv zeta in Em.
    destruct (Z.eqb_spec (exponent_field b) 255); [contradiction|].
    destruct (Z.eqb_spec (exponent_field b) 0); [contradiction|].
    cbv beta iota in Em. lia. }
  destruct (sign_bit b); lia.
Qed.

End ExactFacts.

(** X11: converting a register of floats to int64 and back gives back,
    bit for bit, every lane that holds a nonzero integer of the int64
    range; a lane that holds zero comes back as +0.0, so -0.0 loses its
    sign.  This holds under every MXCSR of either conversion: the way back
    is exact on such a lane, so its rounding direction plays no part. *)
Theorem float_int64_float_round_trip
    (undef src : Z) (st st' : MXCSR) (i : nat) (v : Z) :
  (i < 16)%nat ->
  denotes (lane 32 src i) v ->
  - 2 ^ 63 <= v < 2 ^ 63 ->
  let back :=
    lane 32
      (VecConvert_float_1_int64_t_2 undef
         (fst (VecConvert_int64_t_2_float_1 src st)) st') i in
  (v <> 0 -> back = lane 32 src i) /\ (v = 0 -> back = 0).
Proof.
  intros Hi Hden Hv back. subst back.
  destruct (RoundTripFacts.lane_of_denoted src st i v Hi Hden) as [Hin _].
  specialize (Hin Hv).
  rewrite (RoundTripFacts.int64_to_float_lane_exact undef
             (fst (VecConvert_int64_t_2_float_1 src st)) st' i Hi)
    by (rewrite Hin;
        exact (RoundingFacts.denoted_is_exact (lane 32 src i) v Hden)).
  rewrite Hin. split.
  - intros Hnz. apply ExactFacts.of_integer_of_denoted; [|exact Hden|exact Hnz].
    apply (lane_range 32 src i). lia.
  - intros ->. reflexivity.
Qed.

Lemma float_int64_float_round_trip_witness :
  lane 32
    (VecConvert_float_1_int64_t_2 0
       (fst (VecConvert_int64_t_2_float_1 float_register
               {| rc := TO_NEAREST_INT; flags := [] |}))
       {| rc := TO_ZERO; flags := [] |}) 1
  = lane 32 float_register 1
  /\ lane 32
       (VecConvert_float_1_int64_t_2 0
          (fst (VecConvert_int64_t_2_float_1 float_register
                  {| rc := TO_NEAREST_INT; flags := [] |}))
          {| rc := TO_ZERO; flags := [] |}) 14
     = 0.
Proof.
  destruct (float_int64_float_round_trip 0 float_register
              {| rc := TO_NEAREST_INT; flags := [] |}
              {| rc := TO_ZERO; flags := [] |} 1 (-1000)
              ltac:(lia) ltac:(vm_compute; reflexivity) ltac:(lia))
    as [H1 _].
  destruct (float_int64_float_round_trip 0 float_register
              {| rc := TO_NEAREST_INT; flags := [] |}
              {| rc := TO_ZERO; flags := [] |} 14 0
              ltac:(lia) ltac:(vm_compute; reflexivity) ltac:(lia))
    as [_ H14].
  split; [apply H1; lia | apply H14; reflexivity].
Defined.

Module GroupFacts.
Import Bits BitsFacts F32 Intrin Group Kernels KernelFacts.

Lemma float_to_int64_range src st :
  is_m512 (fst (fst (VecConvert_int64_t_2_float_1 src st)))
  /\ is_m512 (snd (fst (VecConvert_int64_t_2_float_1 src st))).
Proof.
  rewrite LaneOrder.float_to_int64_result. cbn [fst snd]. unfold is_m512.
  split.
  - pose proof (pack_range 64
      (map (fun b => fst (cvtps_epi64_lane TO_ZERO b))
         (unpack 32 8 (_mm512_castps512_ps256 src))) ltac:(lia)) as H.
    rewrite length_map, unpack_length in H. exact H.
  - pose proof (pack_range 64
      (map (fun b => fst (cvtps_epi64_lane TO_ZERO b))
         (unpack 32 8 (_mm512_extractf32x8_ps src 1))) ltac:(lia)) as H.
    rewrite length_map, unpack_length in H. exact H.
Qed.

(** Two well-formed groups of int64 with the same sixteen lane values are
    the same group. *)
Lemma group_eq_of_values (g g' : Z * Z) :
  is_m512 (fst g) -> is_m512 (snd g) ->
  is_m512 (fst g') -> is_m512 (snd g') ->
  (forall j, (j < 16)%nat ->
     signed 64 (elem 64 (regs2 g) j) = signed 64 (elem 64 (regs2 g') j)) ->
  g = g'.
Proof.
  intros H0 H1 H0' H1' Hall.
  assert (Hpat : forall j, (j < 16)%nat ->
            elem 64 (regs2 g) j = elem 64 (regs2 g') j).
  { intros j Hj. specialize (Hall j Hj).
    apply (f_equal (wrap 64)) in Hall.
    rewrite !wrap_signed in Hall by lia.
    revert Hall. revert j Hj. apply (split16 (fun j =>
      wrap 64 (elem 64 (regs2 g) j) = wrap 64 (elem 64 (regs2 g') j) ->
      elem 64 (regs2 g) j = elem 64 (regs2 g') j)); intros j Hj.
    - rewrite !elem64_low by assumption. now rewrite !wrap_lane by lia.
    - rewrite !elem64_high by assumption. now rewrite !wrap_lane by lia. }
  apply injective_projections.
  - apply (eq_of_lanes 64 8); try lia; [exact H0 | exact H0' |].
    intros j Hj. rewrite <- !elem64_low by assumption. apply Hpat. lia.
  - apply (eq_of_lanes 64 8); try lia; [exact H1 | exact H1' |].
    intros j Hj. rewrite <- !elem64_high by assumption. apply Hpat. lia.
Qed.

End GroupFacts.

(** X12: a well-formed group of int64 all of whose lanes have magnitude
    at most 2^24 survives the conversion to float and back unchanged, bit
    for bit, whatever the undefined half of the cast holds and whatever
    MXCSR (rounding control included) either conversion runs under. *)
Theorem int64_float_int64_identity
    (undef : Z) (src : Z * Z) (st0 st : MXCSR) :
  is_m512 (fst src) -> is_m512 (snd src) ->
  (forall j, (j < 16)%nat ->
     Z.abs (signed 64 (elem 64 (regs2 src) j)) <= 2 ^ 24) ->
  fst (VecConvert_int64_t_2_float_1
         (VecConvert_float_1_int64_t_2 undef src st0) st)
  = src.
Proof.
  intros H0 H1 Hall.
  destruct (GroupFacts.float_to_int64_range
              (VecConvert_float_1_int64_t_2 undef src st0) st) as [R0 R1].
  apply GroupFacts.group_eq_of_values; try assumption.
  intros j Hj.
  pose proof (signed_range 64 (elem 64 (regs2 src) j) ltac:(lia)) as Hs.
  destruct (RoundTripFacts.of_integer_denotes
              (signed 64 (elem 64 (regs2 src) j)) ltac:(lia))
    as [R [Hd [_ [_ [_ [He _]]]]]].
  specialize (He (Hall j Hj)). subst R.
  assert (Hden : denotes
                   (lane 32 (VecConvert_float_1_int64_t_2 undef src st0) j)
                   (signed 64 (elem 64 (regs2 src) j))).
  { rewrite (RoundTripFacts.int64_to_float_lane_exact undef src st0 j Hj)
      by exact (RoundingFacts.small_is_exact _ (Hall j Hj)).
    exact Hd. }
  destruct (RoundTripFacts.lane_of_denoted
              (VecConvert_float_1_int64_t_2 undef src st0) st j _ Hj Hden)
    as [Hin _].
  apply Hin. lia.
Qed.

Lemma int64_group_small_ok :
  forall j, (j < 16)%nat ->
    Z.abs (signed 64 (elem 64 (regs2 int64_group_small) j)) <= 2 ^ 24.
Proof.
  intros j Hj.
  do 16 (destruct j as [|j]; [vm_compute; congruence|]). lia.
Qed.

Lemma int64_float_int64_identity_witness :
  fst (VecConvert_int64_t_2_float_1
         (VecConvert_float_1_int64_t_2 5 int64_group_small
            {| rc := TO_POS_INF; flags := [] |})
         {| rc := TO_NEG_INF; flags := [] |})
  = int64_group_small.
Proof.
  apply int64_float_int64_identity.
  - split; vm_compute; congruence.
  - split; vm_compute; congruence.
  - exact int64_group_small_ok.
Defined.

(** ** The 16-bit float kernels, whatever their helpers compute *)

Module HalfWidthFacts.
Import Bits BitsFacts Intrin.

(** The low half of a widening cast is its argument. *)
Lemma low_half_of_cast undef a :
  wrap 256 (_mm512_castsi256_si512 undef a) = wrap 256 a.
Proof.
  unfold _mm512_castsi256_si512.
  rewrite lor_shiftl_add by (lia || apply wrap_range; lia).
  rewrite (wrap_mod 256 (_ + _)) by lia.
  rewrite Z.mod_add by lia. rewrite <- wrap_mod by lia.
  apply wrap_idem. lia.
Qed.

End HalfWidthFacts.

(** X13: for any helpers, the brain-float and half up-conversions read
    only the low 256 bits of their source (the first 16 of its 32 lanes),
    and the down-conversions store the helper's 256-bit result in the low
    half of theirs, where the undefined upper half of the cast plays no
    part. *)
Theorem half_width_kernels_use_low_half
    (helpers : Vec512Helpers) (undef undef' src src' : Z) :
  wrap 256 src = wrap 256 src' ->
  VecConvert_float_1_BFloat16_1 src = VecConvert_float_1_BFloat16_1 src'
  /\ VecConvert_float_1_Half_1 src = VecConvert_float_1_Half_1 src'
  /\ wrap 256 (VecConvert_BFloat16_1_float_1 undef src)
     = wrap 256 (cvtfp32_bf16 src)
  /\ wrap 256 (VecConvert_Half_1_float_1 undef src)
     = wrap 256 (cvtfp32_fp16 src)
  /\ wrap 256 (VecConvert_BFloat16_1_float_1 undef src)
     = wrap 256 (VecConvert_BFloat16_1_float_1 undef' src)
  /\ wrap 256 (VecConvert_Half_1_float_1 undef src)
     = wrap 256 (VecConvert_Half_1_float_1 undef' src).
Proof.
  intros Hlow.
  unfold VecConvert_float_1_BFloat16_1, VecConvert_float_1_Half_1,
    VecConvert_BFloat16_1_float_1, VecConvert_Half_1_float_1,
    _mm512_castsi512_si256.
  rewrite Hlow, !HalfWidthFacts.low_half_of_cast.
  repeat split; reflexivity.
Qed.

Lemma half_width_kernels_use_low_half_witness :
  VecConvert_float_1_BFloat16_1 (helpers := spec_helpers default_unspecified)
    (2 ^ 256 + 16256)
  = VecConvert_float_1_BFloat16_1 (helpers := spec_helpers default_unspecified)
      16256
  /\ wrap 256
       (VecConvert_BFloat16_1_float_1
          (helpers := spec_helpers default_unspecified) 1 float_register)
     = wrap 256
         (VecConvert_BFloat16_1_float_1
            (helpers := spec_helpers default_unspecified) 2 float_register).
Proof.
  destruct (half_width_kernels_use_low_half
              (spec_helpers default_unspecified) 1 2
              (2 ^ 256 + 16256) 16256 ltac:(vm_compute; reflexivity))
    as [Hb _].
  destruct (half_width_kernels_use_low_half
              (spec_helpers default_unspecified) 1 2
              float_register float_register eq_refl)
    as [_ [_ [_ [_ [Hd _]]]]].
  split; [exact Hb | exact Hd].
Defined.

(** ** The int64 to float conversion in every rounding direction *)

Module DirectedFacts.
Import Bits BitsFacts F32 F32Facts.




End DirectedFacts.


